(** * Chunked file-transfer service: bookkeeping, assembly and reclamation

    A shallow embedding of [storage.py], [main.py] (the upload endpoint and
    the on-demand cleanup endpoint) and [background.py] (one round of the
    periodic cleanup), followed by the properties of the interval-tracking
    design that the code does and does not satisfy.

    Conventions of the embedding.
    - Python [int] is [Z]; [bytes] is [list byte].
    - [upload_tracker], a Python [dict] iterated in insertion order, is an
      association list with the dict's update discipline ([Dict.set] keeps
      the position of an existing key, [Dict.del] removes the key).
    - The two directories are finite maps from file name to content.  A
      fragment name [f"{file_id}_{start}_{end}.chunk"] is kept as the triple
      [(file_id, start, end)] it is formatted from (decimal integers contain
      no underscore, so the formatted name determines the triple).
    - [datetime.now()] is an explicit argument, in microseconds (the
      resolution of [datetime]); at that resolution the conversion to a float
      number of seconds is strictly monotone for present-day dates, so the
      comparisons of the source are the comparisons on [Z] below.
    - Exceptions are the [Raise] results of a state-and-error monad over the
      whole store.  The fragment write of [save_chunk] takes its outcome as
      an argument.  The [open] of a partial artifact [<id>.incomplete] asks
      the file system, given as the argument [creatable], whether it lets a
      file of that name be created: a refused name (a name longer than the
      file system allows, say) raises [OSError].  The [open] of an assembled
      artifact, whose name [<id>] is shorter than the name of every fragment
      already written for the session, and the writes into an open artifact
      are taken to succeed. *)

From Stdlib Require Import ZArith Lia Bool.
From stdpp Require Import gmap strings list fin_maps sorting.
From Equations Require Import Equations.

Open Scope Z_scope.

(** ** Data model ([models.py] and the tracker records of [storage.py]) *)

Abbreviation bytes := (list Byte.byte).

Record FileChunk := {
  file_id : string;
  start_byte : Z;
  end_byte : Z;
  data : bytes;
  checksum : Z;
  total_size : option Z
}.

(** One element of [upload_tracker[file_id]["chunks"]]. *)
Record chunk_rec := {
  c_start : Z;
  c_end : Z;
  c_path : string * Z * Z;
  c_checksum : Z;
  c_timestamp : Z
}.

(** One value of [upload_tracker].  The ["status"] key is absent until
    [assemble_file] sets it. *)
Record file_info := {
  chunks : list chunk_rec;
  fi_total_size : option Z;
  last_updated : Z;
  status : option string
}.

Record store := {
  upload_tracker : list (string * file_info);
  CHUNK_DIR : gmap (string * Z * Z) bytes;
  UPLOAD_DIR : gmap string bytes
}.

Definition empty_store : store :=
  {| upload_tracker := []; CHUNK_DIR := ∅; UPLOAD_DIR := ∅ |}.

Definition STALE_THRESHOLD : Z := 3600 * 1000000.

(** ** Insertion-ordered dictionaries *)

Module Dict.
Section Dict.
Context {V : Type}.

Fixpoint get (k : string) (d : list (string * V)) : option V :=
  match d with
  | [] => None
  | (k', v) :: r => if decide (k' = k) then Some v else get k r
  end.

Definition mem (k : string) (d : list (string * V)) : bool :=
  match get k d with Some _ => true | None => false end.

(** [d[k] = v]: an existing key keeps its position, a new one goes last. *)
Fixpoint set (k : string) (v : V) (d : list (string * V)) : list (string * V) :=
  match d with
  | [] => [(k, v)]
  | (k', v') :: r =>
      if decide (k' = k) then (k, v) :: r else (k', v') :: set k v r
  end.

(** In-place mutation of the object stored under [k]. *)
Fixpoint alter (f : V → V) (k : string) (d : list (string * V)) : list (string * V) :=
  match d with
  | [] => []
  | (k', v) :: r =>
      if decide (k' = k) then (k', f v) :: r else (k', v) :: alter f k r
  end.

(** [del d[k]]. *)
Definition del (k : string) (d : list (string * V)) : list (string * V) :=
  filter (λ kv, kv.1 ≠ k) d.
End Dict.
End Dict.

(** ** Exceptions and the store monad *)

Inductive exn :=
| OSError
| FileNotFoundError
| ValueError
| HTTPException (status_code : Z) (detail : string).

Inductive result (A : Type) :=
| Ok (a : A)
| Raise (e : exn).
Arguments Ok {A} a.
Arguments Raise {A} e.

Definition M (A : Type) : Type := store → result A * store.

Definition ret {A} (a : A) : M A := λ s, (Ok a, s).
Definition raise {A} (e : exn) : M A := λ s, (Raise e, s).
Definition bind {A B} (m : M A) (k : A → M B) : M B :=
  λ s, match m s with
       | (Ok a, s') => k a s'
       | (Raise e, s') => (Raise e, s')
       end.
Definition get_store : M store := λ s, (Ok s, s).
Definition modify (f : store → store) : M unit := λ s, (Ok tt, f s).

Notation "'let*' x ':=' m 'in' k" := (bind m (λ x, k))
  (at level 10, x name, m at level 100, k at level 200).
Notation "m '>>' k" := (bind m (λ _, k))
  (at level 100, k at level 200, right associativity).

Definition set_tracker (t : list (string * file_info)) (s : store) : store :=
  {| upload_tracker := t; CHUNK_DIR := CHUNK_DIR s; UPLOAD_DIR := UPLOAD_DIR s |}.
Definition set_chunk_dir (d : gmap (string * Z * Z) bytes) (s : store) : store :=
  {| upload_tracker := upload_tracker s; CHUNK_DIR := d; UPLOAD_DIR := UPLOAD_DIR s |}.
Definition set_upload_dir (d : gmap string bytes) (s : store) : store :=
  {| upload_tracker := upload_tracker s; CHUNK_DIR := CHUNK_DIR s; UPLOAD_DIR := d |}.

(** ** File-system primitives *)

(** What the environment lets the fragment write of [save_chunk] do. *)
Inductive io_outcome :=
| io_ok
| io_open_fails
| io_write_fails (written : nat).

(** [with open(chunk_path, "wb") as f: f.write(data)].  A failed [open]
    leaves the directory alone; a failed write leaves a truncated file. *)
Definition write_fragment (io : io_outcome) (p : string * Z * Z) (d : bytes) : M unit :=
  match io with
  | io_ok => modify (λ s, set_chunk_dir (<[p := d]> (CHUNK_DIR s)) s)
  | io_open_fails => raise OSError
  | io_write_fails n =>
      modify (λ s, set_chunk_dir (<[p := take n d]> (CHUNK_DIR s)) s) >>
      raise OSError
  end.

(** [with open(path, "rb") as infile: infile.read()]. *)
Definition read_fragment (p : string * Z * Z) : M bytes :=
  λ s, match CHUNK_DIR s !! p with
       | Some d => (Ok d, s)
       | None => (Raise FileNotFoundError, s)
       end.

(** [open(output_path, "wb")]: creates or truncates. *)
Definition create_file (name : string) : M unit :=
  modify (λ s, set_upload_dir (<[name := []]> (UPLOAD_DIR s)) s).

(** [open(output_path, "wb")] where the file system has a say, [creatable]
    telling which names it lets be created or truncated: a refused [open]
    raises [OSError] and leaves the directory alone. *)
Definition open_output (creatable : string → bool) (name : string) : M unit :=
  if creatable name then create_file name else raise OSError.

(** [outfile.write(d)] on the open output file. *)
Definition append_file (name : string) (d : bytes) : M unit :=
  modify (λ s, set_upload_dir
                 (<[name := default [] (UPLOAD_DIR s !! name) ++ d]> (UPLOAD_DIR s)) s).

(** [try: os.remove(path) except OSError: pass]. *)
Definition remove_fragment (p : string * Z * Z) : M unit :=
  modify (λ s, set_chunk_dir (delete p (CHUNK_DIR s)) s).

(** [for chunk in cs: with open(chunk["path"], "rb") as infile:
    outfile.write(infile.read())] *)
Fixpoint copy_fragments (out : string) (cs : list chunk_rec) : M unit :=
  match cs with
  | [] => ret tt
  | c :: r =>
      let* d := read_fragment (c_path c) in
      append_file out d >>
      copy_fragments out r
  end.

Fixpoint remove_fragments (cs : list chunk_rec) : M unit :=
  match cs with
  | [] => ret tt
  | c :: r => remove_fragment (c_path c) >> remove_fragments r
  end.

(** ** [storage.py] *)

(** [sum(c["end"] - c["start"] + 1 for c in chunks)] *)
Fixpoint sum_lengths (cs : list chunk_rec) : Z :=
  match cs with
  | [] => 0
  | c :: r => (c_end c - c_start c + 1) + sum_lengths r
  end.

(** [sorted(chunks, key=lambda x: x["start"])]; Python's sort is stable. *)
Fixpoint insert_by_start (c : chunk_rec) (l : list chunk_rec) : list chunk_rec :=
  match l with
  | [] => [c]
  | d :: r => if c_start c <=? c_start d then c :: d :: r
              else d :: insert_by_start c r
  end.

Fixpoint sorted_by_start (l : list chunk_rec) : list chunk_rec :=
  match l with
  | [] => []
  | c :: r => insert_by_start c (sorted_by_start r)
  end.

Definition is_complete (fi : file_info) : bool :=
  bool_decide (status fi = Some "complete"%string).

Definition set_status (st : string) (fi : file_info) : file_info :=
  {| chunks := chunks fi; fi_total_size := fi_total_size fi;
     last_updated := last_updated fi; status := Some st |}.

Definition assemble_file (fid : string) : M bool :=
  let* s := get_store in
  match Dict.get fid (upload_tracker s) with
  | None => raise ValueError
  | Some info =>
      let cs := sorted_by_start (chunks info) in
      let expected_size := fi_total_size info in
      let total_received := sum_lengths cs in
      match expected_size with
      | None => ret false
      | Some n =>
          if total_received <? n then ret false
          else
            create_file fid >>
            copy_fragments fid cs >>
            remove_fragments cs >>
            modify (λ s, set_tracker
                           (Dict.alter (set_status "complete") fid (upload_tracker s)) s) >>
            ret true
      end
  end.

Definition new_info (chunk : FileChunk) (ts : Z) : file_info :=
  {| chunks := []; fi_total_size := total_size chunk; last_updated := ts;
     status := None |}.

Definition chunk_path_of (chunk : FileChunk) : string * Z * Z :=
  (file_id chunk, start_byte chunk, end_byte chunk).

Definition new_rec (chunk : FileChunk) (ts : Z) : chunk_rec :=
  {| c_start := start_byte chunk; c_end := end_byte chunk;
     c_path := chunk_path_of chunk; c_checksum := checksum chunk;
     c_timestamp := ts |}.

Definition append_chunk (r : chunk_rec) (fi : file_info) : file_info :=
  {| chunks := chunks fi ++ [r]; fi_total_size := fi_total_size fi;
     last_updated := last_updated fi; status := status fi |}.

Definition set_last_updated (ts : Z) (fi : file_info) : file_info :=
  {| chunks := chunks fi; fi_total_size := fi_total_size fi;
     last_updated := ts; status := status fi |}.

(** The tracker update of [save_chunk], lines 30-45. *)
Definition register_chunk (chunk : FileChunk) (ts : Z)
    (t : list (string * file_info)) : list (string * file_info) :=
  let t1 := if Dict.mem (file_id chunk) t then t
            else Dict.set (file_id chunk) (new_info chunk ts) t in
  let t2 := Dict.alter (append_chunk (new_rec chunk ts)) (file_id chunk) t1 in
  Dict.alter (set_last_updated ts) (file_id chunk) t2.

Definition chunks_of (fid : string) (t : list (string * file_info)) : list chunk_rec :=
  match Dict.get fid t with Some fi => chunks fi | None => [] end.

Definition save_chunk (now : Z) (io : io_outcome) (chunk : FileChunk) : M unit :=
  let ts := now in
  write_fragment io (chunk_path_of chunk) (data chunk) >>
  modify (λ s, set_tracker (register_chunk chunk ts (upload_tracker s)) s) >>
  match total_size chunk with
  | None => ret tt
  | Some n =>
      let* s := get_store in
      let total_received := sum_lengths (chunks_of (file_id chunk) (upload_tracker s)) in
      if total_received >=? n then assemble_file (file_id chunk) >> ret tt
      else ret tt
  end.

Record status_info := {
  si_file_id : string;
  si_status : string;
  received_bytes : Z;
  total_bytes : option Z;
  si_last_updated : option Z;
  next_byte : option Z;
  si_chunks : list (Z * Z)
}.

(** [max(c["end"] for c in chunks)] on a non-empty list. *)
Fixpoint max_end (c : chunk_rec) (cs : list chunk_rec) : Z :=
  match cs with
  | [] => c_end c
  | d :: r => Z.max (c_end c) (max_end d r)
  end.

Definition get_file_status (fid : string) (s : store) : status_info :=
  match Dict.get fid (upload_tracker s) with
  | None =>
      {| si_file_id := fid; si_status := "not_found"; received_bytes := 0;
         total_bytes := None; si_last_updated := None; next_byte := None;
         si_chunks := [] |}
  | Some info =>
      let cs := chunks info in
      {| si_file_id := fid;
         si_status := if is_complete info then "complete"
                      else match cs with [] => "pending" | _ => "partial" end;
         received_bytes := sum_lengths cs;
         total_bytes := fi_total_size info;
         si_last_updated := Some (last_updated info);
         next_byte := Some (match cs with [] => 0 | c :: r => max_end c r + 1 end);
         si_chunks := map (λ c, (c_start c, c_end c)) cs |}
  end.

(** The scan with [break] of lines 139-143 of [cleanup_stale_chunks]. *)
Fixpoint stale_scan (threshold : Z) (cs : list chunk_rec) : bool :=
  match cs with
  | [] => true
  | c :: r => if c_timestamp c >? threshold then false else stale_scan threshold r
  end.

Definition del_session (fid : string) : M unit :=
  modify (λ s, set_tracker (Dict.del fid (upload_tracker s)) s).

(** [for x in l: body(x)]; an exception leaves the loop. *)
Fixpoint for_each {A} (body : A → M unit) (l : list A) : M unit :=
  match l with
  | [] => ret tt
  | x :: r => body x >> for_each body r
  end.

(** The body of the loop of [cleanup_stale_chunks]. *)
Definition cleanup_one (threshold : Z) (item : string * file_info) : M unit :=
  let '(fid, info) := item in
  if is_complete info then ret tt
  else if stale_scan threshold (chunks info) then
    remove_fragments (chunks info) >>
    del_session fid
  else ret tt.

(** The loop runs over [list(upload_tracker.items())], a snapshot taken
    before the first deletion. *)
Definition cleanup_stale_chunks (now : Z) : M unit :=
  let threshold := now - STALE_THRESHOLD in
  let* s := get_store in
  for_each (cleanup_one threshold) (upload_tracker s).

Definition recent_activity (threshold : Z) (info : file_info) : bool :=
  existsb (λ c, c_timestamp c >? threshold) (chunks info).

Definition has_chunks (info : file_info) : bool :=
  match chunks info with [] => false | _ => true end.

Definition incomplete_name (fid : string) : string := fid +:+ ".incomplete".

(** The body of the loop of [persist_incomplete_files]. *)
Definition persist_one (creatable : string → bool) (threshold : Z)
    (item : string * file_info) : M unit :=
  let '(fid, info) := item in
  if is_complete info then ret tt
  else if negb (recent_activity threshold info) && has_chunks info then
    let output := incomplete_name fid in
    open_output creatable output >>
    copy_fragments output (sorted_by_start (chunks info)) >>
    remove_fragments (chunks info) >>
    del_session fid
  else ret tt.

(** As in [cleanup_stale_chunks], the loop runs over a snapshot of the
    tracker; an [OSError] of an [open] leaves the loop and the pass. *)
Definition persist_incomplete_files (creatable : string → bool) (now : Z) : M unit :=
  let threshold := now - STALE_THRESHOLD in
  let* s := get_store in
  for_each (persist_one creatable threshold) (upload_tracker s).

(** ** [background.py]: one round of [periodic_cleanup]

    Each of the two steps reads the clock for itself; nothing else runs
    between them (neither step suspends). *)
Definition periodic_cleanup_round (creatable : string → bool) (now1 now2 : Z) : M unit :=
  cleanup_stale_chunks now1 >>
  persist_incomplete_files creatable now2.

(** ** [main.py] *)

(** The two background tasks of the [/cleanup] endpoint, run in the order
    they were added; the second one does not run when the first one
    raises. *)
Definition trigger_cleanup (creatable : string → bool) (now1 now2 : Z) : M unit :=
  persist_incomplete_files creatable now1 >>
  cleanup_stale_chunks now2.

Definition byte_val (b : Byte.byte) : Z := Z.of_N (Byte.to_N b).

(** [sum(chunk_data)] *)
Fixpoint byte_sum (d : bytes) : Z :=
  match d with
  | [] => 0
  | b :: r => byte_val b + byte_sum r
  end.

(** [header[-1]] of a non-empty header. *)
Definition last_byte (header : bytes) : Z :=
  match last header with Some b => byte_val b | None => 0 end.

(** The [Content-Range] header as the parsing of lines 58-68 and 91 sees
    it: absent; rejected by the [try] block; [bytes start-end/total] with
    [total = None] for ["*"]; or a range followed by a total that is neither
    ["*"] nor an integer, which passes the [try] block and makes [int] raise
    when the chunk is built. *)
Inductive content_range :=
| cr_missing
| cr_invalid
| cr_bytes (start_b end_b : Z) (total : option Z)
| cr_bytes_bad_total (start_b end_b : Z).

(** The checks on the request body, lines 71-82; the result is the payload
    and its checksum. *)
Definition check_body (raw_data : bytes) : M (bytes * Z) :=
  if Z.of_nat (length raw_data) <? 12
  then raise (HTTPException 400 "Invalid chunk format")
  else
    let header := take 12 raw_data in
    let chunk_data := drop 12 raw_data in
    let cksum := byte_sum chunk_data `mod` 256 in
    if negb (cksum =? last_byte header)
    then raise (HTTPException 400 "Checksum verification failed")
    else ret (chunk_data, cksum).

(** [upload_file_chunk] once the bearer token has been verified; the result
    is the ["next_byte"] entry of the response. *)
Definition upload_file_chunk (now : Z) (io : io_outcome) (fid : string)
    (cr : content_range) (raw_data : bytes) : M Z :=
  match cr with
  | cr_missing => raise (HTTPException 400 "Content-Range header required")
  | cr_invalid => raise (HTTPException 400 "Invalid Content-Range header")
  | cr_bytes_bad_total start_b end_b =>
      check_body raw_data >>
      raise ValueError
  | cr_bytes start_b end_b total =>
      let* body := check_body raw_data in
      let chunk := {| file_id := fid; start_byte := start_b; end_byte := end_b;
                      data := body.1; checksum := body.2; total_size := total |} in
      save_chunk now io chunk >>
      ret (end_b + 1)
  end.

(** ** The interval tracker the design document asks for

    These definitions follow the words of the design (section 4.1), not the
    code: a sorted list of disjoint inclusive ranges, where a new range is
    coalesced with every range it overlaps or touches. *)
Module Design.

Fixpoint insert (s e : Z) (l : list (Z * Z)) : list (Z * Z) :=
  match l with
  | [] => [(s, e)]
  | (a, b) :: r =>
      if e + 1 <? a then (s, e) :: (a, b) :: r
      else if b + 1 <? s then (a, b) :: insert s e r
      else insert (Z.min s a) (Z.max e b) r
  end.

Definition insert_all (ranges : list (Z * Z)) : list (Z * Z) :=
  fold_left (λ l r, insert r.1 r.2 l) ranges [].

Fixpoint coveredBytes (l : list (Z * Z)) : Z :=
  match l with
  | [] => 0
  | (a, b) :: r => (b - a + 1) + coveredBytes r
  end.

Definition isComplete (totalSize : Z) (l : list (Z * Z)) : bool :=
  bool_decide (l = [(0, totalSize - 1)]).

(** Lowest byte not yet covered, or the covered size if there is no gap. *)
Definition nextExpectedByte (l : list (Z * Z)) : Z :=
  match l with
  | [] => 0
  | (a, b) :: _ => if 0 <? a then 0 else b + 1
  end.

End Design.

(** ** Running the service on concrete requests *)

Definition run {A} (m : M A) (s : store) : store := (m s).2.
Definition outcome {A} (m : M A) (s : store) : result A := (m s).1.

(** A well-formed request body: twelve header bytes whose last one is the
    checksum, then the payload. *)
Definition body_of (payload : bytes) : bytes :=
  replicate 11 Byte.x00 ++
  [default Byte.x00 (Byte.of_N (Z.to_N (byte_sum payload `mod` 256)))] ++ payload.

Definition zeros (n : nat) : bytes := replicate n Byte.x00.

(** The server handles one upload after the other; a request that ends in an
    exception still leaves its effects in the store. *)
Definition run_requests (reqs : list (Z * FileChunk)) (s : store) : store :=
  fold_left (λ s r, run (save_chunk r.1 io_ok r.2) s) reqs s.

(** [sum] of the raw lengths of the requests that name [fid]. *)
Fixpoint raw_lengths (fid : string) (reqs : list (Z * FileChunk)) : Z :=
  match reqs with
  | [] => 0
  | r :: rest =>
      (if decide (file_id r.2 = fid) then end_byte r.2 - start_byte r.2 + 1 else 0)
      + raw_lengths fid rest
  end.

(** Re-delivery of one chunk, once per clock reading in [nows]. *)
Definition reingest (nows : list Z) (chunk : FileChunk) (s : store) : store :=
  fold_left (λ s now, run (save_chunk now io_ok chunk) s) nows s.

(** One accepted upload request through the endpoint. *)
Definition ingest (now : Z) (fid : string) (start_b end_b : Z) (total : option Z)
    (s : store) : store :=
  run (upload_file_chunk now io_ok fid (cr_bytes start_b end_b total)
         (body_of (zeros (Z.to_nat (end_b - start_b + 1))))) s.

(** [[0,99]] then [[50,149]], no total size declared. *)
Definition overlap_store : store :=
  ingest 20 "f" 50 149 None (ingest 10 "f" 0 99 None empty_store).

(** Declared total 4; [[0,2]] then a second copy of byte 0. *)
Definition short_store : store :=
  ingest 20 "f" 0 0 (Some 4) (ingest 10 "f" 0 2 (Some 4) empty_store).

(** The ranges a status report lists, merged by the design's tracker. *)
Definition merged_coverage (fid : string) (s : store) : list (Z * Z) :=
  Design.insert_all (si_chunks (get_file_status fid s)).

(** ** Predicates of the statements *)

Definition preserves {A} (I : store → Prop) (m : M A) : Prop :=
  ∀ s, I s → I (m s).2.

(** Code that never raises. *)
Definition total {A} (m : M A) : Prop := ∀ s, ∃ a, (m s).1 = Ok a.

(** Outcome-indexed postconditions. *)
Definition wp {A} (m : M A) (Q : A → store → Prop) (Qe : exn → store → Prop)
    (s : store) : Prop :=
  match m s with
  | (Ok a, s') => Q a s'
  | (Raise e, s') => Qe e s'
  end.

(** Every fragment recorded for a session is a file named after that
    session, as [save_chunk] writes them. *)
Definition owned (fid : string) (info : file_info) : Prop :=
  Forall (λ c, (c_path c).1.1 = fid) (chunks info).

Definition tracker_wf (t : list (string * file_info)) : Prop :=
  NoDup t.*1 ∧ Forall (λ kv, owned kv.1 kv.2) t.

(** What a sweep must leave alone for the session [fid]: its record, its
    fragment files and its slot for a partial artifact.  The last component
    says that a sweep only ever removes records. *)
Definition session_kept (fid : string) (info : file_info) (s0 : store) (s : store) : Prop :=
  Dict.get fid (upload_tracker s) = Some info ∧
  (∀ c, c ∈ chunks info → CHUNK_DIR s !! c_path c = CHUNK_DIR s0 !! c_path c) ∧
  UPLOAD_DIR s !! incomplete_name fid = UPLOAD_DIR s0 !! incomplete_name fid ∧
  (∀ x, x ∈ upload_tracker s → x ∈ upload_tracker s0).

Global Instance owned_dec fid info : Decision (owned fid info).
Proof. unfold owned. apply _. Defined.

Global Instance tracker_wf_dec t : Decision (tracker_wf t).
Proof. unfold tracker_wf. apply _. Defined.

Definition start_le (c d : chunk_rec) : Prop := c_start c ≤ c_start d.

(** The fragments of a session are all on disk. *)
Definition present (D : gmap (string * Z * Z) bytes) (cs : list chunk_rec) : Prop :=
  Forall (λ c, is_Some (D !! c_path c)) cs.

(** What reading the fragments of [cs] in order yields. *)
Definition fragments_concat (D : gmap (string * Z * Z) bytes) (cs : list chunk_rec) : bytes :=
  concat (map (λ c, default [] (D !! c_path c)) cs).

(** Every fragment on disk is as long as the range it was recorded for. *)
Definition well_sized (D : gmap (string * Z * Z) bytes) (cs : list chunk_rec) : Prop :=
  Forall (λ c, Z.of_nat (length (default [] (D !! c_path c))) = c_end c - c_start c + 1) cs.

Global Instance present_dec D cs : Decision (present D cs).
Proof. unfold present. apply _. Defined.

Global Instance well_sized_dec D cs : Decision (well_sized D cs).
Proof. unfold well_sized. apply _. Defined.

(** The guards under which the two loop bodies act on a session. *)
Definition persist_acts (threshold : Z) (info : file_info) : bool :=
  negb (is_complete info) && (negb (recent_activity threshold info) && has_chunks info).

Definition cleanup_acts (threshold : Z) (info : file_info) : bool :=
  negb (is_complete info) && negb (recent_activity threshold info).

(** The file system accepts the artifact name of every session of [t] on
    which the persist pass acts. *)
Definition names_accepted (creatable : string → bool) (threshold : Z)
    (t : list (string * file_info)) : bool :=
  forallb (λ kv, negb (persist_acts threshold kv.2) || creatable (incomplete_name kv.1)) t.

(** Sessions not yet complete still have all their fragments on disk. *)
Definition fragments_present (s : store) : Prop :=
  Forall (λ kv, is_complete kv.2 = false → present (CHUNK_DIR s) (chunks kv.2))
         (upload_tracker s).

Global Instance fragments_present_dec s : Decision (fragments_present s).
Proof. unfold fragments_present. apply _. Defined.

(** What a persisted session looks like afterwards, in terms of the store
    [s] the pass started from. *)
Definition persisted (g : string) (gi : file_info) (s s' : store) : Prop :=
  Dict.get g (upload_tracker s') = None ∧
  UPLOAD_DIR s' !! incomplete_name g
  = Some (fragments_concat (CHUNK_DIR s) (sorted_by_start (chunks gi))) ∧
  ∀ c, c ∈ chunks gi → CHUNK_DIR s' !! c_path c = None.

Definition persist_post (threshold : Z) (l : list (string * file_info))
    (s s' : store) : Prop :=
  (∀ p, p.1.1 ∉ l.*1 → CHUNK_DIR s' !! p = CHUNK_DIR s !! p) ∧
  (∀ n, (∀ g, g ∈ l.*1 → n ≠ incomplete_name g) →
        UPLOAD_DIR s' !! n = UPLOAD_DIR s !! n) ∧
  (∀ h, h ∉ l.*1 → Dict.get h (upload_tracker s') = Dict.get h (upload_tracker s)) ∧
  (∀ g gi, (g, gi) ∈ l → persist_acts threshold gi = true → persisted g gi s s').

(** What both passes leave behind of a session they have removed. *)
Definition session_gone (fid : string) (artifact : option bytes)
    (paths : list (string * Z * Z)) (s : store) : Prop :=
  Dict.get fid (upload_tracker s) = None ∧
  UPLOAD_DIR s !! incomplete_name fid = artifact ∧
  ∀ p, p ∈ paths → CHUNK_DIR s !! p = None.

(** ** More example stores *)

(** Declared total 100 on the first chunk. *)
Definition sized_store : store := ingest 10 "f" 0 9 (Some 100) empty_store.

Definition conflicting_chunk : FileChunk :=
  {| file_id := "f"; start_byte := 10; end_byte := 19; data := zeros 10;
     checksum := 0; total_size := Some 200 |}.

(** One session with an old chunk and a recent one. *)
Definition mixed_store : store :=
  ingest 5000000000 "f" 50 99 None (ingest 10 "f" 0 49 None empty_store).

Definition mixed_info : file_info :=
  {| chunks := [ {| c_start := 0; c_end := 49; c_path := ("f", 0, 49)%string;
                     c_checksum := 0; c_timestamp := 10 |};
                  {| c_start := 50; c_end := 99; c_path := ("f", 50, 99)%string;
                     c_checksum := 0; c_timestamp := 5000000000 |} ];
     fi_total_size := None; last_updated := 5000000000; status := None |}.

(** Declared total 3 on the first chunk [[0,1]]; the second chunk [[1,1]]
    declares none, so [save_chunk] does not start the assembly. *)
Definition unassembled_store : store :=
  ingest 20 "f" 1 1 None (ingest 10 "f" 0 1 (Some 3) empty_store).

Definition unassembled_info : file_info :=
  {| chunks := [ {| c_start := 0; c_end := 1; c_path := ("f", 0, 1)%string;
                     c_checksum := 0; c_timestamp := 10 |};
                  {| c_start := 1; c_end := 1; c_path := ("f", 1, 1)%string;
                     c_checksum := 0; c_timestamp := 20 |} ];
     fi_total_size := Some 3; last_updated := 20; status := None |}.

(** Declared total 3; [[0,1]] then [[1,1]], which overlap in byte 1. *)
Definition touching_store : store :=
  ingest 20 "f" 1 1 (Some 3) (ingest 10 "f" 0 1 (Some 3) empty_store).

(** A session whose only chunk was stamped at 10. *)
Definition lone_store : store := ingest 10 "f" 0 99 None empty_store.

Definition lone_info : file_info :=
  {| chunks := [ {| c_start := 0; c_end := 99; c_path := ("f", 0, 99)%string;
                     c_checksum := 0; c_timestamp := 10 |} ];
     fi_total_size := None; last_updated := 10; status := None |}.

(** A file system that limits a file name to 255 bytes, as the usual ones
    do. *)
Definition NAME_MAX : nat := 255.

Definition name_fits (name : string) : bool :=
  bool_decide (String.length name ≤ NAME_MAX)%nat.

(** An id of 245 characters: the fragment name [<id>_0_9.chunk] has 255
    characters, the artifact name [<id>.incomplete] has 256. *)
Definition long_id : string := String.concat EmptyString (replicate 245 "a"%string).

Definition long_store : store := ingest 10 long_id 0 9 None empty_store.

Definition long_info : file_info :=
  {| chunks := [ {| c_start := 0; c_end := 9; c_path := (long_id, 0, 9);
                     c_checksum := 0; c_timestamp := 10 |} ];
     fi_total_size := None; last_updated := 10; status := None |}.

(** ** [utils.py] *)

Definition calculate_checksum (data : bytes) : Z := byte_sum data `mod` 256.

(** [int.from_bytes(b, byteorder='big')] *)
Definition from_bytes_big (b : bytes) : Z :=
  fold_left (λ acc x, acc * 256 + byte_val x) b 0.

(** The result tuple [(ok, start_byte, end_byte, checksum)]. *)
Definition validate_chunk_header (header : bytes)
    : bool * option Z * option Z * option Z :=
  if Z.of_nat (length header) <? 12 then (false, None, None, None)
  else
    let start_b := from_bytes_big (take 4 header) in
    let end_b := from_bytes_big (take 4 (drop 4 header)) in
    let cksum := from_bytes_big (take 4 (drop 8 header)) in
    (true, Some start_b, Some end_b, Some cksum).

(** ** [storage.py]: [get_file] *)

(** [os.path.join(UPLOAD_DIR, file_id)] for a plain file name. *)
Definition upload_path (fid : string) : string := "uploads/" +:+ fid.

(** [get_file] returns the path, or the pair of the path and the size. *)
Inductive get_file_result :=
| gf_path (file_path : string)
| gf_path_size (file_path : string) (file_size : Z).

Definition get_file (fid : string) (return_metadata : bool) : M get_file_result :=
  let* s := get_store in
  match UPLOAD_DIR s !! fid with
  | None => raise FileNotFoundError
  | Some content =>
      if return_metadata
      then ret (gf_path_size (upload_path fid) (Z.of_nat (length content)))
      else ret (gf_path (upload_path fid))
  end.

(** ** [main.py]: the other endpoints *)

Record User := { username : string; password : string }.

Definition USERS_DB : list (string * User) :=
  [ ("device1"%string, {| username := "device1"; password := "securepassword1" |});
    ("device2"%string, {| username := "device2"; password := "securepassword2" |}) ].

(** [login_for_access_token]; [create_access_token] lives in the [auth]
    module and is taken as an argument, applied to the ["sub"] entry of its
    data.  The result is the pair of ["access_token"] and ["token_type"]. *)
Definition login_for_access_token (create_access_token : string → string)
    (form_data : User) : M (string * string) :=
  match Dict.get (username form_data) USERS_DB with
  | None => raise (HTTPException 401 "Incorrect username or password")
  | Some user =>
      if bool_decide (password user ≠ password form_data)
      then raise (HTTPException 401 "Incorrect username or password")
      else ret (create_access_token (username user), "bearer"%string)
  end.

(** [get_file_transfer_status] once the bearer token has been verified. *)
Definition get_file_transfer_status (fid : string) : M status_info :=
  let* s := get_store in
  ret (get_file_status fid s).

(** The [Range] header as lines 115-125 see it: absent, rejected by the
    [try] block, or [bytes=start-end].  The two numbers come out of [int]
    applied to strings without a minus sign, so they are not negative. *)
Inductive range_header :=
| rh_absent
| rh_invalid
| rh_bytes (start_b end_b : N).

(** The loop of [file_iterator] on an open file with content [f], read
    position [pos] and [remaining] bytes to go; the result is the list of
    blocks it yields.  [f.read(n)] is [take n (drop pos f)]. *)
Equations? file_iterator_loop (f : bytes) (pos : nat) (remaining : Z) : list bytes
  by wf (Z.to_nat remaining) lt :=
file_iterator_loop f pos remaining with decide (remaining > 0) := {
  | right _ => [];
  | left _ with take (Z.to_nat (Z.min 4096 remaining)) (drop pos f) := {
      | [] => [];
      | b :: d => (b :: d) :: file_iterator_loop f (pos + length (b :: d))
                                 (remaining - Z.of_nat (length (b :: d))) } }.
Proof. simpl. lia. Qed.

(** [f.seek(start_byte)], then the loop. *)
Definition file_iterator (f : bytes) (start_byte : Z) (chunk_size : Z) : list bytes :=
  file_iterator_loop f (Z.to_nat start_byte) chunk_size.

(** The streaming response: status code, the [Content-Range] header
    [bytes start-end/size] as its three numbers, [Content-Length], and the
    blocks the body iterator yields.  The two constant headers are
    [Accept-Ranges: bytes] and [Content-Type: application/octet-stream]. *)
Record stream_response := {
  sr_status_code : Z;
  sr_content_range : Z * Z * Z;
  sr_content_length : Z;
  sr_accept_ranges : string;
  sr_content_type : string;
  sr_blocks : list bytes
}.

Inductive download_response :=
| dl_file (r : get_file_result)
| dl_stream (r : stream_response).

(** [download_file] once the bearer token has been verified.  The body
    iterator is run on the artifact as it is when the handler returns. *)
Definition download_file (fid : string) (range : range_header) : M download_response :=
  match range with
  | rh_absent =>
      let* r := get_file fid false in
      ret (dl_file r)
  | rh_invalid => raise (HTTPException 400 "Invalid Range header")
  | rh_bytes start_n end_n =>
      let start_b := Z.of_N start_n in
      let end_b := Z.of_N end_n in
      let* r := get_file fid true in
      match r with
      | gf_path _ => raise ValueError
      | gf_path_size file_path file_size =>
          if (start_b >=? file_size) || (end_b >=? file_size)
          then raise (HTTPException 416 "Requested range not satisfiable")
          else
            let chunk_size := end_b - start_b + 1 in
            let* s := get_store in
            ret (dl_stream
                   {| sr_status_code := 206;
                      sr_content_range := (start_b, end_b, file_size);
                      sr_content_length := chunk_size;
                      sr_accept_ranges := "bytes";
                      sr_content_type := "application/octet-stream";
                      sr_blocks := file_iterator (default [] (UPLOAD_DIR s !! fid))
                                     start_b chunk_size |})
      end
  end.

(** ** The stores the service can be in

    One step is one upload request (whatever its header, body and write
    outcome) or one run of either reclamation pass, each at any clock
    reading and whatever names the file system accepts; a pass that ends in
    an exception is a step too, with the effects it had until then. *)
Inductive step : store → store → Prop :=
| step_upload now io fid cr raw s :
    step s (run (upload_file_chunk now io fid cr raw) s)
| step_cleanup now s :
    step s (run (cleanup_stale_chunks now) s)
| step_persist creatable now s :
    step s (run (persist_incomplete_files creatable now) s).

Definition reachable (s : store) : Prop := rtc step empty_store s.

(** The recorded chunks up to the first one whose fragment is not on
    disk. *)
Fixpoint present_prefix (D : gmap (string * Z * Z) bytes) (cs : list chunk_rec)
    : list chunk_rec :=
  match cs with
  | [] => []
  | c :: r => match D !! c_path c with
              | Some _ => c :: present_prefix D r
              | None => []
              end
  end.

(** Invariants of the reachable stores, beside [tracker_wf] and
    [fragments_present]: every session holds a chunk; a complete session
    has a recorded total size and an artifact. *)
Definition sessions_nonempty (s : store) : Prop :=
  Forall (λ kv, has_chunks kv.2 = true) (upload_tracker s).

Definition complete_sized (s : store) : Prop :=
  Forall (λ kv, is_complete kv.2 = true → is_Some (fi_total_size kv.2))
         (upload_tracker s).

Definition complete_stored (s : store) : Prop :=
  Forall (λ kv, is_complete kv.2 = true → is_Some (UPLOAD_DIR s !! kv.1))
         (upload_tracker s).

Definition store_inv (s : store) : Prop :=
  tracker_wf (upload_tracker s) ∧ fragments_present s ∧
  sessions_nonempty s ∧ complete_sized s ∧ complete_stored s.

(** The record of session ["f"] in [short_store], after its assembly. *)
Definition short_info : file_info :=
  {| chunks := [ {| c_start := 0; c_end := 2; c_path := ("f", 0, 2)%string;
                     c_checksum := 0; c_timestamp := 10 |};
                  {| c_start := 0; c_end := 0; c_path := ("f", 0, 0)%string;
                     c_checksum := 0; c_timestamp := 20 |} ];
     fi_total_size := Some 4; last_updated := 20; status := Some "complete"%string |}.

(** One more byte for the finished session of [short_store]. *)
Definition late_chunk : FileChunk :=
  {| file_id := "f"; start_byte := 3; end_byte := 3; data := [Byte.x01];
     checksum := 1; total_size := Some 4 |}.

(** Two halves of a four-byte file. *)
Definition low_chunk : FileChunk :=
  {| file_id := "f"; start_byte := 0; end_byte := 1; data := [Byte.x01; Byte.x02];
     checksum := 3; total_size := Some 4 |}.

Definition high_chunk : FileChunk :=
  {| file_id := "f"; start_byte := 2; end_byte := 3; data := [Byte.x03; Byte.x04];
     checksum := 7; total_size := Some 4 |}.

(** The range of [low_chunk] again, with another payload. *)
Definition low_chunk_again : FileChunk :=
  {| file_id := "f"; start_byte := 0; end_byte := 1; data := [Byte.x05; Byte.x06];
     checksum := 11; total_size := Some 3 |}.

(** A first delivery of the range that [low_chunk_again] repeats. *)
Definition low_chunk_first : FileChunk :=
  {| file_id := "f"; start_byte := 0; end_byte := 1; data := [Byte.x01; Byte.x02];
     checksum := 3; total_size := Some 3 |}.

(** * Properties *)

(** ** Dictionaries *)

Section DictFacts.
Context {V : Type}.
Implicit Types (d : list (string * V)) (k : string).

Lemma get_alter_eq f k d : Dict.get k (Dict.alter f k d) = f <$> Dict.get k d.
Proof.
  induction d as [|[k' v] d IH]; simpl; [done|].
  destruct (decide (k' = k)) as [->|Hne]; simpl.
  - by rewrite decide_True.
  - by rewrite decide_False.
Qed.

Lemma get_alter_ne f k k' d : k ≠ k' → Dict.get k' (Dict.alter f k d) = Dict.get k' d.
Proof.
  intros Hne. induction d as [|[k0 v] d IH]; simpl; [done|].
  destruct (decide (k0 = k)) as [->|Hne0]; simpl.
  - by rewrite !decide_False.
  - by destruct (decide (k0 = k')).
Qed.

Lemma get_set_eq k v d : Dict.get k (Dict.set k v d) = Some v.
Proof.
  induction d as [|[k' v'] d IH]; simpl.
  - by rewrite decide_True.
  - destruct (decide (k' = k)) as [->|Hne]; simpl.
    + by rewrite decide_True.
    + by rewrite decide_False.
Qed.

Lemma get_set_ne k k' v d : k ≠ k' → Dict.get k' (Dict.set k v d) = Dict.get k' d.
Proof.
  intros Hne. induction d as [|[k0 v0] d IH]; simpl.
  - by rewrite decide_False.
  - destruct (decide (k0 = k)) as [->|Hne0]; simpl.
    + by rewrite !decide_False.
    + by destruct (decide (k0 = k')).
Qed.

Lemma get_del_eq k d : Dict.get k (Dict.del k d) = None.
Proof.
  unfold Dict.del. induction d as [|[k' v] d IH]; simpl; [done|].
  rewrite filter_cons. simpl. destruct (decide (k' ≠ k)) as [Hne|Heq]; simpl.
  - by rewrite decide_False.
  - done.
Qed.

Lemma get_del_ne k k' d : k ≠ k' → Dict.get k' (Dict.del k d) = Dict.get k' d.
Proof.
  intros Hne. unfold Dict.del. induction d as [|[k0 v] d IH]; simpl; [done|].
  rewrite filter_cons. simpl. destruct (decide (k0 ≠ k)) as [Hne0|Heq]; simpl.
  - by rewrite IH.
  - apply dec_stable in Heq as ->. by rewrite decide_False.
Qed.

Lemma get_Some_elem_of k v d : Dict.get k d = Some v → (k, v) ∈ d.
Proof.
  induction d as [|[k' v'] d IH]; simpl; [done|].
  destruct (decide (k' = k)) as [->|Hne].
  - intros [= ->]. left.
  - intros H. right. by apply IH.
Qed.

Lemma get_None_not_key k d : Dict.get k d = None → ∀ v, (k, v) ∉ d.
Proof.
  induction d as [|[k' v'] d IH]; simpl; intros H v Hin.
  - by apply elem_of_nil in Hin.
  - destruct (decide (k' = k)) as [->|Hne]; [done|].
    apply elem_of_cons in Hin as [[= ? ?]|Hin]; [congruence|].
    by apply (IH H v).
Qed.

Lemma elem_of_get_NoDup k v d : NoDup d.*1 → (k, v) ∈ d → Dict.get k d = Some v.
Proof.
  induction d as [|[k' v'] d IH]; simpl; intros Hnd Hin.
  - by apply elem_of_nil in Hin.
  - apply NoDup_cons in Hnd as [Hk Hnd].
    apply elem_of_cons in Hin as [[= -> ->]|Hin].
    + by rewrite decide_True.
    + rewrite decide_False; [by apply IH|].
      intros ->. apply Hk. apply list_elem_of_fmap. by exists (k, v).
Qed.

Lemma elem_of_del k d x : x ∈ Dict.del k d ↔ x.1 ≠ k ∧ x ∈ d.
Proof. unfold Dict.del. by rewrite list_elem_of_filter. Qed.

End DictFacts.

(** ** Invariants of monadic code *)

Lemma preserves_ret {A} I (a : A) : preserves I (ret a).
Proof. by intros s. Qed.

Lemma preserves_raise {A} I e : preserves I (raise (A:=A) e).
Proof. by intros s. Qed.

Lemma preserves_get_store I : preserves I get_store.
Proof. by intros s. Qed.

Lemma preserves_modify I f : (∀ s, I s → I (f s)) → preserves I (modify f).
Proof. intros H s Hs. by apply H. Qed.

Lemma preserves_bind {A B} I (m : M A) (k : A → M B) :
  preserves I m → (∀ a, preserves I (k a)) → preserves I (bind m k).
Proof.
  intros Hm Hk s Hs. unfold bind. specialize (Hm s Hs).
  destruct (m s) as [[a|e] s']; simpl in *; [by apply Hk|done].
Qed.

Lemma preserves_for_each {A} I (body : A → M unit) l :
  (∀ x, x ∈ l → preserves I (body x)) → preserves I (for_each body l).
Proof.
  induction l as [|x l IH]; intros H; simpl.
  - apply preserves_ret.
  - apply preserves_bind.
    + apply H. left.
    + intros _. apply IH. intros y Hy. apply H. by right.
Qed.

Lemma preserves_raise_bind {A B} I e (k : A → M B) : preserves I (bind (raise e) k).
Proof. by intros s. Qed.

Lemma preserves_open_output I fs name :
  preserves I (create_file name) → preserves I (open_output fs name).
Proof. intros H. unfold open_output. destruct (fs name); [done|apply preserves_raise]. Qed.

Lemma preserves_read_fragment I p : preserves I (read_fragment p).
Proof. intros s Hs. unfold read_fragment. by destruct (CHUNK_DIR s !! p). Qed.

Lemma preserves_copy_fragments I out cs :
  (∀ d, preserves I (append_file out d)) → preserves I (copy_fragments out cs).
Proof.
  intros H. induction cs as [|c cs IH]; simpl.
  - apply preserves_ret.
  - apply preserves_bind; [apply preserves_read_fragment|].
    intros d. apply preserves_bind; [apply H|]. intros _. apply IH.
Qed.

Lemma preserves_remove_fragments I cs :
  (∀ c, c ∈ cs → preserves I (remove_fragment (c_path c))) →
  preserves I (remove_fragments cs).
Proof.
  induction cs as [|c cs IH]; intros H; simpl.
  - apply preserves_ret.
  - apply preserves_bind; [apply H; left|].
    intros _. apply IH. intros d Hd. apply H. by right.
Qed.

Lemma remove_fragments_total cs : total (remove_fragments cs).
Proof.
  induction cs as [|c cs IH]; intros s; simpl; [by exists tt|].
  unfold bind, remove_fragment, modify. apply IH.
Qed.

Lemma wp_bind {A B} (m : M A) (k : A → M B) Q Qe s :
  wp (bind m k) Q Qe s ↔ wp m (λ a s', wp (k a) Q Qe s') Qe s.
Proof. unfold wp, bind. by destruct (m s) as [[a|e] s']. Qed.

Lemma wp_mono {A} (m : M A) (Q Q' : A → store → Prop) (Qe Qe' : exn → store → Prop) s :
  wp m Q Qe s →
  (∀ a s', Q a s' → Q' a s') → (∀ e s', Qe e s' → Qe' e s') →
  wp m Q' Qe' s.
Proof. unfold wp. destruct (m s) as [[a|e] s']; auto. Qed.

Lemma wp_preserves {A} I (m : M A) s :
  preserves I m → I s → wp m (λ _, I) (λ _, I) s.
Proof.
  intros Hm Hs. specialize (Hm s Hs). unfold wp.
  by destruct (m s) as [[a|e] s'].
Qed.

Lemma wp_run {A} (m : M A) Q s :
  wp m (λ _, Q) (λ _, Q) s ↔ Q (run m s).
Proof. unfold wp, run. by destruct (m s) as [[a|e] s']. Qed.

(** ** The tracker after [save_chunk] *)

Lemma preserves_tracker_copy t out cs :
  preserves (λ s, upload_tracker s = t) (copy_fragments out cs).
Proof. apply preserves_copy_fragments. intros d. by apply preserves_modify. Qed.

Lemma preserves_tracker_remove t cs :
  preserves (λ s, upload_tracker s = t) (remove_fragments cs).
Proof. apply preserves_remove_fragments. intros c _. by apply preserves_modify. Qed.

Lemma assemble_file_tracker fid s :
  wp (assemble_file fid)
     (λ b s', upload_tracker s'
              = if b then Dict.alter (set_status "complete") fid (upload_tracker s)
                else upload_tracker s)
     (λ _ s', upload_tracker s' = upload_tracker s) s.
Proof.
  unfold assemble_file. apply wp_bind. unfold wp at 1, get_store.
  destruct (Dict.get fid (upload_tracker s)) as [info|]; [|done].
  destruct (fi_total_size info) as [n|]; [|done].
  destruct (_ <? n); [done|].
  apply wp_bind. unfold wp at 1, create_file, modify.
  apply wp_bind.
  eapply wp_mono;
    [apply (wp_preserves _ _ _ (preserves_tracker_copy (upload_tracker s) _ _)); done| |done].
  intros [] s1 H1. simpl in H1. apply wp_bind.
  eapply wp_mono;
    [apply (wp_preserves _ _ _ (preserves_tracker_remove (upload_tracker s) _)); done| |done].
  intros [] s2 H2. simpl in H2. apply wp_bind. unfold wp, modify, ret; simpl.
  by rewrite H2.
Qed.

Lemma save_chunk_ok_tracker now chunk s :
  let t' := register_chunk chunk now (upload_tracker s) in
  upload_tracker (run (save_chunk now io_ok chunk) s) = t' ∨
  upload_tracker (run (save_chunk now io_ok chunk) s)
  = Dict.alter (set_status "complete") (file_id chunk) t'.
Proof.
  intros t'. apply (wp_run (save_chunk now io_ok chunk)
    (λ s', upload_tracker s' = t' ∨
           upload_tracker s' = Dict.alter (set_status "complete") (file_id chunk) t')).
  unfold save_chunk, write_fragment.
  apply wp_bind. unfold wp at 1, modify. apply wp_bind. unfold wp at 1.
  set (s1 := set_tracker _ _).
  assert (Ht : upload_tracker s1 = t') by done.
  destruct (total_size chunk) as [n|]; [|by left].
  apply wp_bind. unfold wp at 1, get_store.
  destruct (_ >=? n); [|by left].
  apply wp_bind.
  eapply wp_mono; [apply assemble_file_tracker| |].
  - intros b s2 H2. unfold wp, ret. rewrite H2, Ht. destruct b; tauto.
  - intros e s2 H2. left. by rewrite H2.
Qed.

Lemma get_register_chunk_eq chunk ts t :
  Dict.get (file_id chunk) (register_chunk chunk ts t)
  = Some (set_last_updated ts
            (append_chunk (new_rec chunk ts)
               (default (new_info chunk ts) (Dict.get (file_id chunk) t)))).
Proof.
  unfold register_chunk, Dict.mem. rewrite !get_alter_eq.
  destruct (Dict.get (file_id chunk) t) as [fi|] eqn:Hg; simpl.
  - by rewrite Hg.
  - by rewrite get_set_eq.
Qed.

Lemma get_register_chunk_ne chunk ts t fid :
  file_id chunk ≠ fid →
  Dict.get fid (register_chunk chunk ts t) = Dict.get fid t.
Proof.
  intros Hne. unfold register_chunk. rewrite !get_alter_ne by done.
  destruct (Dict.mem _ t); [done|]. by rewrite get_set_ne.
Qed.

Lemma chunks_of_alter_status fid g t :
  chunks_of fid (Dict.alter (set_status "complete") g t) = chunks_of fid t.
Proof.
  unfold chunks_of. destruct (decide (g = fid)) as [->|Hne].
  - rewrite get_alter_eq. by destruct (Dict.get fid t).
  - by rewrite get_alter_ne.
Qed.

Lemma chunks_of_register chunk ts t fid :
  chunks_of fid (register_chunk chunk ts t)
  = chunks_of fid t ++ (if decide (file_id chunk = fid) then [new_rec chunk ts] else []).
Proof.
  unfold chunks_of. destruct (decide (file_id chunk = fid)) as [<-|Hne].
  - rewrite get_register_chunk_eq. by destruct (Dict.get (file_id chunk) t).
  - rewrite get_register_chunk_ne by done. by rewrite app_nil_r.
Qed.

Lemma chunks_of_save_chunk now chunk s fid :
  chunks_of fid (upload_tracker (run (save_chunk now io_ok chunk) s))
  = chunks_of fid (upload_tracker s)
    ++ (if decide (file_id chunk = fid) then [new_rec chunk now] else []).
Proof.
  destruct (save_chunk_ok_tracker now chunk s) as [-> | ->];
    rewrite ?chunks_of_alter_status; apply chunks_of_register.
Qed.

Lemma sum_lengths_app cs ds : sum_lengths (cs ++ ds) = sum_lengths cs + sum_lengths ds.
Proof. induction cs as [|c cs IH]; simpl; lia. Qed.

Lemma received_bytes_chunks_of fid s :
  received_bytes (get_file_status fid s) = sum_lengths (chunks_of fid (upload_tracker s)).
Proof.
  unfold get_file_status, chunks_of.
  by destruct (Dict.get fid (upload_tracker s)).
Qed.

Lemma received_bytes_save_chunk now chunk s fid :
  received_bytes (get_file_status fid (run (save_chunk now io_ok chunk) s))
  = received_bytes (get_file_status fid s)
    + (if decide (file_id chunk = fid) then end_byte chunk - start_byte chunk + 1 else 0).
Proof.
  rewrite !received_bytes_chunks_of, chunks_of_save_chunk, sum_lengths_app.
  destruct (decide _); simpl; lia.
Qed.

(** ** Coverage accounting *)

Lemma received_bytes_run_requests fid reqs s :
  received_bytes (get_file_status fid (run_requests reqs s))
  = received_bytes (get_file_status fid s) + raw_lengths fid reqs.
Proof.
  revert s. induction reqs as [|[now chunk] reqs IH]; intros s; simpl.
  - lia.
  - unfold run_requests in *. simpl. rewrite IH, received_bytes_save_chunk. simpl. lia.
Qed.

(** C1, as the code has it: the reported [received_bytes] of a session is
    the sum of the raw lengths [end - start + 1] of all chunks ingested for
    it, overlaps and retransmissions counted every time; ingesting [[0,99]]
    and then [[50,149]] reports 200. *)
Theorem C1_received_bytes_is_raw_sum :
  (∀ fid reqs,
     received_bytes (get_file_status fid (run_requests reqs empty_store))
     = raw_lengths fid reqs) ∧
  received_bytes (get_file_status "f" overlap_store) = 200.
Proof.
  split.
  - intros fid reqs. by rewrite received_bytes_run_requests.
  - by vm_compute.
Qed.

(** C1 fails as stated: after [[0,99]] and [[50,149]] the merged union has
    150 bytes and the code reports 200. *)
Lemma C1_overlap_counted_twice :
  Design.coveredBytes (merged_coverage "f" overlap_store) = 150 ∧
  received_bytes (get_file_status "f" overlap_store) ≠ 150 ∧
  received_bytes (get_file_status "f" overlap_store)
  ≠ Design.coveredBytes (merged_coverage "f" overlap_store).
Proof. by vm_compute. Qed.

(** C2 on the code: with declared total size 4, the chunks [[0,2]] and
    [[0,0]] cover three bytes, [[0,2]], yet the session is assembled and
    reported complete, because the raw lengths add up to 4. *)
Theorem C2_complete_one_byte_short :
  merged_coverage "f" short_store = [(0, 2)] ∧
  Design.coveredBytes (merged_coverage "f" short_store) = 4 - 1 ∧
  Design.isComplete 4 (merged_coverage "f" short_store) = false ∧
  si_status (get_file_status "f" short_store) = "complete"%string ∧
  length <$> UPLOAD_DIR short_store !! "f"%string = Some 4%nat.
Proof. by vm_compute. Qed.

Lemma received_bytes_reingest nows chunk s :
  received_bytes (get_file_status (file_id chunk) (reingest nows chunk s))
  = received_bytes (get_file_status (file_id chunk) s)
    + Z.of_nat (length nows) * (end_byte chunk - start_byte chunk + 1).
Proof.
  revert s. induction nows as [|now nows IH]; intros s.
  - simpl. lia.
  - unfold reingest in *. cbn [fold_left length]. rewrite IH, received_bytes_save_chunk.
    rewrite decide_True by done. lia.
Qed.

(** C3, as the code has it: every further ingestion of an identical chunk
    raises [received_bytes] by that chunk's raw length [end - start + 1];
    after [n] re-deliveries it has grown by [n * (end - start + 1)]. *)
Theorem C3_reingest_adds_raw_length nows chunk s :
  received_bytes (get_file_status (file_id chunk) (reingest nows chunk s))
  = received_bytes (get_file_status (file_id chunk) s)
    + Z.of_nat (length nows) * (end_byte chunk - start_byte chunk + 1).
Proof. apply received_bytes_reingest. Qed.

(** C3 fails as stated: delivering [[0,99]] a second time moves the
    reported value from 100 to 200. *)
Lemma C3_reingest_changes_received_bytes :
  let s := ingest 10 "f" 0 99 None empty_store in
  received_bytes (get_file_status "f" s) = 100 ∧
  received_bytes (get_file_status "f" (ingest 20 "f" 0 99 None s)) = 200 ∧
  received_bytes (get_file_status "f" (ingest 20 "f" 0 99 None s))
  ≠ received_bytes (get_file_status "f" s).
Proof. by vm_compute. Qed.

(** ** The upload endpoint *)

(** C4, as the code has it: an accepted upload answers with [end + 1] of
    the chunk just ingested, whatever the session already holds. *)
Theorem C4_next_byte_is_end_plus_one now io fid cr raw s n :
  outcome (upload_file_chunk now io fid cr raw) s = Ok n →
  ∃ start_b end_b total, cr = cr_bytes start_b end_b total ∧ n = end_b + 1.
Proof.
  unfold outcome, upload_file_chunk.
  destruct cr as [| |start_b end_b total|start_b end_b]; [done|done| |].
  - unfold bind at 1. destruct (check_body raw s) as [[body|e] s0]; [|done].
    unfold bind. destruct (save_chunk _ _ _ s0) as [[[]|e] s']; simpl; [|done].
    intros [= <-]. by exists start_b, end_b, total.
  - unfold bind. by destruct (check_body raw s) as [[body|e] s0].
Qed.

Lemma C4_next_byte_witness :
  ∃ start_b end_b total,
    cr_bytes 50 99 None = cr_bytes start_b end_b total ∧ 100 = end_b + 1.
Proof.
  apply (C4_next_byte_is_end_plus_one 10 io_ok "f" (cr_bytes 50 99 None)
           (body_of (zeros 50)) empty_store 100).
  by vm_compute.
Defined.

(** C4 fails as stated: with [[50,99]] as the only chunk the lowest
    uncovered byte is 0 and the endpoint answers 100. *)
Lemma C4_first_gap_not_reported :
  Design.nextExpectedByte (merged_coverage "f" (ingest 10 "f" 50 99 None empty_store)) = 0 ∧
  outcome (upload_file_chunk 10 io_ok "f" (cr_bytes 50 99 None) (body_of (zeros 50)))
    empty_store = Ok 100 ∧
  outcome (upload_file_chunk 10 io_ok "f" (cr_bytes 50 99 None) (body_of (zeros 50)))
    empty_store ≠ Ok 0 ∧
  next_byte (get_file_status "f" (ingest 10 "f" 50 99 None empty_store)) = Some 100.
Proof. by vm_compute. Qed.

(** ** Declared total size *)

Lemma get_save_chunk_ok now chunk s :
  ∃ st,
    Dict.get (file_id chunk) (upload_tracker (run (save_chunk now io_ok chunk) s))
    = Some {| chunks := chunks_of (file_id chunk) (upload_tracker s) ++ [new_rec chunk now];
              fi_total_size :=
                match Dict.get (file_id chunk) (upload_tracker s) with
                | Some info => fi_total_size info
                | None => total_size chunk
                end;
              last_updated := now;
              status := st |}.
Proof.
  unfold chunks_of.
  destruct (save_chunk_ok_tracker now chunk s) as [-> | ->];
    rewrite ?get_alter_eq, get_register_chunk_eq;
    destruct (Dict.get (file_id chunk) (upload_tracker s)) as [info|]; simpl;
    eauto.
Qed.

(** C7, as the code has it: the total size recorded for a session is never
    changed by a later chunk, whatever size that chunk declares; the chunk
    itself is not rejected but recorded like any other (appended to the
    session's chunks, [last_updated] refreshed). *)
Theorem C7_total_size_kept_chunk_recorded now chunk s info :
  Dict.get (file_id chunk) (upload_tracker s) = Some info →
  ∃ info',
    Dict.get (file_id chunk) (upload_tracker (run (save_chunk now io_ok chunk) s))
    = Some info' ∧
    fi_total_size info' = fi_total_size info ∧
    chunks info' = chunks info ++ [new_rec chunk now] ∧
    last_updated info' = now.
Proof.
  intros Hget. destruct (get_save_chunk_ok now chunk s) as [st Hst].
  eexists. split; [exact Hst|]. unfold chunks_of. by rewrite Hget.
Qed.

Lemma C7_total_size_kept_witness :
  ∃ info',
    Dict.get "f" (upload_tracker (run (save_chunk 20 io_ok conflicting_chunk) sized_store))
    = Some info' ∧
    fi_total_size info' = Some 100 ∧
    chunks info' = [new_rec {| file_id := "f"; start_byte := 0; end_byte := 9;
                               data := zeros 10; checksum := 0;
                               total_size := Some 100 |} 10]
                   ++ [new_rec conflicting_chunk 20] ∧
    last_updated info' = 20.
Proof.
  apply (C7_total_size_kept_chunk_recorded 20 conflicting_chunk sized_store
           {| chunks := [new_rec {| file_id := "f"; start_byte := 0; end_byte := 9;
                                    data := zeros 10; checksum := 0;
                                    total_size := Some 100 |} 10];
              fi_total_size := Some 100; last_updated := 10; status := None |}).
  reflexivity.
Defined.

(** C7 fails as stated: a chunk declaring total size 200 for a session
    recorded with 100 is answered normally and changes the session. *)
Lemma C7_conflicting_size_accepted :
  total_bytes (get_file_status "f" sized_store) = Some 100 ∧
  outcome (upload_file_chunk 20 io_ok "f" (cr_bytes 10 19 (Some 200)) (body_of (zeros 10)))
    sized_store = Ok 20 ∧
  si_chunks (get_file_status "f" (ingest 20 "f" 10 19 (Some 200) sized_store))
  = [(0, 9); (10, 19)] ∧
  upload_tracker (ingest 20 "f" 10 19 (Some 200) sized_store) ≠ upload_tracker sized_store.
Proof. by vm_compute. Qed.

(** ** Failed fragment writes *)

(** C8, as the code has it: when the fragment write fails, [save_chunk]
    raises [OSError] and the tracker is exactly what it was (no chunk is
    recorded, no session is created, no [last_updated] is touched, every
    status report is the same); the artifacts and the fragment files under
    every other name are untouched.  The file under the name of the chunk
    is as the failed write left it: as before when the [open] failed, cut
    down to the bytes that were written when the write failed.  So the
    fragments the tracker records are all unchanged when the chunk is the
    first delivery of its range. *)
Theorem C8_failed_write_leaves_tracker now io chunk s :
  io ≠ io_ok →
  let s' := run (save_chunk now io chunk) s in
  outcome (save_chunk now io chunk) s = Raise OSError ∧
  upload_tracker s' = upload_tracker s ∧
  (∀ fid, get_file_status fid s' = get_file_status fid s) ∧
  UPLOAD_DIR s' = UPLOAD_DIR s ∧
  (∀ p, p ≠ chunk_path_of chunk → CHUNK_DIR s' !! p = CHUNK_DIR s !! p) ∧
  CHUNK_DIR s' !! chunk_path_of chunk
  = match io with
    | io_write_fails n => Some (take n (data chunk))
    | _ => CHUNK_DIR s !! chunk_path_of chunk
    end ∧
  ((∀ fid info c, Dict.get fid (upload_tracker s) = Some info → c ∈ chunks info →
                  c_path c ≠ chunk_path_of chunk) →
   ∀ fid info c, Dict.get fid (upload_tracker s') = Some info → c ∈ chunks info →
                 CHUNK_DIR s' !! c_path c = CHUNK_DIR s !! c_path c).
Proof.
  intros Hio s'.
  assert (H : outcome (save_chunk now io chunk) s = Raise OSError ∧
              upload_tracker s' = upload_tracker s ∧
              UPLOAD_DIR s' = UPLOAD_DIR s ∧
              CHUNK_DIR s'
              = match io with
                | io_write_fails n =>
                    <[chunk_path_of chunk := take n (data chunk)]> (CHUNK_DIR s)
                | _ => CHUNK_DIR s
                end).
  { unfold s', outcome, run, save_chunk.
    destruct io as [| |n]; [done| |]; by cbv [bind write_fragment raise modify]. }
  destruct H as (Ho & Ht & Hu & Hc).
  assert (Hother : ∀ p, p ≠ chunk_path_of chunk → CHUNK_DIR s' !! p = CHUNK_DIR s !! p).
  { intros p Hp. rewrite Hc. destruct io as [| |n]; [done|done|].
    by rewrite lookup_insert_ne. }
  split_and!; [done|done| |done|done| |].
  - intros fid. unfold get_file_status. by rewrite Ht.
  - rewrite Hc. destruct io as [| |n]; [done|done|]. apply lookup_insert_eq.
  - intros Hfresh fid info c Hget Hin. apply Hother.
    rewrite Ht in Hget. by apply (Hfresh fid info c).
Qed.

Lemma C8_failed_write_witness :
  let s' := run (save_chunk 20 (io_write_fails 3) conflicting_chunk) sized_store in
  outcome (save_chunk 20 (io_write_fails 3) conflicting_chunk) sized_store = Raise OSError ∧
  upload_tracker s' = upload_tracker sized_store ∧
  (∀ fid, get_file_status fid s' = get_file_status fid sized_store) ∧
  UPLOAD_DIR s' = UPLOAD_DIR sized_store ∧
  (∀ p, p ≠ chunk_path_of conflicting_chunk →
        CHUNK_DIR s' !! p = CHUNK_DIR sized_store !! p) ∧
  CHUNK_DIR s' !! chunk_path_of conflicting_chunk = Some (take 3 (data conflicting_chunk)) ∧
  ∀ fid info c, Dict.get fid (upload_tracker s') = Some info → c ∈ chunks info →
                CHUNK_DIR s' !! c_path c = CHUNK_DIR sized_store !! c_path c.
Proof.
  destruct (C8_failed_write_leaves_tracker 20 (io_write_fails 3) conflicting_chunk
              sized_store) as (H1 & H2 & H3 & H4 & H5 & H6 & H7); [discriminate|].
  split_and!; [exact H1|exact H2|exact H3|exact H4|exact H5|exact H6|].
  apply H7. intros fid info c Hget Hin.
  change (upload_tracker sized_store)
    with [("f"%string,
           {| chunks := [ {| c_start := 0; c_end := 9; c_path := ("f"%string, 0, 9);
                              c_checksum := 0; c_timestamp := 10 |} ];
              fi_total_size := Some 100; last_updated := 10; status := None |})] in Hget.
  simpl in Hget. destruct (decide ("f"%string = fid)); [|discriminate].
  injection Hget as <-. simpl in Hin. apply list_elem_of_singleton in Hin as ->.
  simpl. discriminate.
Defined.

(** C8 fails as stated: the prior state of the session is not left
    completely unmodified.  The session of [sized_store] holds the range
    [[0,9]] with its ten bytes on disk; a second delivery of that range
    whose write fails after three bytes is answered with [OSError] and
    leaves the tracker as it was, but the fragment file the session's
    record points to now holds three bytes. *)
Lemma C8_failed_rewrite_truncates_fragment :
  let resend := upload_file_chunk 20 (io_write_fails 3) "f" (cr_bytes 0 9 (Some 100))
                  (body_of (zeros 10)) in
  chunks_of "f" (upload_tracker sized_store)
  = [ {| c_start := 0; c_end := 9; c_path := ("f"%string, 0, 9);
         c_checksum := 0; c_timestamp := 10 |} ] ∧
  CHUNK_DIR sized_store !! ("f"%string, 0, 9) = Some (zeros 10) ∧
  outcome resend sized_store = Raise OSError ∧
  upload_tracker (run resend sized_store) = upload_tracker sized_store ∧
  CHUNK_DIR (run resend sized_store) !! ("f"%string, 0, 9) = Some (zeros 3) ∧
  CHUNK_DIR (run resend sized_store) !! ("f"%string, 0, 9)
  ≠ CHUNK_DIR sized_store !! ("f"%string, 0, 9).
Proof. by vm_compute. Qed.

(** ** Sessions with recent activity *)

Lemma string_length_app (s1 s2 : string) :
  String.length (s1 +:+ s2) = (String.length s1 + String.length s2)%nat.
Proof. induction s1 as [|a s1 IH]; simpl; [done|]. by rewrite <- IH. Qed.

Lemma string_app_inj_l (s1 s2 t : string) : s1 +:+ t = s2 +:+ t → s1 = s2.
Proof.
  revert s2. induction s1 as [|a s1 IH]; intros [|b s2] H.
  - done.
  - apply (f_equal String.length) in H. rewrite !string_length_app in H. simpl in H. lia.
  - apply (f_equal String.length) in H. rewrite !string_length_app in H. simpl in H. lia.
  - change (String a (s1 +:+ t) = String b (s2 +:+ t)) in H.
    injection H as -> H. by rewrite (IH s2 H).
Qed.

Lemma incomplete_name_inj g fid : incomplete_name g = incomplete_name fid → g = fid.
Proof. apply string_app_inj_l. Qed.

Lemma stale_scan_recent threshold info :
  stale_scan threshold (chunks info) = negb (recent_activity threshold info).
Proof.
  unfold recent_activity. induction (chunks info) as [|c cs IH]; simpl; [done|].
  by destruct (c_timestamp c >? threshold).
Qed.

Lemma recent_activity_true threshold info c :
  c ∈ chunks info → threshold < c_timestamp c → recent_activity threshold info = true.
Proof.
  intros Hin Hts. unfold recent_activity. apply existsb_exists.
  exists c. split; [by apply list_elem_of_In|]. by apply Z.gtb_lt.
Qed.

Section Kept.
Context (fid : string) (info : file_info) (s0 : store).
Context (Hown : owned fid info).

Lemma kept_remove_fragment p : p.1.1 ≠ fid → preserves (session_kept fid info s0) (remove_fragment p).
Proof.
  intros Hp. apply preserves_modify. intros s (Ht & Hc & Hu & Hsub).
  split_and!; simpl; [done| |done|done].
  intros c Hin. rewrite lookup_delete_ne; [by apply Hc|].
  intros ->. apply Hp. unfold owned in Hown. rewrite Forall_forall in Hown. by apply Hown.
Qed.

Lemma kept_del_session g : g ≠ fid → preserves (session_kept fid info s0) (del_session g).
Proof.
  intros Hg. apply preserves_modify. intros s (Ht & Hc & Hu & Hsub).
  split_and!; simpl; [by rewrite get_del_ne|done|done|].
  intros x Hx. apply elem_of_del in Hx as [_ Hx]. by apply Hsub.
Qed.

Lemma kept_create_file g : g ≠ fid → preserves (session_kept fid info s0) (create_file (incomplete_name g)).
Proof.
  intros Hg. apply preserves_modify. intros s (Ht & Hc & Hu & Hsub).
  split_and!; simpl; [done|done| |done].
  rewrite lookup_insert_ne; [done|]. intros H. by apply Hg, incomplete_name_inj.
Qed.

Lemma kept_append_file g d :
  g ≠ fid → preserves (session_kept fid info s0) (append_file (incomplete_name g) d).
Proof.
  intros Hg. apply preserves_modify. intros s (Ht & Hc & Hu & Hsub).
  split_and!; simpl; [done|done| |done].
  rewrite lookup_insert_ne; [done|]. intros H. by apply Hg, incomplete_name_inj.
Qed.

Lemma kept_remove_fragments g gi :
  g ≠ fid → owned g gi → preserves (session_kept fid info s0) (remove_fragments (chunks gi)).
Proof.
  intros Hg Hgi. apply preserves_remove_fragments. intros c Hc.
  apply kept_remove_fragment. unfold owned in Hgi. rewrite Forall_forall in Hgi.
  by rewrite (Hgi c Hc).
Qed.

(** The loop bodies on an item of the snapshot: either the item is the
    session itself, seen with recent activity, or it is another session. *)
Lemma kept_cleanup_one threshold g gi :
  owned g gi → (g = fid → gi = info) →
  recent_activity threshold info = true →
  preserves (session_kept fid info s0) (cleanup_one threshold (g, gi)).
Proof.
  intros Hgi Hsame Hrec. unfold cleanup_one.
  destruct (is_complete gi); [apply preserves_ret|].
  destruct (decide (g = fid)) as [Heq|Hne].
  - rewrite (Hsame Heq), stale_scan_recent, Hrec. apply preserves_ret.
  - destruct (stale_scan threshold (chunks gi)); [|apply preserves_ret].
    apply preserves_bind; [by apply (kept_remove_fragments g)|].
    intros _. by apply kept_del_session.
Qed.

(** The persist pass leaves the session alone when it sees recent activity
    in it, and also when the file system refuses its artifact name. *)
Lemma kept_persist_one fs threshold g gi :
  owned g gi → (g = fid → gi = info) →
  recent_activity threshold info = true ∨ fs (incomplete_name fid) = false →
  preserves (session_kept fid info s0) (persist_one fs threshold (g, gi)).
Proof.
  intros Hgi Hsame Hrec. unfold persist_one.
  destruct (is_complete gi); [apply preserves_ret|].
  destruct (decide (g = fid)) as [Heq|Hne].
  - rewrite (Hsame Heq). destruct Hrec as [Hrec|Href].
    + rewrite Hrec. apply preserves_ret.
    + destruct (_ && _); [|apply preserves_ret].
      subst g. unfold open_output. rewrite Href. apply preserves_raise_bind.
  - destruct (_ && _); [|apply preserves_ret].
    apply preserves_bind; [apply preserves_open_output; by apply kept_create_file|].
    intros _.
    apply preserves_bind.
    { apply preserves_copy_fragments. intros d. by apply kept_append_file. }
    intros _. apply preserves_bind; [by apply (kept_remove_fragments g)|].
    intros _. by apply kept_del_session.
Qed.

Context (Hwf : tracker_wf (upload_tracker s0)).
Context (Hget : Dict.get fid (upload_tracker s0) = Some info).

Lemma snapshot_item_owned g gi : (g, gi) ∈ upload_tracker s0 → owned g gi.
Proof.
  intros Hin. destruct Hwf as [_ Hall]. rewrite Forall_forall in Hall.
  apply (Hall (g, gi) Hin).
Qed.

Lemma snapshot_item_same g gi : (g, gi) ∈ upload_tracker s0 → g = fid → gi = info.
Proof.
  intros Hin ->. destruct Hwf as [Hnd _].
  pose proof (elem_of_get_NoDup _ _ _ Hnd Hin) as H. congruence.
Qed.

Lemma kept_cleanup_stale_chunks now s :
  recent_activity (now - STALE_THRESHOLD) info = true →
  session_kept fid info s0 s →
  session_kept fid info s0 (run (cleanup_stale_chunks now) s).
Proof.
  intros Hrec Hs. unfold run, cleanup_stale_chunks, bind, get_store.
  apply (preserves_for_each (session_kept fid info s0)); [|done].
  intros [g gi] Hin. destruct Hs as (_ & _ & _ & Hsub). apply Hsub in Hin.
  apply kept_cleanup_one; [by apply snapshot_item_owned|by apply snapshot_item_same|done].
Qed.

Lemma kept_persist_incomplete_files fs now s :
  recent_activity (now - STALE_THRESHOLD) info = true ∨ fs (incomplete_name fid) = false →
  session_kept fid info s0 s →
  session_kept fid info s0 (run (persist_incomplete_files fs now) s).
Proof.
  intros Hrec Hs. unfold run, persist_incomplete_files, bind, get_store.
  apply (preserves_for_each (session_kept fid info s0)); [|done].
  intros [g gi] Hin. destruct Hs as (_ & _ & _ & Hsub). apply Hsub in Hin.
  apply kept_persist_one; [by apply snapshot_item_owned|by apply snapshot_item_same|done].
Qed.

End Kept.

(** C6: a session holding a chunk newer than the staleness window is left
    exactly as it is by every reclamation entry point (either step alone,
    the periodic round, the on-demand sweep): its record, its fragment
    files and its partial-artifact slot are untouched, however old its
    other chunks are. *)
Theorem C6_recent_session_untouched fs s now1 now2 fid info c sweep :
  tracker_wf (upload_tracker s) →
  Dict.get fid (upload_tracker s) = Some info →
  c ∈ chunks info →
  now1 - STALE_THRESHOLD < c_timestamp c →
  now2 - STALE_THRESHOLD < c_timestamp c →
  sweep ∈ [cleanup_stale_chunks now1; persist_incomplete_files fs now1;
           periodic_cleanup_round fs now1 now2; trigger_cleanup fs now1 now2] →
  Dict.get fid (upload_tracker (run sweep s)) = Some info ∧
  (∀ c', c' ∈ chunks info →
         CHUNK_DIR (run sweep s) !! c_path c' = CHUNK_DIR s !! c_path c') ∧
  UPLOAD_DIR (run sweep s) !! incomplete_name fid = UPLOAD_DIR s !! incomplete_name fid.
Proof.
  intros Hwf Hget Hc H1 H2 Hsweep.
  pose proof (recent_activity_true _ _ _ Hc H1) as Hr1.
  pose proof (recent_activity_true _ _ _ Hc H2) as Hr2.
  assert (Hown : owned fid info).
  { destruct Hwf as [_ Hall]. rewrite Forall_forall in Hall.
    apply (Hall (fid, info)). by apply get_Some_elem_of. }
  assert (Hk0 : session_kept fid info s s) by done.
  assert (Hcl : ∀ now, recent_activity (now - STALE_THRESHOLD) info = true →
                preserves (session_kept fid info s) (cleanup_stale_chunks now)).
  { intros now Hr s1 Hs1. by apply kept_cleanup_stale_chunks. }
  assert (Hpe : ∀ now, recent_activity (now - STALE_THRESHOLD) info = true →
                preserves (session_kept fid info s) (persist_incomplete_files fs now)).
  { intros now Hr s1 Hs1. apply kept_persist_incomplete_files; [done..|by left|done]. }
  assert (Hk : session_kept fid info s (run sweep s)).
  { set_unfold in Hsweep. destruct Hsweep as [->|[->|[->|[->|[]]]]].
    - by apply Hcl.
    - by apply Hpe.
    - apply (preserves_bind (session_kept fid info s)); [by apply Hcl| |done].
      intros _. by apply Hpe.
    - apply (preserves_bind (session_kept fid info s)); [by apply Hpe| |done].
      intros _. by apply Hcl. }
  destruct Hk as (? & ? & ? & _). done.
Qed.

Lemma C6_recent_session_witness :
  Dict.get "f" (upload_tracker (run (trigger_cleanup name_fits 5000000100 5000000101) mixed_store))
  = Some mixed_info ∧
  (∀ c', c' ∈ chunks mixed_info →
         CHUNK_DIR (run (trigger_cleanup name_fits 5000000100 5000000101) mixed_store) !! c_path c'
         = CHUNK_DIR mixed_store !! c_path c') ∧
  UPLOAD_DIR (run (trigger_cleanup name_fits 5000000100 5000000101) mixed_store) !! incomplete_name "f"
  = UPLOAD_DIR mixed_store !! incomplete_name "f".
Proof.
  apply (C6_recent_session_untouched name_fits mixed_store 5000000100 5000000101 "f" mixed_info
           {| c_start := 50; c_end := 99; c_path := ("f", 50, 99)%string;
              c_checksum := 0; c_timestamp := 5000000000 |}).
  - apply (bool_decide_unpack _). by vm_compute.
  - reflexivity.
  - simpl. apply list_elem_of_further, list_elem_of_here.
  - simpl. unfold STALE_THRESHOLD. lia.
  - simpl. unfold STALE_THRESHOLD. lia.
  - do 3 apply list_elem_of_further. apply list_elem_of_here.
Defined.

(** ** Sorting by start offset *)

Lemma insert_by_start_perm c l : insert_by_start c l ≡ₚ c :: l.
Proof.
  induction l as [|d l IH]; simpl; [done|].
  destruct (c_start c <=? c_start d); [done|].
  rewrite IH. apply Permutation_swap.
Qed.

Lemma sorted_by_start_perm l : sorted_by_start l ≡ₚ l.
Proof.
  induction l as [|c l IH]; simpl; [done|].
  by rewrite insert_by_start_perm, IH.
Qed.

Lemma insert_by_start_sorted c l :
  StronglySorted start_le l → StronglySorted start_le (insert_by_start c l).
Proof.
  induction l as [|d l IH]; simpl; intros Hs.
  - by repeat constructor.
  - apply StronglySorted_inv in Hs as [Hl Hd].
    destruct (c_start c <=? c_start d) eqn:Hcd.
    + apply Z.leb_le in Hcd. constructor; [by constructor|].
      constructor; [done|]. eapply Forall_impl; [exact Hd|].
      unfold start_le. intros x Hx. simpl in *. lia.
    + apply Z.leb_gt in Hcd. constructor; [by apply IH|].
      rewrite insert_by_start_perm. constructor; [unfold start_le; lia|done].
Qed.

Lemma sorted_by_start_sorted l : StronglySorted start_le (sorted_by_start l).
Proof.
  induction l as [|c l IH]; simpl; [constructor|]. by apply insert_by_start_sorted.
Qed.

Lemma sum_lengths_perm l1 l2 : l1 ≡ₚ l2 → sum_lengths l1 = sum_lengths l2.
Proof. induction 1; simpl; lia. Qed.

Lemma sum_lengths_sorted l : sum_lengths (sorted_by_start l) = sum_lengths l.
Proof. apply sum_lengths_perm, sorted_by_start_perm. Qed.

(** ** Copying and removing fragments *)

Lemma copy_fragments_spec out cs s acc :
  present (CHUNK_DIR s) cs →
  UPLOAD_DIR s !! out = Some acc →
  wp (copy_fragments out cs)
     (λ _ s', upload_tracker s' = upload_tracker s ∧
              CHUNK_DIR s' = CHUNK_DIR s ∧
              UPLOAD_DIR s' !! out = Some (acc ++ fragments_concat (CHUNK_DIR s) cs) ∧
              ∀ n, n ≠ out → UPLOAD_DIR s' !! n = UPLOAD_DIR s !! n)
     (λ _ _, False) s.
Proof.
  revert s acc. induction cs as [|c cs IH]; intros s acc Hp Hacc.
  - unfold wp; simpl. split_and!; try done. by rewrite app_nil_r.
  - apply Forall_cons in Hp as [[d Hd] Hp]. simpl.
    apply wp_bind. unfold wp at 1, read_fragment. rewrite Hd.
    apply wp_bind. unfold wp at 1, append_file, modify.
    set (s1 := set_upload_dir _ s).
    eapply wp_mono; [apply (IH s1 (acc ++ d)); [done|]| |done].
    + subst s1. simpl. by rewrite Hacc, lookup_insert_eq.
    + intros _ s' (Ht & Hc & Hu & Hn). subst s1. simpl in *.
      split_and!; [done|done| |].
      * rewrite Hu. unfold fragments_concat. simpl. by rewrite Hd, app_assoc.
      * intros n Hne. rewrite Hn by done. by rewrite lookup_insert_ne.
Qed.

Lemma remove_fragments_spec cs s :
  wp (remove_fragments cs)
     (λ _ s', upload_tracker s' = upload_tracker s ∧
              UPLOAD_DIR s' = UPLOAD_DIR s ∧
              (∀ c, c ∈ cs → CHUNK_DIR s' !! c_path c = None) ∧
              (∀ p, (∀ c, c ∈ cs → c_path c ≠ p) → CHUNK_DIR s' !! p = CHUNK_DIR s !! p) ∧
              (∀ p, CHUNK_DIR s !! p = None → CHUNK_DIR s' !! p = None))
     (λ _ _, False) s.
Proof.
  revert s. induction cs as [|c cs IH]; intros s.
  - unfold wp; simpl. split_and!; try done. intros c Hc. by apply elem_of_nil in Hc.
  - simpl. apply wp_bind. unfold wp at 1, remove_fragment, modify.
    set (s1 := set_chunk_dir _ s).
    eapply wp_mono; [apply (IH s1)| |done].
    intros _ s' (Ht & Hu & Hin & Hout & Hnone). subst s1. simpl in *.
    split_and!; [done|done| | |].
    + intros c' Hc'. apply elem_of_cons in Hc' as [->|Hc']; [|by apply Hin].
      apply Hnone. apply lookup_delete_eq.
    + intros p Hp. rewrite Hout.
      * apply lookup_delete_ne. apply Hp. left.
      * intros c' Hc'. apply Hp. by right.
    + intros p Hp. apply Hnone. rewrite lookup_delete_None. by right.
Qed.

Lemma present_perm D cs ds : cs ≡ₚ ds → present D cs → present D ds.
Proof. unfold present. by intros ->. Qed.

Lemma fragments_concat_ext D D' cs :
  (∀ c, c ∈ cs → D' !! c_path c = D !! c_path c) →
  fragments_concat D' cs = fragments_concat D cs.
Proof.
  intros H. unfold fragments_concat. f_equal. apply map_ext_in.
  intros c Hc. rewrite H; [done|]. by apply list_elem_of_In.
Qed.

(** ** Assembly *)

Lemma wp_elim {A} (m : M A) (Q : A → store → Prop) s :
  wp m Q (λ _ _, False) s → ∃ a, outcome m s = Ok a ∧ Q a (run m s).
Proof.
  unfold wp, outcome, run. destruct (m s) as [[a|e] s']; [|done].
  intros H. by exists a.
Qed.

Lemma fragments_concat_length D cs :
  well_sized D cs → Z.of_nat (length (fragments_concat D cs)) = sum_lengths cs.
Proof.
  unfold well_sized, fragments_concat. induction 1 as [|c cs Hc _ IH]; simpl; [done|].
  rewrite length_app. lia.
Qed.

Lemma assemble_file_spec fid info n s :
  Dict.get fid (upload_tracker s) = Some info →
  fi_total_size info = Some n →
  n ≤ sum_lengths (chunks info) →
  present (CHUNK_DIR s) (chunks info) →
  wp (assemble_file fid)
     (λ b s', b = true ∧
              UPLOAD_DIR s' !! fid
              = Some (fragments_concat (CHUNK_DIR s) (sorted_by_start (chunks info))) ∧
              upload_tracker s' = Dict.alter (set_status "complete") fid (upload_tracker s) ∧
              ∀ c, c ∈ chunks info → CHUNK_DIR s' !! c_path c = None)
     (λ _ _, False) s.
Proof.
  intros Hget Htot Hn Hp. unfold assemble_file.
  apply wp_bind. unfold wp at 1, get_store. rewrite Hget, Htot.
  rewrite sum_lengths_sorted. rewrite (proj2 (Z.ltb_ge _ _)) by done.
  apply wp_bind. unfold wp at 1, create_file, modify.
  set (s1 := set_upload_dir _ s). apply wp_bind.
  eapply wp_mono; [apply (copy_fragments_spec fid _ s1 [])| |done].
  - eapply present_perm; [symmetry; apply sorted_by_start_perm|done].
  - subst s1. simpl. apply lookup_insert_eq.
  - intros _ s2 (Ht2 & Hc2 & Hu2 & _). apply wp_bind.
    eapply wp_mono; [apply remove_fragments_spec| |done].
    intros _ s3 (Ht3 & Hu3 & Hin3 & _). apply wp_bind.
    unfold wp, modify, ret; simpl. subst s1; simpl in *.
    split_and!; [done| | |].
    + by rewrite Hu3, Hu2.
    + by rewrite Ht3, Ht2.
    + intros c Hc. apply Hin3. by rewrite sorted_by_start_perm.
Qed.

(** C9, as the code has it: assembly writes the stored fragment of every
    recorded chunk, in ascending start order, into the artifact; when every
    fragment has the length of its range the artifact is as long as the sum
    of the raw chunk lengths, which is at least the declared total size
    (equal to it or larger, overlap or not). *)
Theorem C9_artifact_is_concatenation fid info n s :
  Dict.get fid (upload_tracker s) = Some info →
  fi_total_size info = Some n →
  n ≤ sum_lengths (chunks info) →
  present (CHUNK_DIR s) (chunks info) →
  well_sized (CHUNK_DIR s) (chunks info) →
  let cs := sorted_by_start (chunks info) in
  let artifact := fragments_concat (CHUNK_DIR s) cs in
  outcome (assemble_file fid) s = Ok true ∧
  cs ≡ₚ chunks info ∧
  StronglySorted start_le cs ∧
  UPLOAD_DIR (run (assemble_file fid) s) !! fid = Some artifact ∧
  Z.of_nat (length artifact) = sum_lengths (chunks info) ∧
  n ≤ Z.of_nat (length artifact).
Proof.
  intros Hget Htot Hn Hp Hw cs artifact.
  destruct (wp_elim _ _ _ (assemble_file_spec fid info n s Hget Htot Hn Hp))
    as (b & Hout & -> & Hart & _).
  assert (Hlen : Z.of_nat (length artifact) = sum_lengths (chunks info)).
  { unfold artifact. rewrite fragments_concat_length.
    - apply sum_lengths_sorted.
    - unfold well_sized, cs. by rewrite sorted_by_start_perm. }
  split_and!; [done|apply sorted_by_start_perm|apply sorted_by_start_sorted|done|done|lia].
Qed.

Lemma C9_artifact_witness :
  let cs := sorted_by_start (chunks unassembled_info) in
  let artifact := fragments_concat (CHUNK_DIR unassembled_store) cs in
  outcome (assemble_file "f") unassembled_store = Ok true ∧
  cs ≡ₚ chunks unassembled_info ∧
  StronglySorted start_le cs ∧
  UPLOAD_DIR (run (assemble_file "f") unassembled_store) !! "f"%string = Some artifact ∧
  Z.of_nat (length artifact) = sum_lengths (chunks unassembled_info) ∧
  3 ≤ Z.of_nat (length artifact).
Proof.
  apply (C9_artifact_is_concatenation "f" unassembled_info 3 unassembled_store).
  - reflexivity.
  - reflexivity.
  - simpl. lia.
  - apply (bool_decide_unpack _). by vm_compute.
  - apply (bool_decide_unpack _). by vm_compute.
Defined.

(** C9 fails as stated: the ranges [[0,1]] and [[1,1]] overlap, the
    artifact is assembled from both, and its size is the declared total
    size 3, not more. *)
Lemma C9_overlap_without_excess :
  si_chunks (get_file_status "f" touching_store) = [(0, 1); (1, 1)] ∧
  si_status (get_file_status "f" touching_store) = "complete"%string ∧
  total_bytes (get_file_status "f" touching_store) = Some 3 ∧
  ∃ artifact, UPLOAD_DIR touching_store !! "f"%string = Some artifact ∧
              Z.of_nat (length artifact) = 3 ∧
              ¬ (3 < Z.of_nat (length artifact)).
Proof.
  split_and!; [by vm_compute..|].
  exists (zeros 3). by vm_compute.
Qed.

(** ** The persist pass *)

Lemma owned_path g gi c : owned g gi → c ∈ chunks gi → (c_path c).1.1 = g.
Proof. unfold owned. rewrite Forall_forall. auto. Qed.

Lemma names_accepted_elem fs threshold l g gi :
  names_accepted fs threshold l = true →
  (g, gi) ∈ l → persist_acts threshold gi = true → fs (incomplete_name g) = true.
Proof.
  unfold names_accepted. rewrite forallb_forall. intros Hall Hin Hact.
  specialize (Hall (g, gi)). simpl in Hall. rewrite Hact in Hall.
  apply Hall. by apply list_elem_of_In.
Qed.

Lemma names_accepted_refused fs threshold l1 g gi l2 :
  persist_acts threshold gi = true → fs (incomplete_name g) = false →
  names_accepted fs threshold (l1 ++ (g, gi) :: l2) = false.
Proof.
  intros Hact Href. unfold names_accepted. rewrite forallb_app. simpl.
  rewrite Hact, Href. simpl. apply andb_false_r.
Qed.

Lemma persist_post_nil threshold s : persist_post threshold [] s s.
Proof.
  split_and!; try done. intros g gi Hin. by apply elem_of_nil in Hin.
Qed.

(** The loop body on one session: it either ends normally, the session
    persisted if the body acts on it, or raises [OSError] from the [open]
    of a refused name before anything is changed. *)
Lemma persist_one_spec fs threshold g gi s :
  owned g gi →
  (is_complete gi = false → present (CHUNK_DIR s) (chunks gi)) →
  wp (persist_one fs threshold (g, gi))
     (λ _ s', persist_post threshold [(g, gi)] s s' ∧
              (persist_acts threshold gi = true → fs (incomplete_name g) = true))
     (λ e s', e = OSError ∧ s' = s ∧
              persist_acts threshold gi = true ∧ fs (incomplete_name g) = false) s.
Proof.
  intros Hown Hp. unfold persist_one, persist_post, persist_acts.
  destruct (is_complete gi) eqn:Hc; simpl.
  { unfold wp, ret. simpl. split; [|done]. split_and!; try done.
    intros g' gi' Hin Hact. apply list_elem_of_singleton in Hin as [= -> ->].
    by rewrite Hc in Hact. }
  destruct (negb (recent_activity threshold gi) && has_chunks gi) eqn:Hact.
  2:{ unfold wp, ret. simpl. split; [|done]. split_and!; try done.
      intros g' gi' Hin Hact'. apply list_elem_of_singleton in Hin as [= -> ->].
      rewrite Hact in Hact'. by rewrite andb_false_r in Hact'. }
  specialize (Hp eq_refl).
  unfold open_output. destruct (fs (incomplete_name g)) eqn:Hfs.
  2:{ unfold wp, bind, raise. simpl. done. }
  apply wp_bind. unfold wp at 1, create_file, modify.
  set (s1 := set_upload_dir _ s). apply wp_bind.
  eapply wp_mono; [apply (copy_fragments_spec (incomplete_name g) _ s1 [])| |done].
  - eapply present_perm; [symmetry; apply sorted_by_start_perm|done].
  - subst s1. simpl. apply lookup_insert_eq.
  - intros _ s2 (Ht2 & Hc2 & Hu2 & Hn2). apply wp_bind.
    eapply wp_mono; [apply remove_fragments_spec| |done].
    intros _ s3 (Ht3 & Hu3 & Hin3 & Hout3 & _).
    unfold wp, del_session, modify. subst s1. simpl in *.
    split; [|done]. split_and!.
    + intros p Hp'. rewrite Hout3, Hc2; [done|].
      intros c Hin <-. apply Hp'. rewrite (owned_path g gi c Hown Hin). left.
    + intros n Hn. assert (Hne : n ≠ incomplete_name g) by (apply Hn; left).
      rewrite Hu3, Hn2 by done. by apply lookup_insert_ne.
    + intros h Hh. rewrite Ht3, Ht2. apply get_del_ne. intros ->. apply Hh. left.
    + intros g' gi' Hin _. apply list_elem_of_singleton in Hin as [= -> ->].
      unfold persisted. simpl. split_and!.
      * apply get_del_eq.
      * by rewrite Hu3, Hu2.
      * done.
Qed.

(** What the body did to the first session of the snapshot, joined with what
    the rest of the loop did to later ones. *)
Lemma persist_post_cons threshold g gi l s s1 s' :
  g ∉ l.*1 →
  owned g gi →
  Forall (λ kv, owned kv.1 kv.2) l →
  persist_post threshold [(g, gi)] s s1 →
  persist_post threshold l s1 s' →
  persist_post threshold ((g, gi) :: l) s s'.
Proof.
  intros Hg Hown_g Hown (Hc1 & Hu1 & Ht1 & Hact1) (Hc' & Hu' & Ht' & Hact').
  assert (Hkeys : ∀ h hi, (h, hi) ∈ l → h ≠ g).
  { intros h hi Hin ->. apply Hg. apply list_elem_of_fmap. by exists (g, hi). }
  assert (Hpaths : ∀ h hi c, (h, hi) ∈ l → c ∈ chunks hi →
            CHUNK_DIR s1 !! c_path c = CHUNK_DIR s !! c_path c).
  { intros h hi c Hin Hc. apply Hc1.
    rewrite Forall_forall in Hown.
    rewrite (owned_path h hi c (Hown (h, hi) Hin) Hc).
    apply not_elem_of_cons. split; [by eapply Hkeys|apply not_elem_of_nil]. }
  split_and!.
  - intros p Hp. apply not_elem_of_cons in Hp as [Hpg Hpr].
    rewrite Hc' by done. apply Hc1. simpl.
    apply not_elem_of_cons. split; [done|apply not_elem_of_nil].
  - intros n Hn. rewrite Hu'.
    + apply Hu1. intros g' Hg'. simpl in Hg'.
      apply list_elem_of_singleton in Hg' as ->.
      apply Hn. left.
    + intros g' Hg'. apply Hn. by right.
  - intros h Hh. apply not_elem_of_cons in Hh as [Hhg Hhr].
    rewrite Ht' by done. apply Ht1. simpl.
    apply not_elem_of_cons. split; [done|apply not_elem_of_nil].
  - intros g' gi' Hin Hact. apply elem_of_cons in Hin as [[= -> ->]|Hin].
    + destruct (Hact1 g gi) as (Hd & Hup & Hch); [left|done|].
      split_and!.
      * by rewrite Ht'.
      * rewrite Hu'; [done|]. intros h Hh Heq. apply incomplete_name_inj in Heq.
        by subst.
      * intros c Hc. rewrite Hc'; [by apply Hch|].
        by rewrite (owned_path g gi c Hown_g Hc).
    + destruct (Hact' g' gi' Hin Hact) as (Hd & Hup & Hch).
      split_and!; [done| |done].
      rewrite Hup. f_equal. apply fragments_concat_ext.
      intros c Hc. apply (Hpaths g' gi' c Hin). by rewrite <- sorted_by_start_perm.
Qed.

(** The loop over a snapshot [l] whose sessions have their fragments on
    disk.  It ends normally, every session it acts on persisted, when the
    file system accepts all their artifact names; otherwise it raises
    [OSError] at the first refused one, the sessions before it persisted
    and the ones from it on untouched. *)
Lemma persist_loop_spec fs threshold l s :
  NoDup l.*1 →
  Forall (λ kv, owned kv.1 kv.2) l →
  Forall (λ kv, is_complete kv.2 = false → present (CHUNK_DIR s) (chunks kv.2)) l →
  wp (for_each (persist_one fs threshold) l)
     (λ _ s', persist_post threshold l s s' ∧ names_accepted fs threshold l = true)
     (λ e s', e = OSError ∧
              ∃ l1 g gi l2,
                l = l1 ++ (g, gi) :: l2 ∧
                persist_acts threshold gi = true ∧ fs (incomplete_name g) = false ∧
                names_accepted fs threshold l1 = true ∧
                persist_post threshold l1 s s') s.
Proof.
  revert s. induction l as [|[g gi] r IH]; intros s Hnd Hown Hpres.
  { unfold wp; simpl. split; [apply persist_post_nil|done]. }
  simpl in Hnd. apply NoDup_cons in Hnd as [Hg Hnd].
  apply Forall_cons in Hown as [Hown_g Hown]. simpl in Hown_g.
  apply Forall_cons in Hpres as [Hpres_g Hpres]. simpl in Hpres_g.
  cbn [for_each]. apply wp_bind.
  eapply wp_mono; [by apply persist_one_spec| |].
  2:{ intros e s' (-> & -> & Hact & Href). split; [done|].
      exists [], g, gi, r. split_and!; [done|done|done|done|apply persist_post_nil]. }
  intros _ s1 [Hpost1 Hacc1].
  assert (Hpaths : ∀ h hi c, (h, hi) ∈ r → c ∈ chunks hi →
            CHUNK_DIR s1 !! c_path c = CHUNK_DIR s !! c_path c).
  { intros h hi c Hin Hc. destruct Hpost1 as (Hc1 & _). apply Hc1.
    pose proof Hown as Hown'. rewrite Forall_forall in Hown'.
    rewrite (owned_path h hi c (Hown' (h, hi) Hin) Hc).
    apply not_elem_of_cons. split; [|apply not_elem_of_nil].
    intros ->. apply Hg. apply list_elem_of_fmap. by exists (g, hi). }
  eapply wp_mono; [apply (IH s1 Hnd Hown)| |].
  - rewrite Forall_forall in Hpres. apply Forall_forall. intros [h hi] Hin Hcomp.
    specialize (Hpres _ Hin Hcomp). unfold present in *. simpl in *.
    rewrite Forall_forall in Hpres. apply Forall_forall. intros c Hc.
    rewrite (Hpaths h hi c Hin Hc). by apply Hpres.
  - intros _ s' [Hpost' Hacc']. split.
    + by apply (persist_post_cons threshold g gi r s s1 s').
    + unfold names_accepted in *. simpl. rewrite Hacc', andb_true_r.
      destruct (persist_acts threshold gi); [by apply Hacc1|done].
  - intros e s' (-> & l1 & g' & gi' & l2 & -> & Hact & Href & Hacc' & Hpost').
    split; [done|].
    exists ((g, gi) :: l1), g', gi', l2. split_and!; [done|done|done| |].
    + unfold names_accepted in *. simpl. rewrite Hacc', andb_true_r.
      destruct (persist_acts threshold gi); [by apply Hacc1|done].
    + apply (persist_post_cons threshold g gi l1 s s1 s'); [|done| |done|done].
      * intros Hin. apply Hg. rewrite fmap_app. apply elem_of_app. by left.
      * apply Forall_app in Hown as [Hown _]. done.
Qed.

(** The two outcomes of the loop, read off the names the file system
    accepts. *)
Lemma persist_loop_ok fs threshold l s :
  NoDup l.*1 →
  Forall (λ kv, owned kv.1 kv.2) l →
  Forall (λ kv, is_complete kv.2 = false → present (CHUNK_DIR s) (chunks kv.2)) l →
  names_accepted fs threshold l = true →
  outcome (for_each (persist_one fs threshold) l) s = Ok tt ∧
  persist_post threshold l s (run (for_each (persist_one fs threshold) l) s).
Proof.
  intros Hnd Hown Hpres Hacc.
  pose proof (persist_loop_spec fs threshold l s Hnd Hown Hpres) as Hloop.
  unfold wp, outcome, run in *.
  destruct (for_each (persist_one fs threshold) l s) as [[[]|e] s']; simpl.
  - by destruct Hloop.
  - destruct Hloop as (_ & l1 & g & gi & l2 & -> & Hact & Href & _).
    by rewrite (names_accepted_refused fs threshold l1 g gi l2) in Hacc.
Qed.

Lemma persist_loop_refused fs threshold l s :
  NoDup l.*1 →
  Forall (λ kv, owned kv.1 kv.2) l →
  Forall (λ kv, is_complete kv.2 = false → present (CHUNK_DIR s) (chunks kv.2)) l →
  names_accepted fs threshold l = false →
  outcome (for_each (persist_one fs threshold) l) s = Raise OSError ∧
  ∃ l1 g gi l2,
    l = l1 ++ (g, gi) :: l2 ∧
    persist_acts threshold gi = true ∧ fs (incomplete_name g) = false ∧
    names_accepted fs threshold l1 = true ∧
    persist_post threshold l1 s (run (for_each (persist_one fs threshold) l) s).
Proof.
  intros Hnd Hown Hpres Hacc.
  pose proof (persist_loop_spec fs threshold l s Hnd Hown Hpres) as Hloop.
  unfold wp, outcome, run in *.
  destruct (for_each (persist_one fs threshold) l s) as [[[]|e] s']; simpl.
  - destruct Hloop as [_ Hacc']. congruence.
  - destruct Hloop as (-> & Hsplit). done.
Qed.

(** ** The cleanup pass *)

Lemma for_each_total {A} (body : A → M unit) l :
  (∀ x, total (body x)) → total (for_each body l).
Proof.
  intros Hb. induction l as [|x l IH]; intros s; simpl; [by exists tt|].
  unfold bind. destruct (Hb x s) as [[] Hx].
  destruct (body x s) as [r s1]; simpl in *. subst r. apply IH.
Qed.

Lemma cleanup_one_total threshold x : total (cleanup_one threshold x).
Proof.
  destruct x as [g gi]. intros s. unfold cleanup_one.
  destruct (is_complete gi); [by exists tt|].
  destruct (stale_scan threshold (chunks gi)); [|by exists tt].
  unfold bind. destruct (remove_fragments_total (chunks gi) s) as [[] Hr].
  destruct (remove_fragments (chunks gi) s) as [r s1]; simpl in *. subst r.
  by exists tt.
Qed.

Lemma cleanup_stale_chunks_total now : total (cleanup_stale_chunks now).
Proof.
  intros s. unfold cleanup_stale_chunks, bind, get_store.
  apply for_each_total. apply cleanup_one_total.
Qed.

Lemma run_bind_total {A B} (m : M A) (k : M B) s :
  total m →
  run (m >> k) s = run k (run m s) ∧ outcome (m >> k) s = outcome k (run m s).
Proof.
  intros Ht. destruct (Ht s) as [a Ha]. unfold run, outcome, bind.
  destruct (m s) as [r s1]; simpl in *. by subst r.
Qed.

Lemma cleanup_acts_stale threshold info :
  cleanup_acts threshold info = true ↔
  is_complete info = false ∧ stale_scan threshold (chunks info) = true.
Proof.
  unfold cleanup_acts. rewrite stale_scan_recent, andb_true_iff, !negb_true_iff.
  done.
Qed.

Lemma gone_remove_fragments fid a ps cs :
  preserves (session_gone fid a ps) (remove_fragments cs).
Proof.
  apply preserves_remove_fragments. intros c _. apply preserves_modify.
  intros s (Ht & Hu & Hc). split_and!; simpl; [done|done|].
  intros p Hp. rewrite lookup_delete_None. right. by apply Hc.
Qed.

Lemma gone_del_session fid a ps g : preserves (session_gone fid a ps) (del_session g).
Proof.
  apply preserves_modify. intros s (Ht & Hu & Hc). split_and!; simpl; [|done|done].
  destruct (decide (g = fid)) as [->|Hne]; [apply get_del_eq|by rewrite get_del_ne].
Qed.

Lemma gone_cleanup_one fid a ps threshold x :
  preserves (session_gone fid a ps) (cleanup_one threshold x).
Proof.
  destruct x as [g gi]. unfold cleanup_one.
  destruct (is_complete gi); [apply preserves_ret|].
  destruct (stale_scan threshold (chunks gi)); [|apply preserves_ret].
  apply preserves_bind; [apply gone_remove_fragments|].
  intros _. apply gone_del_session.
Qed.

Lemma gone_persist_one fs fid a ps threshold g gi :
  g ≠ fid → preserves (session_gone fid a ps) (persist_one fs threshold (g, gi)).
Proof.
  intros Hne. unfold persist_one.
  destruct (is_complete gi); [apply preserves_ret|].
  destruct (_ && _); [|apply preserves_ret].
  assert (Hname : incomplete_name g ≠ incomplete_name fid).
  { intros H. by apply Hne, incomplete_name_inj. }
  apply preserves_bind.
  { apply preserves_open_output, preserves_modify.
    intros s (Ht & Hu & Hc). split_and!; simpl; [done| |done].
    by rewrite lookup_insert_ne. }
  intros _. apply preserves_bind.
  { apply preserves_copy_fragments. intros d. apply preserves_modify.
    intros s (Ht & Hu & Hc). split_and!; simpl; [done| |done].
    by rewrite lookup_insert_ne. }
  intros _. apply preserves_bind; [apply gone_remove_fragments|].
  intros _. apply gone_del_session.
Qed.

Lemma gone_cleanup_stale_chunks fid a ps now :
  preserves (session_gone fid a ps) (cleanup_stale_chunks now).
Proof.
  intros s Hs. unfold cleanup_stale_chunks, bind, get_store.
  apply (preserves_for_each (session_gone fid a ps)); [|done].
  intros x _. apply gone_cleanup_one.
Qed.

Lemma gone_persist_incomplete_files fs fid a ps now :
  preserves (session_gone fid a ps) (persist_incomplete_files fs now).
Proof.
  intros s Hs. unfold persist_incomplete_files, bind, get_store.
  apply (preserves_for_each (session_gone fid a ps)); [|done].
  intros [g gi] Hin. apply gone_persist_one. intros ->.
  destruct Hs as (Ht & _). by apply (get_None_not_key _ _ Ht gi).
Qed.

(** The cleanup loop removes every session of its snapshot on which it acts
    and writes no artifact. *)
Lemma cleanup_loop_removes threshold fid info l s :
  (fid, info) ∈ l →
  cleanup_acts threshold info = true →
  session_gone fid (UPLOAD_DIR s !! incomplete_name fid) (c_path <$> chunks info)
    (run (for_each (cleanup_one threshold) l) s).
Proof.
  intros Hin Hact. revert s. induction l as [|x l IH]; intros s.
  { by apply elem_of_nil in Hin. }
  simpl. destruct (run_bind_total (cleanup_one threshold x)
                     (for_each (cleanup_one threshold) l) s
                     (cleanup_one_total threshold x)) as [-> _].
  assert (Hu : UPLOAD_DIR (run (cleanup_one threshold x) s) !! incomplete_name fid
               = UPLOAD_DIR s !! incomplete_name fid).
  { apply (wp_run (cleanup_one threshold x)
             (λ s', UPLOAD_DIR s' !! incomplete_name fid = UPLOAD_DIR s !! incomplete_name fid)).
    apply wp_preserves; [|done]. destruct x as [g gi]. unfold cleanup_one.
    destruct (is_complete gi); [apply preserves_ret|].
    destruct (stale_scan threshold (chunks gi)); [|apply preserves_ret].
    apply preserves_bind.
    - apply preserves_remove_fragments. intros c _. by apply preserves_modify.
    - intros _. by apply preserves_modify. }
  apply elem_of_cons in Hin as [<-|Hin].
  - apply (preserves_for_each (session_gone fid _ _)).
    { intros y _. apply gone_cleanup_one. }
    apply cleanup_acts_stale in Hact as [Hc Hst].
    apply (wp_run (cleanup_one threshold (fid, info))
             (session_gone fid (UPLOAD_DIR s !! incomplete_name fid) (c_path <$> chunks info))).
    unfold cleanup_one. rewrite Hc, Hst. apply wp_bind.
    eapply wp_mono; [apply remove_fragments_spec| |done].
    intros _ s1 (Ht1 & Hu1 & Hin1 & _). unfold wp, del_session, modify. simpl.
    split_and!; simpl; [apply get_del_eq|by rewrite Hu1|].
    intros p Hp. apply list_elem_of_fmap in Hp as (c & -> & Hc'). by apply Hin1.
  - rewrite <- Hu. by apply IH.
Qed.

(** The records that survive the cleanup loop were there before, and the
    loop did not act on them. *)
Lemma cleanup_loop_survivors threshold l s x :
  x ∈ upload_tracker (run (for_each (cleanup_one threshold) l) s) →
  x ∈ upload_tracker s ∧ (x ∈ l → cleanup_acts threshold x.2 = false).
Proof.
  revert s. induction l as [|[g gi] l IH]; intros s Hx.
  { split; [done|]. intros H. by apply elem_of_nil in H. }
  cbn [for_each] in Hx. destruct (run_bind_total (cleanup_one threshold (g, gi))
                     (for_each (cleanup_one threshold) l) s
                     (cleanup_one_total threshold (g, gi))) as [Hrun _].
  rewrite Hrun in Hx. apply IH in Hx as [Hx1 Hl].
  assert (Hstep : x ∈ upload_tracker s ∧ (x = (g, gi) → cleanup_acts threshold gi = false)).
  { revert Hx1. unfold run, cleanup_one.
    destruct (cleanup_acts threshold gi) eqn:Hact.
    - apply cleanup_acts_stale in Hact as [-> ->].
      pose proof (remove_fragments_spec (chunks gi) s) as Hr.
      unfold bind. unfold wp in Hr.
      destruct (remove_fragments (chunks gi) s) as [[[]|e] s1]; [|done].
      destruct Hr as (Ht1 & _). simpl. rewrite Ht1.
      intros Hx1. apply elem_of_del in Hx1 as [Hne Hx1]. split; [done|].
      intros ->. done.
    - assert (Hno : (if is_complete gi then ret tt
                     else if stale_scan threshold (chunks gi)
                          then remove_fragments (chunks gi) >> del_session g
                          else ret tt) = ret tt).
      { destruct (is_complete gi) eqn:Hc; [done|].
        destruct (stale_scan threshold (chunks gi)) eqn:Hst; [|done].
        assert (cleanup_acts threshold gi = true) by (by apply cleanup_acts_stale).
        congruence. }
      rewrite Hno. simpl. by intros Hx1. }
  destruct Hstep as [Hs Heq]. split; [done|].
  intros Hin. apply elem_of_cons in Hin as [->|Hin]; [by apply Heq|by apply Hl].
Qed.


Lemma recent_activity_mono thr1 thr2 info :
  thr2 ≤ thr1 → recent_activity thr1 info = true → recent_activity thr2 info = true.
Proof.
  intros Hle. unfold recent_activity. rewrite !existsb_exists.
  intros (c & Hin & Hc). exists c. split; [done|].
  apply Z.gtb_lt. apply Z.gtb_lt in Hc. lia.
Qed.

(** ** The two sweeps *)

Lemma run_bind_ok {A B} (m : M A) (k : M B) s a :
  outcome m s = Ok a →
  run (m >> k) s = run k (run m s) ∧ outcome (m >> k) s = outcome k (run m s).
Proof.
  unfold run, outcome, bind. destruct (m s) as [r s1]; simpl. by intros ->.
Qed.

Lemma run_bind_raise {A B} (m : M A) (k : M B) s e :
  outcome m s = Raise e →
  run (m >> k) s = run m s ∧ outcome (m >> k) s = Raise e.
Proof.
  unfold run, outcome, bind. destruct (m s) as [r s1]; simpl. by intros ->.
Qed.

Lemma total_outcome (m : M unit) s : total m → outcome m s = Ok tt.
Proof. intros Ht. destruct (Ht s) as [[] H]. done. Qed.

Lemma cleanup_keeps_upload_dir now s :
  UPLOAD_DIR (run (cleanup_stale_chunks now) s) = UPLOAD_DIR s.
Proof.
  unfold run, cleanup_stale_chunks, bind, get_store.
  apply (preserves_for_each (λ s', UPLOAD_DIR s' = UPLOAD_DIR s)); [|done].
  intros [g gi] _. unfold cleanup_one.
  destruct (is_complete gi); [apply preserves_ret|].
  destruct (stale_scan _ (chunks gi)); [|apply preserves_ret].
  apply preserves_bind.
  - apply preserves_remove_fragments. intros c _. by apply preserves_modify.
  - intros _. by apply preserves_modify.
Qed.

Lemma periodic_round_removes_stale fs s now1 now2 fid info :
  Dict.get fid (upload_tracker s) = Some info →
  cleanup_acts (now1 - STALE_THRESHOLD) info = true →
  session_gone fid (UPLOAD_DIR s !! incomplete_name fid) (c_path <$> chunks info)
    (run (periodic_cleanup_round fs now1 now2) s).
Proof.
  intros Hget Hact. unfold periodic_cleanup_round.
  destruct (run_bind_total (cleanup_stale_chunks now1) (persist_incomplete_files fs now2) s
              (cleanup_stale_chunks_total now1)) as [-> _].
  apply gone_persist_incomplete_files.
  unfold run, cleanup_stale_chunks, bind, get_store.
  apply cleanup_loop_removes; [by apply get_Some_elem_of|done].
Qed.





(** C5, as the code has it: neither sweep looks at the total size.  For a
    stale session that is not complete, whether or not a total size is
    recorded: the on-demand sweep, when the file system accepts the artifact
    name of every session its persist step acts on, writes the partial
    artifact (the stored fragments in ascending start order), deletes the
    fragments and removes the session record; when the file system refuses
    the artifact name of the session, the on-demand sweep raises [OSError]
    and the record, the fragments and the artifact slot of the session are
    as before; the periodic round writes no artifact for the session,
    deletes its fragments and removes its record.  No status is recorded for
    the session in any case. *)
Theorem C5_sweeps_ignore_total_size fs s now1 now2 fid info :
  tracker_wf (upload_tracker s) →
  fragments_present s →
  Dict.get fid (upload_tracker s) = Some info →
  is_complete info = false →
  recent_activity (now1 - STALE_THRESHOLD) info = false →
  has_chunks info = true →
  let demand := run (trigger_cleanup fs now1 now2) s in
  let periodic := run (periodic_cleanup_round fs now1 now2) s in
  (names_accepted fs (now1 - STALE_THRESHOLD) (upload_tracker s) = true →
   outcome (trigger_cleanup fs now1 now2) s = Ok tt ∧
   UPLOAD_DIR demand !! incomplete_name fid
   = Some (fragments_concat (CHUNK_DIR s) (sorted_by_start (chunks info))) ∧
   Dict.get fid (upload_tracker demand) = None ∧
   ∀ c, c ∈ chunks info → CHUNK_DIR demand !! c_path c = None) ∧
  (fs (incomplete_name fid) = false →
   outcome (trigger_cleanup fs now1 now2) s = Raise OSError ∧
   Dict.get fid (upload_tracker demand) = Some info ∧
   (∀ c, c ∈ chunks info → CHUNK_DIR demand !! c_path c = CHUNK_DIR s !! c_path c) ∧
   UPLOAD_DIR demand !! incomplete_name fid = UPLOAD_DIR s !! incomplete_name fid) ∧
  (UPLOAD_DIR periodic !! incomplete_name fid = UPLOAD_DIR s !! incomplete_name fid ∧
   Dict.get fid (upload_tracker periodic) = None ∧
   ∀ c, c ∈ chunks info → CHUNK_DIR periodic !! c_path c = None).
Proof.
  intros Hwf Hpres Hget Hc Hr Hch demand periodic.
  pose proof Hwf as [Hnd Hown].
  assert (Hacts : persist_acts (now1 - STALE_THRESHOLD) info = true).
  { unfold persist_acts. by rewrite Hc, Hr, Hch. }
  split_and!.
  - intros Hacc.
    destruct (persist_loop_ok fs (now1 - STALE_THRESHOLD) (upload_tracker s) s
                Hnd Hown Hpres Hacc) as (Hout & _ & _ & _ & Hact).
    destruct (Hact fid info) as (Hd & Hup & Hfr); [by apply get_Some_elem_of|done|].
    assert (Hout' : outcome (persist_incomplete_files fs now1) s = Ok tt) by exact Hout.
    destruct (run_bind_ok (persist_incomplete_files fs now1) (cleanup_stale_chunks now2)
                s tt Hout') as [Hrun Hres].
    unfold demand, trigger_cleanup. rewrite Hrun, Hres.
    split; [apply total_outcome, cleanup_stale_chunks_total|].
    destruct (gone_cleanup_stale_chunks fid
                (Some (fragments_concat (CHUNK_DIR s) (sorted_by_start (chunks info))))
                (c_path <$> chunks info) now2
                (run (persist_incomplete_files fs now1) s)) as (Hd' & Hup' & Hfr').
    { split_and!; [exact Hd|exact Hup|].
      intros p Hp. apply list_elem_of_fmap in Hp as (c & -> & Hin). by apply Hfr. }
    split_and!; [done|done|].
    intros c Hin. apply Hfr'. apply list_elem_of_fmap. by exists c.
  - intros Href.
    assert (Hout : outcome (persist_incomplete_files fs now1) s = Raise OSError).
    { destruct (names_accepted fs (now1 - STALE_THRESHOLD) (upload_tracker s)) eqn:Hacc.
      - rewrite (names_accepted_elem _ _ _ fid info Hacc) in Href;
          [done|by apply get_Some_elem_of|done].
      - by destruct (persist_loop_refused fs (now1 - STALE_THRESHOLD) (upload_tracker s) s
                       Hnd Hown Hpres Hacc) as [? _]. }
    destruct (run_bind_raise (persist_incomplete_files fs now1) (cleanup_stale_chunks now2)
                s OSError Hout) as [Hrun Hres].
    unfold demand, trigger_cleanup. rewrite Hrun, Hres. split; [done|].
    assert (Hown_fid : owned fid info).
    { rewrite Forall_forall in Hown. apply (Hown (fid, info)). by apply get_Some_elem_of. }
    destruct (kept_persist_incomplete_files fid info s Hown_fid Hwf Hget fs now1 s)
      as (? & ? & ? & _); [by right|done|done].
  - destruct (periodic_round_removes_stale fs s now1 now2 fid info Hget) as (Hd & Hup & _).
    { unfold cleanup_acts. by rewrite Hc, Hr. }
    done.
  - destruct (periodic_round_removes_stale fs s now1 now2 fid info Hget) as (Hd & Hup & _).
    { unfold cleanup_acts. by rewrite Hc, Hr. }
    done.
  - destruct (periodic_round_removes_stale fs s now1 now2 fid info Hget) as (_ & _ & Hfr).
    { unfold cleanup_acts. by rewrite Hc, Hr. }
    intros c Hin. apply Hfr. apply list_elem_of_fmap. by exists c.
Qed.

Lemma C5_sweeps_witness :
  let demand := run (trigger_cleanup name_fits 5000000000 5000000001) lone_store in
  let refused := run (trigger_cleanup name_fits 5000000000 5000000001) long_store in
  let periodic := run (periodic_cleanup_round name_fits 5000000000 5000000001) lone_store in
  (outcome (trigger_cleanup name_fits 5000000000 5000000001) lone_store = Ok tt ∧
   UPLOAD_DIR demand !! incomplete_name "f"
   = Some (fragments_concat (CHUNK_DIR lone_store) (sorted_by_start (chunks lone_info))) ∧
   Dict.get "f" (upload_tracker demand) = None ∧
   ∀ c, c ∈ chunks lone_info → CHUNK_DIR demand !! c_path c = None) ∧
  (outcome (trigger_cleanup name_fits 5000000000 5000000001) long_store = Raise OSError ∧
   Dict.get long_id (upload_tracker refused) = Some long_info ∧
   (∀ c, c ∈ chunks long_info →
         CHUNK_DIR refused !! c_path c = CHUNK_DIR long_store !! c_path c) ∧
   UPLOAD_DIR refused !! incomplete_name long_id
   = UPLOAD_DIR long_store !! incomplete_name long_id) ∧
  (UPLOAD_DIR periodic !! incomplete_name "f" = UPLOAD_DIR lone_store !! incomplete_name "f" ∧
   Dict.get "f" (upload_tracker periodic) = None ∧
   ∀ c, c ∈ chunks lone_info → CHUNK_DIR periodic !! c_path c = None).
Proof.
  destruct (C5_sweeps_ignore_total_size name_fits lone_store 5000000000 5000000001
              "f" lone_info) as (Hacc & _ & Hper).
  - apply (bool_decide_unpack _). by vm_compute.
  - apply (bool_decide_unpack _). by vm_compute.
  - reflexivity.
  - reflexivity.
  - reflexivity.
  - reflexivity.
  - destruct (C5_sweeps_ignore_total_size name_fits long_store 5000000000 5000000001
                long_id long_info) as (_ & Href & _).
    + apply (bool_decide_unpack _). by vm_compute.
    + apply (bool_decide_unpack _). by vm_compute.
    + by vm_compute.
    + reflexivity.
    + reflexivity.
    + reflexivity.
    + split; [apply Hacc; by vm_compute|].
      split; [apply Href; by vm_compute|exact Hper].
Defined.

(** C5 fails as stated, in both directions: the on-demand sweep persists an
    artifact for a stale session whose total size is unknown, and the
    periodic round persists none for a stale session whose total size is
    known. *)
Lemma C5_total_size_not_consulted :
  (total_bytes (get_file_status "f" lone_store) = None ∧
   UPLOAD_DIR (run (trigger_cleanup name_fits 5000000000 5000000001) lone_store)
     !! incomplete_name "f" = Some (zeros 100)) ∧
  (total_bytes (get_file_status "f" sized_store) = Some 100 ∧
   si_status (get_file_status "f" sized_store) = "partial"%string ∧
   UPLOAD_DIR (run (periodic_cleanup_round name_fits 5000000000 5000000001) sized_store)
     !! incomplete_name "f" = None ∧
   upload_tracker (run (periodic_cleanup_round name_fits 5000000000 5000000001) sized_store) = []).
Proof. by vm_compute. Qed.

(** ** Well-formedness is an invariant of ingestion *)

Lemma alter_keys {V} (f : V → V) k (d : list (string * V)) : (Dict.alter f k d).*1 = d.*1.
Proof.
  induction d as [|[k' v] d IH]; [done|]. cbn [Dict.alter].
  destruct (decide (k' = k)); rewrite !fmap_cons; [done|]. by rewrite IH.
Qed.

Lemma alter_Forall {V} (P : string * V → Prop) (f : V → V) k d :
  (∀ v, P (k, v) → P (k, f v)) → Forall P d → Forall P (Dict.alter f k d).
Proof.
  intros Hf. induction 1 as [|[k' v] d Hx Hd IH]; simpl; [constructor|].
  destruct (decide (k' = k)) as [->|Hne]; constructor; auto.
Qed.

Lemma set_absent {V} k (v : V) d : Dict.get k d = None → Dict.set k v d = d ++ [(k, v)].
Proof.
  induction d as [|[k' v'] d IH]; simpl; [done|].
  destruct (decide (k' = k)); [done|]. intros H. by rewrite IH.
Qed.

Lemma tracker_wf_empty : tracker_wf (upload_tracker empty_store).
Proof. split; constructor. Qed.

Lemma tracker_wf_register chunk ts t :
  tracker_wf t → tracker_wf (register_chunk chunk ts t).
Proof.
  intros [Hnd Hown]. unfold register_chunk, Dict.mem.
  assert (Hstep : tracker_wf (if match Dict.get (file_id chunk) t with
                                 | Some _ => true | None => false end
                              then t
                              else Dict.set (file_id chunk) (new_info chunk ts) t)).
  { destruct (Dict.get (file_id chunk) t) eqn:Hg; [done|].
    rewrite set_absent by done. split.
    - rewrite fmap_app. simpl. apply NoDup_app. split_and!; [done| |apply NoDup_singleton].
      intros k Hk Hk'. apply list_elem_of_singleton in Hk' as ->.
      apply list_elem_of_fmap in Hk as ([k' v] & Heq & Hin). simpl in Heq. subst k'.
      by apply (get_None_not_key _ _ Hg v).
    - apply Forall_app. split; [done|]. constructor; [|constructor].
      unfold owned. simpl. constructor. }
  destruct Hstep as [Hnd1 Hown1]. split.
  - by rewrite !alter_keys.
  - apply alter_Forall; [done|]. apply alter_Forall; [|done].
    intros v Hv. unfold owned in *. simpl in *. apply Forall_app. split; [done|].
    constructor; [done|constructor].
Qed.

(** Whatever happens to the fragment write and to the assembly, the tracker
    stays well formed. *)
Lemma tracker_wf_save_chunk now io chunk s :
  tracker_wf (upload_tracker s) →
  tracker_wf (upload_tracker (run (save_chunk now io chunk) s)).
Proof.
  intros Hwf. destruct io as [| |n].
  - destruct (save_chunk_ok_tracker now chunk s) as [-> | ->].
    + by apply tracker_wf_register.
    + destruct (tracker_wf_register chunk now _ Hwf) as [Hnd Hown]. split.
      * by rewrite alter_keys.
      * by apply alter_Forall.
  - done.
  - done.
Qed.

Lemma alter_Forall_key {V} (P : string * V → Prop) (f : V → V) k d :
  NoDup d.*1 →
  (∀ v, (k, v) ∈ d → P (k, f v)) →
  (∀ kv, kv ∈ d → kv.1 ≠ k → P kv) →
  Forall P (Dict.alter f k d).
Proof.
  induction d as [|[k' v] d IH]; intros Hnd Hk Hother; [constructor|].
  rewrite fmap_cons in Hnd. apply NoDup_cons in Hnd as [Hk' Hnd].
  cbn [Dict.alter]. destruct (decide (k' = k)) as [->|Hne].
  - constructor; [apply Hk; left|].
    apply Forall_forall. intros [k0 v0] Hin. apply Hother; [by right|].
    simpl. intros ->. apply Hk'. apply list_elem_of_fmap. by exists (k, v0).
  - constructor; [by apply Hother; [left|]|].
    apply IH; [done| |].
    + intros v0 Hin. apply Hk. by right.
    + intros kv Hin. apply Hother. by right.
Qed.

Lemma present_insert D p d cs : present D cs → present (<[p := d]> D) cs.
Proof.
  unfold present. intros H. eapply Forall_impl; [exact H|]. intros c [x Hx].
  destruct (decide (p = c_path c)) as [->|Hne].
  - rewrite lookup_insert_eq. by eexists.
  - rewrite lookup_insert_ne by done. by eexists.
Qed.

Lemma fragments_present_register chunk ts d s :
  fragments_present s →
  fragments_present
    (set_tracker (register_chunk chunk ts (upload_tracker s))
       (set_chunk_dir (<[chunk_path_of chunk := d]> (CHUNK_DIR s)) s)).
Proof.
  unfold fragments_present. simpl. intros Hp.
  set (D' := <[chunk_path_of chunk := d]> (CHUNK_DIR s)).
  assert (Hp' : Forall (λ kv, is_complete kv.2 = false → present D' (chunks kv.2))
                  (upload_tracker s)).
  { eapply Forall_impl; [exact Hp|]. intros kv H Hc. by apply present_insert, H. }
  unfold register_chunk, Dict.mem.
  apply alter_Forall; [done|]. apply alter_Forall.
  - intros v Hv Hc. simpl in *. unfold present. apply Forall_app. split; [by apply Hv|].
    constructor; [|constructor]. simpl. subst D'. rewrite lookup_insert_eq. by eexists.
  - destruct (Dict.get (file_id chunk) (upload_tracker s)) eqn:Hg; [done|].
    rewrite set_absent by done. apply Forall_app. split; [done|].
    constructor; [|constructor]. intros _. constructor.
Qed.

Lemma fragments_present_assemble fid s :
  tracker_wf (upload_tracker s) →
  fragments_present s →
  fragments_present (run (assemble_file fid) s).
Proof.
  intros [Hnd Hown] Hp.
  apply (wp_run (assemble_file fid) fragments_present).
  unfold assemble_file. apply wp_bind. unfold wp at 1, get_store.
  destruct (Dict.get fid (upload_tracker s)) as [info|] eqn:Hget; [|done].
  destruct (fi_total_size info) as [n|]; [|done].
  destruct (_ <? n); [done|].
  apply wp_bind. unfold wp at 1, create_file, modify.
  set (s1 := set_upload_dir _ s).
  assert (Hkeep : preserves (λ s', upload_tracker s' = upload_tracker s ∧
                                   CHUNK_DIR s' = CHUNK_DIR s)
                    (copy_fragments fid (sorted_by_start (chunks info)))).
  { apply preserves_copy_fragments. intros d. by apply preserves_modify. }
  apply wp_bind.
  eapply wp_mono; [apply (wp_preserves _ _ s1 Hkeep); done| |].
  2:{ intros e s2 [Ht2 Hc2]. unfold fragments_present. by rewrite Ht2, Hc2. }
  intros [] s2 [Ht2 Hc2]. apply wp_bind.
  eapply wp_mono; [apply remove_fragments_spec| |done].
  intros [] s3 (Ht3 & _ & _ & Hout3 & _). apply wp_bind.
  unfold wp, modify, ret. unfold fragments_present. simpl.
  rewrite Ht3, Ht2. apply alter_Forall_key; [done| |].
  - intros v _. done.
  - intros [k v] Hin Hne Hc. simpl in *.
    unfold fragments_present in Hp. rewrite Forall_forall in Hp.
    specialize (Hp (k, v) Hin Hc). simpl in Hp.
    unfold present in *. rewrite Forall_forall in Hp. apply Forall_forall.
    intros c Hcin. rewrite Hout3, Hc2; [by apply Hp|].
    intros c' Hc' Heq. rewrite sorted_by_start_perm in Hc'.
    rewrite Forall_forall in Hown.
    pose proof (owned_path k v c (Hown (k, v) Hin) Hcin) as Hk.
    pose proof (owned_path fid info c'
                  (Hown (fid, info) (get_Some_elem_of _ _ _ Hget)) Hc') as Hf.
    rewrite Heq in Hf. congruence.
Qed.

(** Ingestion keeps the fragments of unfinished sessions on disk, whatever
    the fragment write and the assembly do. *)
Lemma fragments_present_save_chunk now io chunk s :
  tracker_wf (upload_tracker s) →
  fragments_present s →
  fragments_present (run (save_chunk now io chunk) s).
Proof.
  intros Hwf Hp. destruct io as [| |n].
  - apply (wp_run (save_chunk now io_ok chunk) fragments_present).
    unfold save_chunk, write_fragment.
    apply wp_bind. unfold wp at 1, modify. apply wp_bind. unfold wp at 1.
    set (s1 := set_tracker _ _).
    assert (Hp1 : fragments_present s1)
      by exact (fragments_present_register chunk now (data chunk) s Hp).
    assert (Hwf1 : tracker_wf (upload_tracker s1))
      by exact (tracker_wf_register chunk now (upload_tracker s) Hwf).
    destruct (total_size chunk) as [m|]; [|done].
    apply wp_bind. unfold wp at 1, get_store.
    destruct (_ >=? m); [|done].
    apply wp_bind.
    pose proof (fragments_present_assemble (file_id chunk) s1 Hwf1 Hp1) as Ha.
    apply (wp_run (assemble_file (file_id chunk)) fragments_present) in Ha.
    eapply wp_mono; [exact Ha| |done]. by intros b s2 H.
  - done.
  - unfold run, save_chunk, write_fragment, bind, modify, raise. simpl.
    unfold fragments_present in *. simpl.
    eapply Forall_impl; [exact Hp|]. intros kv H Hc. by apply present_insert, H.
Qed.

(** The sweeps only remove records, so they keep the tracker well formed
    too. *)
Lemma tracker_wf_sublist t t' : t' `sublist_of` t → tracker_wf t → tracker_wf t'.
Proof.
  intros Hsub [Hnd Hown]. split.
  - eapply sublist_NoDup; [exact Hnd|]. by apply fmap_sublist.
  - apply Forall_forall. intros x Hx. rewrite Forall_forall in Hown.
    apply Hown. by eapply elem_of_sublist.
Qed.

Lemma sublist_del_session t g :
  preserves (λ s, upload_tracker s `sublist_of` t) (del_session g).
Proof.
  apply preserves_modify. intros s Hs. simpl.
  etrans; [apply sublist_filter|done].
Qed.

Lemma sublist_cleanup_one t threshold x :
  preserves (λ s, upload_tracker s `sublist_of` t) (cleanup_one threshold x).
Proof.
  destruct x as [g gi]. unfold cleanup_one.
  destruct (is_complete gi); [apply preserves_ret|].
  destruct (stale_scan threshold (chunks gi)); [|apply preserves_ret].
  apply preserves_bind; [|intros _; apply sublist_del_session].
  apply preserves_remove_fragments. intros c _. by apply preserves_modify.
Qed.

Lemma sublist_persist_one fs t threshold x :
  preserves (λ s, upload_tracker s `sublist_of` t) (persist_one fs threshold x).
Proof.
  destruct x as [g gi]. unfold persist_one.
  destruct (is_complete gi); [apply preserves_ret|].
  destruct (_ && _); [|apply preserves_ret].
  apply preserves_bind; [by apply preserves_open_output, preserves_modify|]. intros _.
  apply preserves_bind.
  { apply preserves_copy_fragments. intros d. by apply preserves_modify. }
  intros _. apply preserves_bind; [|intros _; apply sublist_del_session].
  apply preserves_remove_fragments. intros c _. by apply preserves_modify.
Qed.

Lemma tracker_wf_sweeps fs now1 now2 s sweep :
  sweep ∈ [cleanup_stale_chunks now1; persist_incomplete_files fs now1;
           periodic_cleanup_round fs now1 now2; trigger_cleanup fs now1 now2] →
  tracker_wf (upload_tracker s) →
  tracker_wf (upload_tracker (run sweep s)).
Proof.
  intros Hsweep Hwf. eapply tracker_wf_sublist; [|exact Hwf].
  assert (Hcl : ∀ now, preserves (λ s', upload_tracker s' `sublist_of` upload_tracker s)
                         (cleanup_stale_chunks now)).
  { intros now s1 Hs1. unfold cleanup_stale_chunks, bind, get_store.
    apply (preserves_for_each (λ s', upload_tracker s' `sublist_of` upload_tracker s));
      [|done].
    intros x _. apply sublist_cleanup_one. }
  assert (Hpe : ∀ now, preserves (λ s', upload_tracker s' `sublist_of` upload_tracker s)
                         (persist_incomplete_files fs now)).
  { intros now s1 Hs1. unfold persist_incomplete_files, bind, get_store.
    apply (preserves_for_each (λ s', upload_tracker s' `sublist_of` upload_tracker s));
      [|done].
    intros x _. apply sublist_persist_one. }
  set_unfold in Hsweep. destruct Hsweep as [->|[->|[->|[->|[]]]]].
  - by apply Hcl.
  - by apply Hpe.
  - apply (preserves_bind (λ s', upload_tracker s' `sublist_of` upload_tracker s));
      [apply Hcl|intros _; apply Hpe|done].
  - apply (preserves_bind (λ s', upload_tracker s' `sublist_of` upload_tracker s));
      [apply Hpe|intros _; apply Hcl|done].
Qed.

(** ** [utils.py]: checksums and chunk headers *)

Lemma byte_val_bounds b : 0 ≤ byte_val b < 256.
Proof.
  unfold byte_val. pose proof (Byte.to_N_bounded b) as H.
  split; [apply N2Z.is_nonneg|]. apply (N2Z.inj_le _ 255) in H. lia.
Qed.

Lemma byte_val_inj b1 b2 : byte_val b1 = byte_val b2 → b1 = b2.
Proof.
  unfold byte_val. intros H. apply N2Z.inj in H.
  apply (f_equal Byte.of_N) in H. rewrite !Byte.of_to_N in H. congruence.
Qed.

Lemma byte_sum_app a b : byte_sum (a ++ b) = byte_sum a + byte_sum b.
Proof. induction a as [|x a IH]; simpl; lia. Qed.

Lemma byte_sum_perm a b : a ≡ₚ b → byte_sum a = byte_sum b.
Proof. induction 1; simpl; lia. Qed.

Lemma from_bytes_big_snoc l x :
  from_bytes_big (l ++ [x]) = from_bytes_big l * 256 + byte_val x.
Proof. unfold from_bytes_big. by rewrite fold_left_app. Qed.

Lemma from_bytes_big_bounds l : 0 ≤ from_bytes_big l < 256 ^ Z.of_nat (length l).
Proof.
  induction l as [|x l IH] using rev_ind; [by vm_compute|].
  rewrite from_bytes_big_snoc, length_app. simpl length.
  replace (Z.of_nat (length l + 1)) with (Z.of_nat (length l) + 1) by lia.
  rewrite Z.pow_add_r by lia. pose proof (byte_val_bounds x). lia.
Qed.

Lemma from_bytes_big_inj l1 l2 :
  length l1 = length l2 → from_bytes_big l1 = from_bytes_big l2 → l1 = l2.
Proof.
  revert l2. induction l1 as [|x l1 IH] using rev_ind; intros l2 Hlen Heq.
  - destruct l2; [done|discriminate].
  - destruct l2 as [|y l2 _] using rev_ind.
    { rewrite length_app in Hlen. simpl in Hlen. lia. }
    rewrite !length_app in Hlen. simpl in Hlen.
    rewrite !from_bytes_big_snoc in Heq.
    pose proof (byte_val_bounds x). pose proof (byte_val_bounds y).
    assert (from_bytes_big l1 = from_bytes_big l2 ∧ byte_val x = byte_val y) as [H1 H2] by lia.
    rewrite (IH l2) by (done || lia). by rewrite (byte_val_inj x y H2).
Qed.

Lemma header_last_byte (raw : bytes) x :
  raw !! 11%nat = Some x →
  last_byte (take 12 raw) = byte_val x ∧
  from_bytes_big (take 4 (drop 8 raw)) `mod` 256 = byte_val x.
Proof.
  intros Hx. split.
  - unfold last_byte. rewrite (take_S_r raw 11 x Hx), last_snoc. done.
  - assert (H3 : drop 8 raw !! 3%nat = Some x) by by rewrite lookup_drop.
    rewrite (take_S_r _ 3 x H3), from_bytes_big_snoc.
    pose proof (byte_val_bounds x).
    rewrite Z.add_comm, Z_mod_plus_full. by apply Z.mod_small.
Qed.

Lemma header_byte_11 (raw : bytes) :
  (12 ≤ length raw)%nat → ∃ x, raw !! 11%nat = Some x.
Proof. intros H. apply lookup_lt_is_Some. lia. Qed.

(** X1: [validate_chunk_header] rejects a header shorter than twelve bytes; on
    a longer one it reads three fields below [2^32] and looks at the first
    twelve bytes only. *)
Theorem validate_chunk_header_fields header :
  ((length header < 12)%nat ∧
   validate_chunk_header header = (false, None, None, None)) ∨
  ((12 ≤ length header)%nat ∧
   ∃ a b c,
     validate_chunk_header header = (true, Some a, Some b, Some c) ∧
     (0 ≤ a < 2 ^ 32) ∧ (0 ≤ b < 2 ^ 32) ∧ (0 ≤ c < 2 ^ 32) ∧
     validate_chunk_header (take 12 header) = validate_chunk_header header).
Proof.
  unfold validate_chunk_header.
  destruct (Z.of_nat (length header) <? 12) eqn:Hlen.
  - left. apply Z.ltb_lt in Hlen. split; [lia|done].
  - right. apply Z.ltb_ge in Hlen. split; [lia|].
    eexists _, _, _. split; [done|].
    assert (Hb : ∀ l, length l = 4%nat → 0 ≤ from_bytes_big l < 2 ^ 32).
    { intros l Hl. pose proof (from_bytes_big_bounds l) as H. rewrite Hl in H.
      by vm_compute (256 ^ Z.of_nat 4) in H. }
    split_and!; try (apply Hb; rewrite length_take, ?length_drop; lia).
    rewrite length_take. rewrite (proj2 (Z.ltb_ge _ _)) by lia.
    change (drop 4 (take 12 header)) with (drop 4 (take (4 + 8) header)).
    change (drop 8 (take 12 header)) with (drop 8 (take (8 + 4) header)).
    rewrite <- !take_drop_commute, !take_take. done.
Qed.

(** X2: two twelve-byte headers that decode to the same fields are the same
    header. *)
Theorem validate_chunk_header_inj h1 h2 :
  length h1 = 12%nat → length h2 = 12%nat →
  validate_chunk_header h1 = validate_chunk_header h2 → h1 = h2.
Proof.
  intros H1 H2. unfold validate_chunk_header.
  rewrite H1, H2. simpl. intros [= Ha Hb Hc].
  apply from_bytes_big_inj in Ha; [|rewrite !length_take; lia].
  apply from_bytes_big_inj in Hb; [|rewrite !length_take, !length_drop; lia].
  apply from_bytes_big_inj in Hc; [|rewrite !length_take, !length_drop; lia].
  rewrite <- (take_drop 4 h1), <- (take_drop 4 h2), Ha. f_equal.
  rewrite <- (take_drop 4 (drop 4 h1)), <- (take_drop 4 (drop 4 h2)), Hb. f_equal.
  rewrite !drop_drop. simpl.
  rewrite <- (take_ge (drop 8 h1) 4), <- (take_ge (drop 8 h2) 4), Hc;
    [done|rewrite length_drop; lia..].
Qed.

Lemma validate_chunk_header_inj_witness :
  replicate 12 Byte.x00 = replicate 12 Byte.x00.
Proof.
  apply (validate_chunk_header_inj (replicate 12 Byte.x00) (replicate 12 Byte.x00));
    reflexivity.
Defined.

(** X3: the upload endpoint accepts a body exactly when it is at least twelve
    bytes long and the checksum field [validate_chunk_header] reads from it
    agrees, modulo 256, with [calculate_checksum] of the payload after the
    twelfth byte. *)
Theorem check_body_checksum_field raw s payload ck :
  outcome (check_body raw) s = Ok (payload, ck) ↔
  ∃ a b c,
    validate_chunk_header raw = (true, Some a, Some b, Some c) ∧
    payload = drop 12 raw ∧
    ck = calculate_checksum payload ∧
    c `mod` 256 = ck.
Proof.
  unfold outcome, check_body, validate_chunk_header, calculate_checksum.
  destruct (Z.of_nat (length raw) <? 12) eqn:Hlen.
  { split; [done|]. by intros (a & b & c & H & _). }
  apply Z.ltb_ge in Hlen.
  destruct (header_byte_11 raw) as [x Hx]; [lia|].
  destruct (header_last_byte raw x Hx) as [Hlast Hfield]. rewrite Hlast.
  destruct (byte_sum (drop 12 raw) `mod` 256 =? byte_val x) eqn:Hck; simpl.
  - apply Z.eqb_eq in Hck. split.
    + intros [= <- <-]. eexists _, _, _. split; [done|]. by rewrite Hfield.
    + intros (a & b & c & [= <- <- <-] & -> & -> & _). done.
  - apply Z.eqb_neq in Hck. split; [done|].
    intros (a & b & c & [= <- <- <-] & -> & -> & Hc). rewrite Hfield in Hc. done.
Qed.

(** X4: [calculate_checksum] is a byte value, and the checksum of a
    concatenation is the sum of the parts' checksums modulo 256. *)
Theorem calculate_checksum_concat a b :
  0 ≤ calculate_checksum a < 256 ∧
  calculate_checksum (a ++ b)
  = (calculate_checksum a + calculate_checksum b) `mod` 256.
Proof.
  unfold calculate_checksum. split.
  - by apply Z.mod_pos_bound.
  - rewrite byte_sum_app. apply Zplus_mod.
Qed.

(** X5: the checksum does not see the order of the bytes: payloads that are
    permutations of one another have the same checksum. *)
Theorem calculate_checksum_perm a b :
  a ≡ₚ b → calculate_checksum a = calculate_checksum b.
Proof. intros H. unfold calculate_checksum. by rewrite (byte_sum_perm a b H). Qed.

Lemma calculate_checksum_perm_witness :
  calculate_checksum [Byte.x01; Byte.x02] = calculate_checksum [Byte.x02; Byte.x01].
Proof. apply calculate_checksum_perm. apply Permutation_swap. Defined.

Lemma check_body_drop_11 (raw1 raw2 : bytes) :
  (12 ≤ length raw1)%nat → (12 ≤ length raw2)%nat →
  drop 11 raw1 = drop 11 raw2 →
  check_body raw1 = check_body raw2.
Proof.
  intros H1 H2 Hd. unfold check_body.
  rewrite !(proj2 (Z.ltb_ge _ _)) by lia.
  destruct (header_byte_11 raw1 H1) as [x1 Hx1].
  destruct (header_byte_11 raw2 H2) as [x2 Hx2].
  rewrite (proj1 (header_last_byte raw1 x1 Hx1)), (proj1 (header_last_byte raw2 x2 Hx2)).
  assert (Hdd : drop 12 raw1 = drop 12 raw2).
  { change 12%nat with (11 + 1)%nat. by rewrite <- !drop_drop, Hd. }
  assert (Hx : x1 = x2).
  { assert (drop 11 raw1 !! 0%nat = Some x1) as Ha by (rewrite lookup_drop; exact Hx1).
    assert (drop 11 raw2 !! 0%nat = Some x2) as Hb by (rewrite lookup_drop; exact Hx2).
    rewrite Hd in Ha. congruence. }
  by rewrite Hdd, Hx.
Qed.

(** X6: the first eleven bytes of an upload body, where the binary header keeps
    its start and end fields, are never looked at: two bodies of at least
    twelve bytes that agree from the twelfth byte on are handled alike. *)
Theorem upload_ignores_header_offsets now io fid cr (raw1 raw2 : bytes) s :
  (12 ≤ length raw1)%nat → (12 ≤ length raw2)%nat →
  drop 11 raw1 = drop 11 raw2 →
  upload_file_chunk now io fid cr raw1 s = upload_file_chunk now io fid cr raw2 s.
Proof.
  intros H1 H2 Hd. unfold upload_file_chunk.
  by rewrite (check_body_drop_11 raw1 raw2 H1 H2 Hd).
Qed.

Lemma upload_ignores_header_offsets_witness :
  upload_file_chunk 10 io_ok "f" (cr_bytes 0 1 None)
    (replicate 11 Byte.xff ++ [Byte.x03; Byte.x01; Byte.x02]) empty_store
  = upload_file_chunk 10 io_ok "f" (cr_bytes 0 1 None)
      (replicate 11 Byte.x00 ++ [Byte.x03; Byte.x01; Byte.x02]) empty_store.
Proof.
  apply upload_ignores_header_offsets; [simpl; lia|simpl; lia|reflexivity].
Defined.

(** ** [main.py]: range reads *)

Lemma file_iterator_loop_step f pos remaining :
  file_iterator_loop f pos remaining
  = if decide (remaining > 0)
    then match take (Z.to_nat (Z.min 4096 remaining)) (drop pos f) with
         | [] => []
         | b :: d => (b :: d) :: file_iterator_loop f (pos + length (b :: d))
                                   (remaining - Z.of_nat (length (b :: d)))
         end
    else [].
Proof.
  simp file_iterator_loop. destruct (decide (remaining > 0)); simpl; [|done].
  by destruct (take _ (drop pos f)).
Qed.

Lemma take_length_take {A} (l : list A) n : take (length (take n l)) l = take n l.
Proof.
  destruct (decide (n ≤ length l)%nat).
  - by rewrite length_take_le.
  - rewrite length_take, Nat.min_r by lia. by rewrite !take_ge by lia.
Qed.

Lemma file_iterator_loop_concat f pos remaining :
  concat (file_iterator_loop f pos remaining) = take (Z.to_nat remaining) (drop pos f).
Proof.
  remember (Z.to_nat remaining) as n eqn:Hn. revert pos remaining Hn.
  induction n as [n IH] using lt_wf_ind. intros pos remaining Hn.
  rewrite file_iterator_loop_step.
  destruct (decide (remaining > 0)) as [Hpos|Hneg].
  2:{ replace n with 0%nat by lia. done. }
  set (n0 := Z.to_nat (Z.min 4096 remaining)).
  set (d := drop pos f).
  destruct (take n0 d) as [|b blk] eqn:Hdata.
  { assert (d = []) as ->.
    { destruct d; [done|]. assert (n0 ≠ 0%nat) by (unfold n0; lia).
      destruct n0; [done|discriminate]. }
    by rewrite take_nil. }
  rewrite <- Hdata. set (len := length (take n0 d)).
  assert (Hlen : (1 ≤ len ≤ n0)%nat).
  { unfold len. rewrite Hdata. split; [simpl; lia|].
    rewrite <- Hdata, length_take. lia. }
  simpl concat.
  rewrite (IH (Z.to_nat (remaining - Z.of_nat len))) by (unfold n0 in *; lia).
  rewrite <- drop_drop. fold d.
  rewrite <- (take_length_take d n0). fold len.
  rewrite take_take_drop. f_equal. unfold n0 in *. lia.
Qed.

Lemma file_iterator_loop_blocks f pos remaining :
  Forall (λ blk, (0 < length blk ≤ 4096)%nat) (file_iterator_loop f pos remaining).
Proof.
  remember (Z.to_nat remaining) as n eqn:Hn. revert pos remaining Hn.
  induction n as [n IH] using lt_wf_ind. intros pos remaining Hn.
  rewrite file_iterator_loop_step.
  destruct (decide (remaining > 0)) as [Hpos|Hneg]; [|constructor].
  destruct (take _ (drop pos f)) as [|b blk] eqn:Hdata; [constructor|].
  assert (Hlen : (length (b :: blk) ≤ 4096)%nat).
  { rewrite <- Hdata, length_take. lia. }
  constructor; [simpl in *; lia|].
  eapply (IH (Z.to_nat (remaining - Z.of_nat (length (b :: blk))))); [|done].
  simpl. lia.
Qed.

Lemma file_iterator_loop_count f pos remaining :
  Z.of_nat pos + remaining ≤ Z.of_nat (length f) →
  Z.of_nat (length (file_iterator_loop f pos remaining))
  = Z.max 0 ((remaining + 4095) `div` 4096).
Proof.
  remember (Z.to_nat remaining) as n eqn:Hn. revert pos remaining Hn.
  induction n as [n IH] using lt_wf_ind. intros pos remaining Hn Hfit.
  rewrite file_iterator_loop_step.
  destruct (decide (remaining > 0)) as [Hpos|Hneg].
  2:{ simpl. assert ((remaining + 4095) `div` 4096 < 1); [|lia].
      apply Z.div_lt_upper_bound; lia. }
  set (n0 := Z.to_nat (Z.min 4096 remaining)).
  assert (Hfull : length (take n0 (drop pos f)) = n0).
  { rewrite length_take, length_drop. unfold n0. lia. }
  destruct (take n0 (drop pos f)) as [|b blk] eqn:Hdata.
  { simpl in Hfull. unfold n0 in Hfull. lia. }
  rewrite Hfull. simpl length.
  rewrite Nat2Z.inj_succ.
  rewrite (IH (Z.to_nat (remaining - Z.of_nat n0))); [|unfold n0; lia|done|unfold n0; lia].
  destruct (decide (remaining ≤ 4096)) as [Hsmall|Hbig].
  - replace (remaining - Z.of_nat n0) with 0 by (unfold n0; lia).
    replace ((0 + 4095) `div` 4096) with 0 by reflexivity.
    assert ((remaining + 4095) `div` 4096 = 1); [|lia].
    symmetry. apply (Z.div_unique _ _ 1 (remaining - 1)); lia.
  - replace (Z.of_nat n0) with 4096 by (unfold n0; lia).
    replace (remaining + 4095) with ((remaining - 4096 + 4095) + 1 * 4096) by lia.
    rewrite Z.div_add by lia.
    assert (0 ≤ (remaining - 4096 + 4095) `div` 4096); [|lia].
    apply Z.div_pos; lia.
Qed.

Lemma download_file_stream fid (a b : N) (f : bytes) s :
  UPLOAD_DIR s !! fid = Some f →
  Z.of_N a < Z.of_nat (length f) →
  Z.of_N b < Z.of_nat (length f) →
  ∃ r,
    download_file fid (rh_bytes a b) s = (Ok (dl_stream r), s) ∧
    sr_status_code r = 206 ∧
    sr_content_range r = (Z.of_N a, Z.of_N b, Z.of_nat (length f)) ∧
    sr_content_length r = Z.of_N b - Z.of_N a + 1 ∧
    concat (sr_blocks r)
    = take (Z.to_nat (Z.of_N b - Z.of_N a + 1)) (drop (N.to_nat a) f) ∧
    Z.of_nat (length (concat (sr_blocks r))) = Z.max 0 (Z.of_N b - Z.of_N a + 1) ∧
    (∀ i : nat, Z.of_nat i < Z.of_N b - Z.of_N a + 1 →
                concat (sr_blocks r) !! i = f !! (N.to_nat a + i)%nat) ∧
    Forall (λ blk, (0 < length blk ≤ 4096)%nat) (sr_blocks r) ∧
    Z.of_nat (length (sr_blocks r))
    = Z.max 0 ((Z.of_N b - Z.of_N a + 1 + 4095) `div` 4096).
Proof.
  intros Hf Ha Hb. unfold download_file, get_file, bind, get_store, ret.
  rewrite Hf. simpl.
  rewrite !Z.geb_leb, !(proj2 (Z.leb_gt _ _)) by lia. simpl. rewrite Hf. simpl.
  eexists. split; [reflexivity|]. simpl. unfold file_iterator.
  rewrite file_iterator_loop_concat.
  replace (Z.to_nat (Z.of_N a)) with (N.to_nat a) by lia.
  split_and!; try done.
  - rewrite length_take, length_drop. lia.
  - intros i Hi. rewrite lookup_take_lt by lia. apply lookup_drop.
  - apply file_iterator_loop_blocks.
  - apply file_iterator_loop_count. lia.
Qed.

(** X23: a range inside the artifact is answered with status 206 and exactly the
    requested bytes: the blocks of the body, none empty and none longer
    than 4096 bytes, concatenate to the bytes [start..end] of the artifact
    (to nothing when [end < start]), [Content-Length] is [end - start + 1],
    and the store is left as it was. *)
Theorem download_file_range fid (a b : N) (f : bytes) s :
  UPLOAD_DIR s !! fid = Some f →
  Z.of_N a < Z.of_nat (length f) →
  Z.of_N b < Z.of_nat (length f) →
  ∃ r,
    download_file fid (rh_bytes a b) s = (Ok (dl_stream r), s) ∧
    sr_status_code r = 206 ∧
    sr_content_range r = (Z.of_N a, Z.of_N b, Z.of_nat (length f)) ∧
    sr_content_length r = Z.of_N b - Z.of_N a + 1 ∧
    concat (sr_blocks r)
    = take (Z.to_nat (Z.of_N b - Z.of_N a + 1)) (drop (N.to_nat a) f) ∧
    Z.of_nat (length (concat (sr_blocks r))) = Z.max 0 (Z.of_N b - Z.of_N a + 1) ∧
    (∀ i : nat, Z.of_nat i < Z.of_N b - Z.of_N a + 1 →
                concat (sr_blocks r) !! i = f !! (N.to_nat a + i)%nat) ∧
    Forall (λ blk, (0 < length blk ≤ 4096)%nat) (sr_blocks r) ∧
    Z.of_nat (length (sr_blocks r))
    = Z.max 0 ((Z.of_N b - Z.of_N a + 1 + 4095) `div` 4096).
Proof. apply download_file_stream. Qed.

Lemma download_file_range_witness :
  ∃ r,
    download_file "f" (rh_bytes 1 2) short_store = (Ok (dl_stream r), short_store) ∧
    sr_status_code r = 206 ∧
    sr_content_range r = (Z.of_N 1, Z.of_N 2, Z.of_nat (length (zeros 4))) ∧
    sr_content_length r = Z.of_N 2 - Z.of_N 1 + 1 ∧
    concat (sr_blocks r)
    = take (Z.to_nat (Z.of_N 2 - Z.of_N 1 + 1)) (drop (N.to_nat 1) (zeros 4)) ∧
    Z.of_nat (length (concat (sr_blocks r))) = Z.max 0 (Z.of_N 2 - Z.of_N 1 + 1) ∧
    (∀ i : nat, Z.of_nat i < Z.of_N 2 - Z.of_N 1 + 1 →
                concat (sr_blocks r) !! i = zeros 4 !! (N.to_nat 1 + i)%nat) ∧
    Forall (λ blk, (0 < length blk ≤ 4096)%nat) (sr_blocks r) ∧
    Z.of_nat (length (sr_blocks r))
    = Z.max 0 ((Z.of_N 2 - Z.of_N 1 + 1 + 4095) `div` 4096).
Proof.
  apply (download_file_range "f" 1 2 (zeros 4) short_store).
  - reflexivity.
  - simpl. lia.
  - simpl. lia.
Defined.

(** X24: reading the range [[0, size - 1]] of a non-empty artifact returns the
    whole artifact. *)
Theorem download_file_whole fid (f : bytes) s :
  UPLOAD_DIR s !! fid = Some f →
  f ≠ [] →
  ∃ r,
    download_file fid (rh_bytes 0 (N.of_nat (length f - 1))) s = (Ok (dl_stream r), s) ∧
    concat (sr_blocks r) = f ∧
    sr_content_length r = Z.of_nat (length f).
Proof.
  intros Hf Hne.
  assert (Hlen : (0 < length f)%nat) by (destruct f; [done|simpl; lia]).
  destruct (download_file_stream fid 0 (N.of_nat (length f - 1)) f s Hf)
    as (r & Hr & _ & _ & Hcl & Hcat & _); [lia..|].
  exists r. split_and!; [done| |lia].
  rewrite Hcat. simpl. apply take_ge. lia.
Qed.

Lemma download_file_whole_witness :
  ∃ r,
    download_file "f" (rh_bytes 0 (N.of_nat (length (zeros 4) - 1))) short_store
    = (Ok (dl_stream r), short_store) ∧
    concat (sr_blocks r) = zeros 4 ∧
    sr_content_length r = Z.of_nat (length (zeros 4)).
Proof.
  apply (download_file_whole "f" (zeros 4) short_store).
  - reflexivity.
  - discriminate.
Defined.

(** X25: the failures of a download: an invalid [Range] header is answered 400
    before the artifact is looked up; a missing artifact raises
    [FileNotFoundError], with or without a range; a stored artifact is
    answered 416 as soon as the start or the end of the range is not below
    its size, which for an empty artifact is every range. *)
Theorem download_file_failures fid (a b : N) s :
  download_file fid rh_invalid s = (Raise (HTTPException 400 "Invalid Range header"), s) ∧
  (UPLOAD_DIR s !! fid = None →
     download_file fid rh_absent s = (Raise FileNotFoundError, s) ∧
     download_file fid (rh_bytes a b) s = (Raise FileNotFoundError, s)) ∧
  (∀ f : bytes,
     UPLOAD_DIR s !! fid = Some f →
     Z.of_nat (length f) ≤ Z.of_N a ∨ Z.of_nat (length f) ≤ Z.of_N b →
     download_file fid (rh_bytes a b) s
     = (Raise (HTTPException 416 "Requested range not satisfiable"), s)).
Proof.
  split_and!; [done| |].
  - intros Hf. unfold download_file, get_file, bind, get_store. by rewrite Hf.
  - intros f Hf Hout. unfold download_file, get_file, bind, get_store, ret.
    rewrite Hf. simpl. rewrite !Z.geb_leb.
    destruct Hout as [H|H]; rewrite (proj2 (Z.leb_le _ _) H); [done|].
    by rewrite orb_true_r.
Qed.

Lemma download_file_failures_witness :
  (download_file "g" rh_absent short_store = (Raise FileNotFoundError, short_store) ∧
   download_file "g" (rh_bytes 0 0) short_store = (Raise FileNotFoundError, short_store)) ∧
  download_file "f" (rh_bytes 0 4) short_store
  = (Raise (HTTPException 416 "Requested range not satisfiable"), short_store).
Proof.
  destruct (download_file_failures "g" 0 0 short_store) as (_ & Hmissing & _).
  destruct (download_file_failures "f" 0 4 short_store) as (_ & _ & Hrange).
  split.
  - apply Hmissing. reflexivity.
  - apply (Hrange (zeros 4)); [reflexivity|]. right. simpl. lia.
Defined.

(** X26: without a [Range] header the endpoint answers with the path of the
    artifact, not with its content; and no download, status or login
    request ever changes the store. *)
Theorem read_endpoints_leave_store fid range meta mk user s :
  run (download_file fid range) s = s ∧
  run (get_file fid meta) s = s ∧
  run (get_file_transfer_status fid) s = s ∧
  run (login_for_access_token mk user) s = s ∧
  (is_Some (UPLOAD_DIR s !! fid) →
   outcome (download_file fid rh_absent) s = Ok (dl_file (gf_path (upload_path fid)))).
Proof.
  assert (Hget : ∀ m, run (get_file fid m) s = s).
  { intros m. unfold run, get_file, bind, get_store.
    destruct (UPLOAD_DIR s !! fid); [by destruct m|done]. }
  split_and!.
  - unfold run, download_file. destruct range as [| |a b]; [| done |].
    + specialize (Hget false). unfold run in Hget. unfold bind.
      by destruct (get_file fid false s) as [[r|e] s'].
    + specialize (Hget true). unfold run in Hget. unfold bind at 1.
      destruct (get_file fid true s) as [[r|e] s']; simpl in *; [|done]. subst s'.
      destruct r as [p|p sz]; [done|].
      by destruct (_ || _).
  - apply Hget.
  - done.
  - unfold run, login_for_access_token.
    destruct (Dict.get _ USERS_DB); [|done]. by destruct (bool_decide _).
  - intros [f Hf]. unfold outcome, download_file, get_file, bind, get_store.
    by rewrite Hf.
Qed.

Lemma read_endpoints_leave_store_witness :
  outcome (download_file "f" rh_absent) short_store
  = Ok (dl_file (gf_path (upload_path "f"))).
Proof.
  destruct (read_endpoints_leave_store "f" rh_absent false (λ x, x)
              {| username := "device1"; password := "x" |} short_store)
    as (_ & _ & _ & _ & H).
  apply H. by eexists.
Defined.

(** ** [main.py]: login *)

(** X27: a token is issued exactly for the two configured pairs of user name and
    password, for the user name that was sent; every other request is
    answered 401. *)
Theorem login_only_configured_users mk user s :
  let known := (username user, password user)
               ∈ [("device1", "securepassword1"); ("device2", "securepassword2")]%string in
  (known → outcome (login_for_access_token mk user) s
           = Ok (mk (username user), "bearer"%string)) ∧
  (¬ known → outcome (login_for_access_token mk user) s
             = Raise (HTTPException 401 "Incorrect username or password")).
Proof.
  destruct user as [u p]. simpl. unfold outcome, login_for_access_token. simpl.
  destruct (decide ("device1"%string = u)) as [<-|Hu1].
  { simpl. destruct (decide ("securepassword1"%string = p)) as [<-|Hp].
    - split; [done|]. intros H. exfalso. apply H. left.
    - rewrite bool_decide_true by done. split; [|done].
      intros H.
      repeat (apply elem_of_cons in H as [Heq|H];
              [pose proof (f_equal fst Heq); pose proof (f_equal snd Heq);
               simpl in *; congruence|]).
      by apply elem_of_nil in H. }
  destruct (decide ("device2"%string = u)) as [<-|Hu2].
  { simpl. destruct (decide ("securepassword2"%string = p)) as [<-|Hp].
    - split; [done|]. intros H. exfalso. apply H. right. left.
    - rewrite bool_decide_true by done. split; [|done].
      intros H.
      repeat (apply elem_of_cons in H as [Heq|H];
              [pose proof (f_equal fst Heq); pose proof (f_equal snd Heq);
               simpl in *; congruence|]).
      by apply elem_of_nil in H. }
  split; [|done]. intros H.
      repeat (apply elem_of_cons in H as [Heq|H];
              [pose proof (f_equal fst Heq); pose proof (f_equal snd Heq);
               simpl in *; congruence|]).
      by apply elem_of_nil in H.
Qed.

Lemma login_only_configured_users_witness :
  outcome (login_for_access_token (λ sub, sub)
             {| username := "device1"; password := "securepassword1" |}) empty_store
  = Ok ("device1"%string, "bearer"%string) ∧
  outcome (login_for_access_token (λ sub, sub)
             {| username := "device1"; password := "securepassword2" |}) empty_store
  = Raise (HTTPException 401 "Incorrect username or password").
Proof.
  split.
  - apply (login_only_configured_users (λ sub, sub)
             {| username := "device1"; password := "securepassword1" |} empty_store).
    simpl. apply list_elem_of_here.
  - apply (login_only_configured_users (λ sub, sub)
             {| username := "device1"; password := "securepassword2" |} empty_store).
    simpl. intros H. apply elem_of_cons in H as [H|H]; [discriminate H|].
    apply elem_of_cons in H as [H|H]; [discriminate H|]. by apply elem_of_nil in H.
Defined.

(** ** [assemble_file]: every way it can end *)

Lemma present_prefix_present D cs : present D cs → present_prefix D cs = cs.
Proof.
  unfold present. induction 1 as [|c cs [d Hd] _ IH]; simpl; [done|].
  by rewrite Hd, IH.
Qed.

Lemma copy_fragments_cases out cs s acc :
  UPLOAD_DIR s !! out = Some acc →
  wp (copy_fragments out cs)
     (λ _ s', present (CHUNK_DIR s) cs ∧
              upload_tracker s' = upload_tracker s ∧
              CHUNK_DIR s' = CHUNK_DIR s ∧
              UPLOAD_DIR s' !! out = Some (acc ++ fragments_concat (CHUNK_DIR s) cs) ∧
              ∀ n, n ≠ out → UPLOAD_DIR s' !! n = UPLOAD_DIR s !! n)
     (λ e s', e = FileNotFoundError ∧
              ¬ present (CHUNK_DIR s) cs ∧
              upload_tracker s' = upload_tracker s ∧
              CHUNK_DIR s' = CHUNK_DIR s ∧
              UPLOAD_DIR s' !! out
              = Some (acc ++ fragments_concat (CHUNK_DIR s)
                               (present_prefix (CHUNK_DIR s) cs)) ∧
              ∀ n, n ≠ out → UPLOAD_DIR s' !! n = UPLOAD_DIR s !! n) s.
Proof.
  revert s acc. induction cs as [|c cs IH]; intros s acc Hacc.
  { unfold wp; simpl. split_and!; try done; [constructor|by rewrite app_nil_r]. }
  simpl. apply wp_bind. unfold wp at 1, read_fragment.
  destruct (CHUNK_DIR s !! c_path c) as [d|] eqn:Hd.
  - apply wp_bind. unfold wp at 1, append_file, modify.
    set (s1 := set_upload_dir _ s).
    assert (H1 : UPLOAD_DIR s1 !! out = Some (acc ++ d)).
    { subst s1. simpl. by rewrite Hacc, lookup_insert_eq. }
    assert (Hn1 : ∀ n, n ≠ out → UPLOAD_DIR s1 !! n = UPLOAD_DIR s !! n).
    { intros n Hn. subst s1. simpl. by rewrite lookup_insert_ne. }
    eapply wp_mono; [apply (IH s1 (acc ++ d) H1)| |].
    + intros _ s' (Hp & Ht & Hc & Hu & Hn). split_and!; [|done|done| |].
      * constructor; [by eexists|done].
      * rewrite Hu. unfold fragments_concat. simpl. by rewrite Hd, app_assoc.
      * intros n Hne. by rewrite Hn, Hn1.
    + intros e s' (He & Hp & Ht & Hc & Hu & Hn). split_and!; [done| |done|done| |].
      * intros Hall. apply Hp. by apply Forall_cons in Hall as [_ ?].
      * rewrite Hu. unfold fragments_concat. simpl. by rewrite Hd, app_assoc.
      * intros n Hne. by rewrite Hn, Hn1.
  - split_and!; try done.
    + intros Hall. apply Forall_cons in Hall as [[d Hd'] _]. congruence.
    + by rewrite app_nil_r.
Qed.

(** X12: [assemble_file] answers [True] exactly when the session exists, has a
    recorded total size that the raw chunk lengths reach, and every recorded
    fragment is on disk. *)
Theorem assemble_file_true_iff fid s :
  outcome (assemble_file fid) s = Ok true ↔
  ∃ info n,
    Dict.get fid (upload_tracker s) = Some info ∧
    fi_total_size info = Some n ∧
    n ≤ sum_lengths (chunks info) ∧
    present (CHUNK_DIR s) (chunks info).
Proof.
  split.
  - unfold outcome, assemble_file, bind at 1, get_store.
    destruct (Dict.get fid (upload_tracker s)) as [info|] eqn:Hget; [|done].
    destruct (fi_total_size info) as [n|] eqn:Htot; [|done].
    rewrite sum_lengths_sorted.
    destruct (sum_lengths (chunks info) <? n) eqn:Hsum; [done|].
    apply Z.ltb_ge in Hsum. intros Hout.
    exists info, n. split_and!; [done..|].
    unfold bind at 1, create_file, modify in Hout.
    set (s1 := set_upload_dir _ s) in Hout.
    pose proof (copy_fragments_cases fid (sorted_by_start (chunks info)) s1 []) as Hcopy.
    unfold wp in Hcopy. unfold bind at 1 in Hout.
    destruct (copy_fragments fid _ s1) as [[[]|e] s2]; [|done].
    destruct Hcopy as (Hp & _); [subst s1; simpl; apply lookup_insert_eq|].
    eapply present_perm; [apply sorted_by_start_perm|exact Hp].
  - intros (info & n & Hget & Htot & Hsum & Hp).
    destruct (wp_elim _ _ _ (assemble_file_spec fid info n s Hget Htot Hsum Hp))
      as (b & Hout & -> & _). done.
Qed.

(** X13: [assemble_file] declines without touching the store: it raises
    [ValueError] for an unknown session and answers [False] when no total
    size is recorded or the raw chunk lengths do not reach it. *)
Theorem assemble_file_declines fid s :
  (Dict.get fid (upload_tracker s) = None →
     assemble_file fid s = (Raise ValueError, s)) ∧
  (∀ info,
     Dict.get fid (upload_tracker s) = Some info →
     fi_total_size info = None ∨
     (∃ n, fi_total_size info = Some n ∧ sum_lengths (chunks info) < n) →
     assemble_file fid s = (Ok false, s)).
Proof.
  split.
  - intros Hget. unfold assemble_file, bind, get_store. by rewrite Hget.
  - intros info Hget Hwhy. unfold assemble_file, bind, get_store. rewrite Hget.
    destruct Hwhy as [->|(n & -> & Hlt)]; [done|].
    rewrite sum_lengths_sorted. by rewrite (proj2 (Z.ltb_lt _ _) Hlt).
Qed.

Lemma assemble_file_declines_witness :
  assemble_file "g" lone_store = (Raise ValueError, lone_store) ∧
  assemble_file "f" lone_store = (Ok false, lone_store) ∧
  assemble_file "f" sized_store = (Ok false, sized_store).
Proof.
  destruct (assemble_file_declines "g" lone_store) as [Hg _].
  destruct (assemble_file_declines "f" lone_store) as [_ Hf].
  destruct (assemble_file_declines "f" sized_store) as [_ Hs].
  split_and!.
  - apply Hg. reflexivity.
  - apply (Hf lone_info); [reflexivity|]. by left.
  - eapply Hs; [reflexivity|]. right. exists 100. split; [reflexivity|]. simpl. lia.
Defined.

Lemma assemble_file_missing fid info n s :
  Dict.get fid (upload_tracker s) = Some info →
  fi_total_size info = Some n →
  n ≤ sum_lengths (chunks info) →
  ¬ present (CHUNK_DIR s) (chunks info) →
  let s' := run (assemble_file fid) s in
  outcome (assemble_file fid) s = Raise FileNotFoundError ∧
  upload_tracker s' = upload_tracker s ∧
  CHUNK_DIR s' = CHUNK_DIR s ∧
  UPLOAD_DIR s' !! fid
  = Some (fragments_concat (CHUNK_DIR s)
            (present_prefix (CHUNK_DIR s) (sorted_by_start (chunks info)))) ∧
  ∀ k, k ≠ fid → UPLOAD_DIR s' !! k = UPLOAD_DIR s !! k.
Proof.
  intros Hget Htot Hsum Hmiss. simpl.
  assert (Hwp : wp (assemble_file fid) (λ _ _, False)
            (λ e s', e = FileNotFoundError ∧
                     upload_tracker s' = upload_tracker s ∧
                     CHUNK_DIR s' = CHUNK_DIR s ∧
                     UPLOAD_DIR s' !! fid
                     = Some (fragments_concat (CHUNK_DIR s)
                               (present_prefix (CHUNK_DIR s)
                                  (sorted_by_start (chunks info)))) ∧
                     ∀ k, k ≠ fid → UPLOAD_DIR s' !! k = UPLOAD_DIR s !! k) s).
  { unfold assemble_file. apply wp_bind. unfold wp at 1, get_store.
    rewrite Hget, Htot, sum_lengths_sorted, (proj2 (Z.ltb_ge _ _) Hsum).
    apply wp_bind. unfold wp at 1, create_file, modify.
    set (s1 := set_upload_dir _ s). apply wp_bind.
    eapply wp_mono;
      [apply (copy_fragments_cases fid _ s1 []); subst s1; simpl; apply lookup_insert_eq| |].
    - intros _ s2 (Hp & _). exfalso. apply Hmiss.
      eapply present_perm; [apply sorted_by_start_perm|exact Hp].
    - intros e s2 (-> & _ & Ht & Hc & Hu & Hn). subst s1. simpl in *.
      split_and!; [done..|].
      intros k Hk. rewrite Hn by done. by rewrite lookup_insert_ne. }
  unfold wp in Hwp. unfold outcome, run.
  destruct (assemble_file fid s) as [[b|e] s']; [done|].
  destruct Hwp as (-> & ? & ? & ? & ?). done.
Qed.

(** X14: when the raw lengths reach the recorded total but a recorded fragment
    is not on disk, [assemble_file] raises [FileNotFoundError]: the session
    keeps its status and its fragments, but the artifact has already been
    overwritten and holds only the fragments that come before the first
    missing one in start order. *)
Theorem assemble_file_missing_fragment fid info n s :
  Dict.get fid (upload_tracker s) = Some info →
  fi_total_size info = Some n →
  n ≤ sum_lengths (chunks info) →
  ¬ present (CHUNK_DIR s) (chunks info) →
  let s' := run (assemble_file fid) s in
  outcome (assemble_file fid) s = Raise FileNotFoundError ∧
  upload_tracker s' = upload_tracker s ∧
  CHUNK_DIR s' = CHUNK_DIR s ∧
  UPLOAD_DIR s' !! fid
  = Some (fragments_concat (CHUNK_DIR s)
            (present_prefix (CHUNK_DIR s) (sorted_by_start (chunks info)))) ∧
  ∀ k, k ≠ fid → UPLOAD_DIR s' !! k = UPLOAD_DIR s !! k.
Proof. apply assemble_file_missing. Qed.

Lemma assemble_file_missing_fragment_witness :
  let s' := run (assemble_file "f") short_store in
  outcome (assemble_file "f") short_store = Raise FileNotFoundError ∧
  upload_tracker s' = upload_tracker short_store ∧
  CHUNK_DIR s' = CHUNK_DIR short_store ∧
  UPLOAD_DIR s' !! "f"%string
  = Some (fragments_concat (CHUNK_DIR short_store)
            (present_prefix (CHUNK_DIR short_store) (sorted_by_start (chunks short_info)))) ∧
  ∀ k, k ≠ "f"%string → UPLOAD_DIR s' !! k = UPLOAD_DIR short_store !! k.
Proof.
  apply (assemble_file_missing_fragment "f" short_info 4 short_store).
  - reflexivity.
  - reflexivity.
  - simpl. lia.
  - apply (proj1 (bool_decide_eq_false _)). by vm_compute.
Defined.

(** ** What an upload can raise *)

Lemma assemble_file_raises fid s :
  wp (assemble_file fid) (λ _ _, True)
     (λ e _, (e = ValueError ∧ Dict.get fid (upload_tracker s) = None) ∨
             e = FileNotFoundError) s.
Proof.
  unfold assemble_file. apply wp_bind. unfold wp at 1, get_store.
  destruct (Dict.get fid (upload_tracker s)) as [info|] eqn:Hget; [|by left].
  destruct (fi_total_size info) as [n|]; [|done].
  destruct (_ <? n); [done|].
  apply wp_bind. unfold wp at 1, create_file, modify.
  set (s1 := set_upload_dir _ s). apply wp_bind.
  eapply wp_mono;
    [apply (copy_fragments_cases fid _ s1 []); subst s1; simpl; apply lookup_insert_eq| |].
  - intros _ s2 _. apply wp_bind.
    eapply wp_mono; [apply remove_fragments_spec| |done].
    intros _ s3 _. done.
  - intros e s2 (-> & _). by right.
Qed.

Lemma save_chunk_raises now io chunk s e :
  outcome (save_chunk now io chunk) s = Raise e →
  (io ≠ io_ok ∧ e = OSError) ∨ (io = io_ok ∧ e = FileNotFoundError).
Proof.
  destruct io as [| |k].
  2,3: unfold outcome, save_chunk; cbv [bind write_fragment raise modify]; simpl;
       intros [= <-]; left; by split.
  intros Hout. right. split; [done|].
  assert (Hwp : wp (save_chunk now io_ok chunk) (λ _ _, True)
                  (λ e' _, e' = FileNotFoundError) s).
  { unfold save_chunk, write_fragment.
    apply wp_bind. unfold wp at 1, modify. apply wp_bind. unfold wp at 1.
    set (s1 := set_tracker _ _).
    destruct (total_size chunk) as [m|]; [|done].
    apply wp_bind. unfold wp at 1, get_store.
    destruct (_ >=? m); [|done].
    apply wp_bind.
    eapply wp_mono; [apply assemble_file_raises|done|].
    intros e' _ [[_ Hnone]|He]; [|done].
    exfalso. subst s1. simpl in Hnone.
    rewrite get_register_chunk_eq in Hnone. done. }
  unfold wp in Hwp. unfold outcome in Hout.
  destruct (save_chunk now io_ok chunk s) as [[[]|e'] s']; simpl in *; congruence.
Qed.

Lemma check_body_cases raw s :
  (∃ ck, check_body raw s = (Ok (drop 12 raw, ck), s)) ∨
  (∃ detail, check_body raw s = (Raise (HTTPException 400 detail), s)).
Proof.
  unfold check_body. destruct (_ <? 12); [right; by eexists|].
  destruct (negb _); [right; by eexists|]. left. by eexists.
Qed.

(** X7: an upload that fails validation (missing or malformed [Content-Range],
    body shorter than the header, checksum mismatch, unreadable total) is
    answered without any change to the store; the only other ways an upload
    can fail are [OSError] from the fragment write and [FileNotFoundError]
    from the assembly it triggers. *)
Theorem upload_file_chunk_failures now io fid cr raw s e :
  outcome (upload_file_chunk now io fid cr raw) s = Raise e →
  (run (upload_file_chunk now io fid cr raw) s = s ∧
   (e = ValueError ∨ ∃ detail, e = HTTPException 400 detail)) ∨
  (e = OSError ∧ io ≠ io_ok) ∨
  (e = FileNotFoundError ∧ io = io_ok).
Proof.
  unfold outcome, run, upload_file_chunk.
  destruct cr as [| |start_b end_b total|start_b end_b].
  - intros [= <-]. left. split; [done|]. right. by eexists.
  - intros [= <-]. left. split; [done|]. right. by eexists.
  - unfold bind.
    destruct (check_body_cases raw s) as [[ck He]|[detail He]]; rewrite He; simpl.
    + set (chunk := {| file_id := fid; start_byte := start_b; end_byte := end_b;
                       data := drop 12 raw; checksum := ck; total_size := total |}).
      pose proof (save_chunk_raises now io chunk s e) as Hsave.
      unfold outcome in Hsave.
      destruct (save_chunk now io chunk s) as [[[]|e'] s']; [done|].
      simpl in *. intros [= ->].
      destruct (Hsave eq_refl) as [[? ->]|[? ->]]; tauto.
    + intros [= <-]. left. split; [done|]. right. by eexists.
  - unfold bind.
    destruct (check_body_cases raw s) as [[ck He]|[detail He]]; rewrite He; simpl.
    + intros [= <-]. left. split; [done|]. by left.
    + intros [= <-]. left. split; [done|]. right. by eexists.
Qed.

Lemma upload_file_chunk_failures_witness :
  (run (upload_file_chunk 10 io_ok "f" (cr_bytes 0 0 None) (zeros 12 ++ [Byte.x01]))
     lone_store = lone_store ∧
   (HTTPException 400 "Checksum verification failed" = ValueError ∨
    ∃ detail, HTTPException 400 "Checksum verification failed"
              = HTTPException 400 detail)) ∨
  (HTTPException 400 "Checksum verification failed" = OSError ∧ io_ok ≠ io_ok) ∨
  (HTTPException 400 "Checksum verification failed" = FileNotFoundError ∧ io_ok = io_ok).
Proof.
  apply (upload_file_chunk_failures 10 io_ok "f" (cr_bytes 0 0 None)
           (zeros 12 ++ [Byte.x01]) lone_store).
  reflexivity.
Defined.

(** ** Invariants of the reachable stores *)

Lemma wp_and {A} (m : M A) Q1 Q2 Qe1 Qe2 s :
  wp m Q1 Qe1 s → wp m Q2 Qe2 s →
  wp m (λ a s', Q1 a s' ∧ Q2 a s') (λ e s', Qe1 e s' ∧ Qe2 e s') s.
Proof. unfold wp. by destruct (m s) as [[a|e] s']. Qed.

Lemma alter_alter {V} (f g : V → V) k (d : list (string * V)) :
  Dict.alter f k (Dict.alter g k d) = Dict.alter (f ∘ g) k d.
Proof.
  induction d as [|[k' v] d IH]; [done|]. cbn [Dict.alter].
  destruct (decide (k' = k)) as [->|Hne]; cbn [Dict.alter].
  - by rewrite decide_True.
  - by rewrite decide_False, IH.
Qed.

Lemma alter_app_absent {V} (f : V → V) k v (d : list (string * V)) :
  Dict.get k d = None → Dict.alter f k (d ++ [(k, v)]) = d ++ [(k, f v)].
Proof.
  induction d as [|[k' v'] d IH]; simpl.
  - intros _. by rewrite decide_True.
  - destruct (decide (k' = k)); [done|]. intros H. by rewrite IH.
Qed.

Lemma register_chunk_shape chunk ts t :
  register_chunk chunk ts t
  = match Dict.get (file_id chunk) t with
    | Some _ =>
        Dict.alter (set_last_updated ts ∘ append_chunk (new_rec chunk ts)) (file_id chunk) t
    | None =>
        t ++ [(file_id chunk,
               set_last_updated ts (append_chunk (new_rec chunk ts) (new_info chunk ts)))]
    end.
Proof.
  unfold register_chunk, Dict.mem.
  destruct (Dict.get (file_id chunk) t) eqn:Hg.
  - apply alter_alter.
  - rewrite set_absent by done. rewrite alter_alter.
    by rewrite alter_app_absent.
Qed.

Lemma register_chunk_Forall (P : string * file_info → Prop) chunk ts t :
  (∀ v, P (file_id chunk, v) →
        P (file_id chunk, set_last_updated ts (append_chunk (new_rec chunk ts) v))) →
  P (file_id chunk, set_last_updated ts (append_chunk (new_rec chunk ts) (new_info chunk ts))) →
  Forall P t → Forall P (register_chunk chunk ts t).
Proof.
  intros Hold Hnew Ht. rewrite register_chunk_shape.
  destruct (Dict.get (file_id chunk) t).
  - by apply alter_Forall.
  - apply Forall_app. split; [done|]. by constructor.
Qed.

(** Artifacts are only ever created or overwritten, never removed. *)
Lemma uploads_grow_copy (U : gmap string bytes) out cs :
  preserves (λ s, ∀ k, is_Some (U !! k) → is_Some (UPLOAD_DIR s !! k))
            (copy_fragments out cs).
Proof.
  apply preserves_copy_fragments. intros d. apply preserves_modify.
  intros s H k Hk. simpl. destruct (decide (out = k)) as [->|Hne].
  - rewrite lookup_insert_eq. by eexists.
  - rewrite lookup_insert_ne by done. by apply H.
Qed.

Lemma uploads_grow_remove (U : gmap string bytes) cs :
  preserves (λ s, ∀ k, is_Some (U !! k) → is_Some (UPLOAD_DIR s !! k))
            (remove_fragments cs).
Proof. apply preserves_remove_fragments. intros c _. by apply preserves_modify. Qed.

Lemma uploads_grow_create (U : gmap string bytes) out :
  preserves (λ s, ∀ k, is_Some (U !! k) → is_Some (UPLOAD_DIR s !! k))
            (create_file out).
Proof.
  apply preserves_modify. intros s H k Hk. simpl.
  destruct (decide (out = k)) as [->|Hne].
  - rewrite lookup_insert_eq. by eexists.
  - rewrite lookup_insert_ne by done. by apply H.
Qed.

Lemma assemble_file_effect fid s :
  wp (assemble_file fid)
     (λ b s', (∀ k, is_Some (UPLOAD_DIR s !! k) → is_Some (UPLOAD_DIR s' !! k)) ∧
              if b then
                ∃ info n,
                  Dict.get fid (upload_tracker s) = Some info ∧
                  fi_total_size info = Some n ∧
                  upload_tracker s'
                  = Dict.alter (set_status "complete") fid (upload_tracker s) ∧
                  is_Some (UPLOAD_DIR s' !! fid)
              else s' = s)
     (λ _ s', (∀ k, is_Some (UPLOAD_DIR s !! k) → is_Some (UPLOAD_DIR s' !! k)) ∧
              upload_tracker s' = upload_tracker s) s.
Proof.
  unfold assemble_file. apply wp_bind. unfold wp at 1, get_store.
  destruct (Dict.get fid (upload_tracker s)) as [info|] eqn:Hget; [|done].
  destruct (fi_total_size info) as [n|] eqn:Htot; [|done].
  destruct (_ <? n); [done|].
  apply wp_bind. unfold wp at 1, create_file, modify.
  set (s1 := set_upload_dir _ s).
  assert (Hg1 : ∀ k, is_Some (UPLOAD_DIR s !! k) → is_Some (UPLOAD_DIR s1 !! k)).
  { apply (uploads_grow_create (UPLOAD_DIR s) fid s). auto. }
  apply wp_bind.
  eapply wp_mono;
    [apply wp_and;
       [apply (copy_fragments_cases fid _ s1 []); subst s1; simpl; apply lookup_insert_eq
       |apply (wp_preserves _ _ s1 (uploads_grow_copy (UPLOAD_DIR s) fid _) Hg1)]| |].
  - intros [] s2 [(_ & Ht2 & _ & Hu2 & _) Hg2]. apply wp_bind.
    eapply wp_mono; [apply remove_fragments_spec| |done].
    intros [] s3 (Ht3 & Hu3 & _). apply wp_bind.
    unfold wp, modify, ret. simpl. rewrite Hu3. split; [done|].
    exists info, n. split_and!; [done|done| |by eexists].
    by rewrite Ht3, Ht2.
  - intros e s2 [(_ & _ & Ht2 & _) Hg2]. done.
Qed.

Lemma light_inv_mono s s' :
  upload_tracker s' `sublist_of` upload_tracker s →
  (∀ k, is_Some (UPLOAD_DIR s !! k) → is_Some (UPLOAD_DIR s' !! k)) →
  sessions_nonempty s ∧ complete_sized s ∧ complete_stored s →
  sessions_nonempty s' ∧ complete_sized s' ∧ complete_stored s'.
Proof.
  unfold sessions_nonempty, complete_sized, complete_stored.
  intros Hsub Hgrow (H3 & H4 & H5). rewrite !Forall_forall in *.
  split_and!; intros x Hx; pose proof (elem_of_sublist _ _ _ Hx Hsub) as Hx'.
  - by apply H3.
  - by apply H4.
  - intros Hc. by apply Hgrow, H5.
Qed.

Lemma has_chunks_append r v : has_chunks (append_chunk r v) = true.
Proof. unfold has_chunks. simpl. by destruct (chunks v). Qed.

Lemma light_inv_register chunk ts D s :
  sessions_nonempty s ∧ complete_sized s ∧ complete_stored s →
  let s1 := set_tracker (register_chunk chunk ts (upload_tracker s)) (set_chunk_dir D s) in
  sessions_nonempty s1 ∧ complete_sized s1 ∧ complete_stored s1.
Proof.
  unfold sessions_nonempty, complete_sized, complete_stored. simpl.
  intros (H3 & H4 & H5). split_and!; apply register_chunk_Forall; try done;
    intros; exact (has_chunks_append _ _).
Qed.

Lemma light_inv_assemble fid s :
  tracker_wf (upload_tracker s) →
  sessions_nonempty s ∧ complete_sized s ∧ complete_stored s →
  let s' := run (assemble_file fid) s in
  sessions_nonempty s' ∧ complete_sized s' ∧ complete_stored s'.
Proof.
  intros [Hnd _] Hinv. simpl.
  apply (wp_run (assemble_file fid)
           (λ s', sessions_nonempty s' ∧ complete_sized s' ∧ complete_stored s')).
  eapply wp_mono; [apply assemble_file_effect| |].
  - intros [|] s' [Hgrow Hb]; [|by subst s'].
    destruct Hb as (info & n & Hget & Htot & Ht & Hart).
    destruct Hinv as (H3 & H4 & H5).
    unfold sessions_nonempty, complete_sized, complete_stored in *.
    rewrite Ht. split_and!.
    + by apply alter_Forall.
    + apply alter_Forall_key; [done| |].
      * intros v Hv _. simpl.
        rewrite (elem_of_get_NoDup _ _ _ Hnd Hv) in Hget. injection Hget as ->.
        rewrite Htot. by eexists.
      * intros kv Hkv _. rewrite Forall_forall in H4. by apply H4.
    + apply alter_Forall_key; [done| |].
      * intros v _ _. done.
      * intros kv Hkv _ Hc. rewrite Forall_forall in H5. by apply Hgrow, H5.
  - intros e s' [Hgrow Ht]. apply (light_inv_mono s s'); [by rewrite Ht|done|done].
Qed.

Lemma light_inv_save_chunk now io chunk s :
  tracker_wf (upload_tracker s) →
  sessions_nonempty s ∧ complete_sized s ∧ complete_stored s →
  let s' := run (save_chunk now io chunk) s in
  sessions_nonempty s' ∧ complete_sized s' ∧ complete_stored s'.
Proof.
  intros Hwf Hinv. simpl. destruct io as [| |k].
  - apply (wp_run (save_chunk now io_ok chunk)
             (λ s', sessions_nonempty s' ∧ complete_sized s' ∧ complete_stored s')).
    unfold save_chunk, write_fragment.
    apply wp_bind. unfold wp at 1, modify. apply wp_bind. unfold wp at 1.
    set (s1 := set_tracker _ _).
    assert (H1 : sessions_nonempty s1 ∧ complete_sized s1 ∧ complete_stored s1)
      by exact (light_inv_register chunk now _ s Hinv).
    assert (Hwf1 : tracker_wf (upload_tracker s1))
      by exact (tracker_wf_register chunk now (upload_tracker s) Hwf).
    destruct (total_size chunk) as [m|]; [|done].
    apply wp_bind. unfold wp at 1, get_store.
    destruct (_ >=? m); [|done].
    apply wp_bind.
    pose proof (light_inv_assemble (file_id chunk) s1 Hwf1 H1) as Ha. simpl in Ha.
    apply (wp_run (assemble_file (file_id chunk))
             (λ s', sessions_nonempty s' ∧ complete_sized s' ∧ complete_stored s')) in Ha.
    eapply wp_mono; [exact Ha| |done]. by intros b s2 H.
  - done.
  - done.
Qed.

Lemma reclaim_keeps_present T0 g gi :
  tracker_wf T0 → (g, gi) ∈ T0 →
  preserves (λ s, upload_tracker s `sublist_of` T0 ∧ fragments_present s)
            (remove_fragments (chunks gi) >> del_session g).
Proof.
  intros [Hnd Hown] Hin s [Hsub Hp].
  apply (wp_run (remove_fragments (chunks gi) >> del_session g)
           (λ s', upload_tracker s' `sublist_of` T0 ∧ fragments_present s')).
  apply wp_bind. eapply wp_mono; [apply remove_fragments_spec| |done].
  intros [] s2 (Ht2 & _ & _ & Hout & _). unfold wp, del_session, modify. simpl.
  rewrite Ht2. split.
  - etrans; [apply sublist_filter|done].
  - unfold fragments_present in *. simpl. rewrite Forall_forall in Hp, Hown.
    apply Forall_forall. intros [k v] Hkv Hc.
    apply elem_of_del in Hkv as [Hne Hkv]. simpl in *.
    specialize (Hp (k, v) Hkv Hc). unfold present in *. simpl in Hp.
    rewrite Forall_forall in Hp. apply Forall_forall. intros c Hcin.
    rewrite Hout; [by apply Hp|].
    intros c' Hc' Heq.
    pose proof (owned_path g gi c' (Hown (g, gi) Hin) Hc') as Hg.
    pose proof (owned_path k v c
                  (Hown (k, v) (elem_of_sublist _ _ _ Hkv Hsub)) Hcin) as Hk.
    rewrite Heq in Hg. congruence.
Qed.

Lemma present_inv_cleanup_one T0 threshold g gi :
  tracker_wf T0 → (g, gi) ∈ T0 →
  preserves (λ s, upload_tracker s `sublist_of` T0 ∧ fragments_present s)
            (cleanup_one threshold (g, gi)).
Proof.
  intros Hwf Hin. unfold cleanup_one.
  destruct (is_complete gi); [apply preserves_ret|].
  destruct (stale_scan threshold (chunks gi)); [|apply preserves_ret].
  by apply reclaim_keeps_present.
Qed.

Lemma present_inv_persist_one fs T0 threshold g gi :
  tracker_wf T0 → (g, gi) ∈ T0 →
  preserves (λ s, upload_tracker s `sublist_of` T0 ∧ fragments_present s)
            (persist_one fs threshold (g, gi)).
Proof.
  intros Hwf Hin. unfold persist_one.
  destruct (is_complete gi); [apply preserves_ret|].
  destruct (_ && _); [|apply preserves_ret].
  apply preserves_bind; [by apply preserves_open_output, preserves_modify|]. intros _.
  apply preserves_bind.
  { apply preserves_copy_fragments. intros d. by apply preserves_modify. }
  intros _. by apply reclaim_keeps_present.
Qed.

Lemma uploads_grow_persist_one fs (U : gmap string bytes) threshold x :
  preserves (λ s, ∀ k, is_Some (U !! k) → is_Some (UPLOAD_DIR s !! k))
            (persist_one fs threshold x).
Proof.
  destruct x as [g gi]. unfold persist_one.
  destruct (is_complete gi); [apply preserves_ret|].
  destruct (_ && _); [|apply preserves_ret].
  apply preserves_bind; [apply preserves_open_output, uploads_grow_create|]. intros _.
  apply preserves_bind; [apply uploads_grow_copy|]. intros _.
  apply preserves_bind; [apply uploads_grow_remove|]. intros _.
  by apply preserves_modify.
Qed.

Lemma store_inv_cleanup now s :
  store_inv s → store_inv (run (cleanup_stale_chunks now) s).
Proof.
  intros (Hwf & Hp & Hlight).
  assert (Hsp : upload_tracker (run (cleanup_stale_chunks now) s)
                  `sublist_of` upload_tracker s ∧
                fragments_present (run (cleanup_stale_chunks now) s)).
  { unfold run, cleanup_stale_chunks, bind, get_store.
    apply (preserves_for_each
             (λ s', upload_tracker s' `sublist_of` upload_tracker s ∧ fragments_present s'));
      [|done].
    intros [g gi] Hin. by apply present_inv_cleanup_one. }
  destruct Hsp as [Hsub Hp'].
  split; [by eapply tracker_wf_sublist|]. split; [done|].
  apply (light_inv_mono s); [done| |done].
  intros k Hk. by rewrite cleanup_keeps_upload_dir.
Qed.

Lemma store_inv_persist fs now s :
  store_inv s → store_inv (run (persist_incomplete_files fs now) s).
Proof.
  intros (Hwf & Hp & Hlight).
  assert (Hsp : upload_tracker (run (persist_incomplete_files fs now) s)
                  `sublist_of` upload_tracker s ∧
                fragments_present (run (persist_incomplete_files fs now) s)).
  { unfold run, persist_incomplete_files, bind, get_store.
    apply (preserves_for_each
             (λ s', upload_tracker s' `sublist_of` upload_tracker s ∧ fragments_present s'));
      [|done].
    intros [g gi] Hin. by apply present_inv_persist_one. }
  destruct Hsp as [Hsub Hp'].
  split; [by eapply tracker_wf_sublist|]. split; [done|].
  apply (light_inv_mono s); [done| |done].
  unfold run, persist_incomplete_files, bind, get_store.
  apply (preserves_for_each
           (λ s', ∀ k, is_Some (UPLOAD_DIR s !! k) → is_Some (UPLOAD_DIR s' !! k)));
    [|done].
  intros x _. apply uploads_grow_persist_one.
Qed.

Lemma upload_run_cases now io fid cr raw s :
  run (upload_file_chunk now io fid cr raw) s = s ∨
  ∃ chunk, file_id chunk = fid ∧
           run (upload_file_chunk now io fid cr raw) s = run (save_chunk now io chunk) s.
Proof.
  unfold run, upload_file_chunk.
  destruct cr as [| |start_b end_b total|start_b end_b]; [by left|by left| |].
  - unfold bind.
    destruct (check_body_cases raw s) as [[ck He]|[detail He]]; rewrite He; [|by left].
    right. simpl.
    exists {| file_id := fid; start_byte := start_b; end_byte := end_b;
              data := drop 12 raw; checksum := ck; total_size := total |}.
    split; [done|].
    by destruct (save_chunk _ _ _ s) as [[[]|e] s'].
  - left. unfold bind.
    by destruct (check_body_cases raw s) as [[ck He]|[detail He]]; rewrite He.
Qed.

Lemma store_inv_empty : store_inv empty_store.
Proof.
  split; [apply tracker_wf_empty|]. split; [constructor|].
  split; [constructor|]. split; constructor.
Qed.

Lemma store_inv_step s s' : step s s' → store_inv s → store_inv s'.
Proof.
  intros Hstep Hinv. destruct Hstep as [now io fid cr raw s|now s|fs now s].
  - destruct (upload_run_cases now io fid cr raw s) as [->|(chunk & _ & ->)]; [done|].
    destruct Hinv as (Hwf & Hp & Hlight).
    split; [by apply tracker_wf_save_chunk|].
    split; [by apply fragments_present_save_chunk|].
    by apply light_inv_save_chunk.
  - by apply store_inv_cleanup.
  - by apply store_inv_persist.
Qed.

Lemma reachable_store_inv s : reachable s → store_inv s.
Proof.
  unfold reachable. revert s. apply rtc_ind_r; [apply store_inv_empty|].
  intros s1 s2 _ Hstep IH. by apply (store_inv_step s1 s2).
Qed.

Lemma reachable_step s s' : reachable s → step s s' → reachable s'.
Proof. unfold reachable. intros H Hs. by eapply rtc_r. Qed.

Lemma reachable_bind (m k : M unit) s :
  (∀ s0, reachable s0 → reachable (run m s0)) →
  (∀ s0, reachable s0 → reachable (run k s0)) →
  reachable s → reachable (run (m >> k) s).
Proof.
  intros Hm Hk Hs. specialize (Hm s Hs). unfold run, bind in *.
  destruct (m s) as [[[]|e] s1]; simpl in *; [by apply Hk|done].
Qed.

(** Both sweeps lead from reachable stores to reachable stores. *)
Lemma reachable_sweeps fs now1 now2 s :
  reachable s →
  reachable (run (periodic_cleanup_round fs now1 now2) s) ∧
  reachable (run (trigger_cleanup fs now1 now2) s).
Proof.
  intros Hs. split; apply reachable_bind; try done; intros s0 H0;
    eapply reachable_step; try exact H0; constructor.
Qed.

Lemma reachable_lone_store : reachable lone_store.
Proof.
  eapply reachable_step; [apply rtc_refl|]. unfold lone_store, ingest. constructor.
Qed.

(** X15: in every store the service can reach, the tracker has one record per
    session id, every recorded fragment is named after its session, and
    every session that is not complete has all its recorded fragments on
    disk. *)
Theorem reachable_well_formed s :
  reachable s → tracker_wf (upload_tracker s) ∧ fragments_present s.
Proof. intros H. apply reachable_store_inv in H as (? & ? & _). done. Qed.

Lemma reachable_well_formed_witness :
  tracker_wf (upload_tracker lone_store) ∧ fragments_present lone_store.
Proof. apply reachable_well_formed. apply reachable_lone_store. Defined.

(** X16: a status report never says ["pending"]: a tracked session always holds
    at least one chunk, so the report is ["not_found"], ["partial"] or
    ["complete"]. *)
Theorem status_never_pending fid s :
  reachable s →
  si_status (get_file_status fid s) ≠ "pending"%string ∧
  (si_status (get_file_status fid s) = "not_found"%string ↔
   Dict.get fid (upload_tracker s) = None).
Proof.
  intros H. apply reachable_store_inv in H as (_ & _ & Hne & _).
  unfold get_file_status.
  destruct (Dict.get fid (upload_tracker s)) as [info|] eqn:Hget; [|done].
  unfold sessions_nonempty in Hne. rewrite Forall_forall in Hne.
  specialize (Hne (fid, info) (get_Some_elem_of _ _ _ Hget)). simpl in *.
  unfold has_chunks in Hne.
  destruct (is_complete info), (chunks info); try done.
Qed.

Lemma status_never_pending_witness :
  si_status (get_file_status "f" lone_store) ≠ "pending"%string ∧
  (si_status (get_file_status "f" lone_store) = "not_found"%string ↔
   Dict.get "f" (upload_tracker lone_store) = None).
Proof. apply status_never_pending. apply reachable_lone_store. Defined.

(** X17: a session reported complete has a recorded total size and an
    artifact on disk: [get_file] succeeds for it. *)
Theorem complete_has_total_and_artifact fid s :
  reachable s →
  si_status (get_file_status fid s) = "complete"%string →
  is_Some (total_bytes (get_file_status fid s)) ∧
  outcome (get_file fid false) s = Ok (gf_path (upload_path fid)).
Proof.
  intros H. apply reachable_store_inv in H as (_ & _ & _ & Hsz & Hst).
  unfold get_file_status, outcome, get_file, bind, get_store.
  destruct (Dict.get fid (upload_tracker s)) as [info|] eqn:Hget; [|done].
  simpl. destruct (is_complete info) eqn:Hc.
  2:{ by destruct (chunks info). }
  intros _.
  unfold complete_sized, complete_stored in *. rewrite Forall_forall in Hsz, Hst.
  pose proof (Hsz (fid, info) (get_Some_elem_of _ _ _ Hget) Hc) as H1.
  pose proof (Hst (fid, info) (get_Some_elem_of _ _ _ Hget) Hc) as [f Hf].
  simpl in *. by rewrite Hf.
Qed.

Lemma reachable_short_store : reachable short_store.
Proof.
  eapply reachable_step; [eapply reachable_step; [apply rtc_refl|]|];
    unfold short_store, ingest; constructor.
Qed.

Lemma complete_has_total_and_artifact_witness :
  is_Some (total_bytes (get_file_status "f" short_store)) ∧
  outcome (get_file "f" false) short_store = Ok (gf_path (upload_path "f")).
Proof.
  apply complete_has_total_and_artifact; [apply reachable_short_store|reflexivity].
Defined.

(** X19: on a reachable store the passes always find the fragments they
    read, so the only failure of a sweep is the [OSError] of a refused
    artifact name: the cleanup pass never raises; the persist pass returns
    normally when the file system accepts the artifact name of every
    session it acts on and raises [OSError] otherwise; the on-demand sweep
    ends as its persist task does, the periodic round as its persist step
    does on the store the cleanup step left. *)
Theorem sweeps_raise_only_OSError fs now1 now2 s :
  reachable s →
  outcome (cleanup_stale_chunks now1) s = Ok tt ∧
  outcome (persist_incomplete_files fs now1) s
  = (if names_accepted fs (now1 - STALE_THRESHOLD) (upload_tracker s)
     then Ok tt else Raise OSError) ∧
  outcome (trigger_cleanup fs now1 now2) s
  = (if names_accepted fs (now1 - STALE_THRESHOLD) (upload_tracker s)
     then Ok tt else Raise OSError) ∧
  outcome (periodic_cleanup_round fs now1 now2) s
  = (if names_accepted fs (now2 - STALE_THRESHOLD)
          (upload_tracker (run (cleanup_stale_chunks now1) s))
     then Ok tt else Raise OSError).
Proof.
  intros Hs.
  assert (Hpersist : ∀ now s0, reachable s0 →
            outcome (persist_incomplete_files fs now) s0
            = (if names_accepted fs (now - STALE_THRESHOLD) (upload_tracker s0)
               then Ok tt else Raise OSError)).
  { intros now s0 H0. apply reachable_store_inv in H0 as ([Hnd Hown] & Hp & _).
    destruct (names_accepted fs (now - STALE_THRESHOLD) (upload_tracker s0)) eqn:Hacc.
    - by destruct (persist_loop_ok fs (now - STALE_THRESHOLD) (upload_tracker s0) s0
                     Hnd Hown Hp Hacc) as [? _].
    - by destruct (persist_loop_refused fs (now - STALE_THRESHOLD) (upload_tracker s0) s0
                     Hnd Hown Hp Hacc) as [? _]. }
  split_and!.
  - apply total_outcome, cleanup_stale_chunks_total.
  - by apply Hpersist.
  - unfold trigger_cleanup. pose proof (Hpersist now1 s Hs) as Hout.
    destruct (names_accepted fs (now1 - STALE_THRESHOLD) (upload_tracker s)).
    + destruct (run_bind_ok (persist_incomplete_files fs now1) (cleanup_stale_chunks now2)
                  s tt Hout) as [_ ->].
      apply total_outcome, cleanup_stale_chunks_total.
    + by destruct (run_bind_raise (persist_incomplete_files fs now1)
                     (cleanup_stale_chunks now2) s OSError Hout) as [_ ->].
  - unfold periodic_cleanup_round.
    destruct (run_bind_total (cleanup_stale_chunks now1) (persist_incomplete_files fs now2)
                s (cleanup_stale_chunks_total now1)) as [_ ->].
    apply Hpersist. eapply reachable_step; [exact Hs|constructor].
Qed.

Lemma reachable_long_store : reachable long_store.
Proof.
  eapply reachable_step; [apply rtc_refl|]. unfold long_store, ingest. constructor.
Qed.

Lemma sweeps_raise_only_OSError_witness :
  outcome (cleanup_stale_chunks 5000000000) long_store = Ok tt ∧
  outcome (persist_incomplete_files name_fits 5000000000) long_store = Raise OSError ∧
  outcome (trigger_cleanup name_fits 5000000000 5000000001) long_store = Raise OSError ∧
  outcome (periodic_cleanup_round name_fits 5000000000 5000000001) long_store = Ok tt.
Proof.
  exact (sweeps_raise_only_OSError name_fits 5000000000 5000000001 long_store
           reachable_long_store).
Defined.

(** ** Uploads against the state of a session *)

(** The store after the fragment write and the tracker update of a
    successful [save_chunk], before the completeness check. *)
Lemma save_chunk_ok_unfold now chunk s :
  let s1 := set_tracker (register_chunk chunk now (upload_tracker s))
              (set_chunk_dir (<[chunk_path_of chunk := data chunk]> (CHUNK_DIR s)) s) in
  save_chunk now io_ok chunk s
  = match total_size chunk with
    | None => (Ok tt, s1)
    | Some m =>
        if sum_lengths (chunks_of (file_id chunk) (upload_tracker s1)) >=? m
        then match assemble_file (file_id chunk) s1 with
             | (Ok _, s2) => (Ok tt, s2)
             | (Raise e, s2) => (Raise e, s2)
             end
        else (Ok tt, s1)
    end.
Proof.
  simpl. unfold save_chunk, write_fragment, bind at 1, modify at 1.
  unfold bind at 1, modify at 1.
  destruct (total_size chunk) as [m|]; [|done].
  unfold bind at 1, get_store. simpl.
  destruct (_ >=? m); [|done]. unfold bind, ret.
  by destruct (assemble_file _ _) as [[b|e] s2].
Qed.

Lemma assemble_file_present_ok fid info s :
  Dict.get fid (upload_tracker s) = Some info →
  present (CHUNK_DIR s) (chunks info) →
  ∃ b, outcome (assemble_file fid) s = Ok b.
Proof.
  intros Hget Hp. destruct (fi_total_size info) as [n|] eqn:Htot.
  - destruct (decide (n ≤ sum_lengths (chunks info))) as [Hle|Hgt].
    + destruct (wp_elim _ _ _ (assemble_file_spec fid info n s Hget Htot Hle Hp))
        as (b & Hout & _). by exists b.
    + exists false. unfold outcome, assemble_file, bind, get_store.
      rewrite Hget, Htot, sum_lengths_sorted.
      by rewrite (proj2 (Z.ltb_lt _ _)) by lia.
  - exists false. unfold outcome, assemble_file, bind, get_store. by rewrite Hget, Htot.
Qed.

(** X8: once its fragment is written, a chunk for a session that is not yet
    complete (or not yet known) is always accepted: [save_chunk] cannot
    raise, whether or not it goes on to assemble the file. *)
Theorem save_chunk_unfinished_ok now chunk s :
  tracker_wf (upload_tracker s) →
  fragments_present s →
  si_status (get_file_status (file_id chunk) s) ≠ "complete"%string →
  outcome (save_chunk now io_ok chunk) s = Ok tt.
Proof.
  intros Hwf Hp Hst.
  pose proof (save_chunk_ok_unfold now chunk s) as Hunf. simpl in Hunf.
  unfold outcome. rewrite Hunf. clear Hunf.
  set (D' := <[chunk_path_of chunk := data chunk]> (CHUNK_DIR s)).
  set (s1 := set_tracker _ _).
  destruct (total_size chunk) as [m|]; [|done].
  destruct (_ >=? m); [|done].
  assert (Hok : ∃ b, outcome (assemble_file (file_id chunk)) s1 = Ok b).
  { eapply assemble_file_present_ok.
    - subst s1. simpl. apply get_register_chunk_eq.
    - subst s1. simpl. unfold present. apply Forall_app. split.
      + destruct (Dict.get (file_id chunk) (upload_tracker s)) as [info|] eqn:Hget;
          [|constructor]. simpl.
        apply present_insert.
        unfold fragments_present in Hp. rewrite Forall_forall in Hp.
        apply (Hp (file_id chunk, info) (get_Some_elem_of _ _ _ Hget)). simpl.
        unfold get_file_status in Hst. rewrite Hget in Hst. simpl in Hst.
        by destruct (is_complete info).
      + constructor; [|constructor]. simpl. subst D'. rewrite lookup_insert_eq.
        by eexists. }
  destruct Hok as [b Hb]. unfold outcome in Hb.
  destruct (assemble_file (file_id chunk) s1) as [[b'|e] s2]; simpl in *; [done|].
  discriminate.
Qed.

Lemma save_chunk_unfinished_ok_witness :
  outcome (save_chunk 20 io_ok conflicting_chunk) sized_store = Ok tt.
Proof.
  apply save_chunk_unfinished_ok.
  - apply (bool_decide_unpack _). by vm_compute.
  - apply (bool_decide_unpack _). by vm_compute.
  - by vm_compute.
Defined.

(** X9: a chunk that makes the raw lengths reach both its own declared total
    and the recorded one, sent to a session of which some other recorded
    fragment is no longer on disk (as after an assembly), is recorded but
    the request raises [FileNotFoundError], and the artifact of the session
    is overwritten: it now holds only the fragments that come before the
    first missing one in start order. *)
Theorem save_chunk_reassembly_overwrites now chunk s info n m c :
  Dict.get (file_id chunk) (upload_tracker s) = Some info →
  fi_total_size info = Some n →
  total_size chunk = Some m →
  m ≤ sum_lengths (chunks info) + (end_byte chunk - start_byte chunk + 1) →
  n ≤ sum_lengths (chunks info) + (end_byte chunk - start_byte chunk + 1) →
  c ∈ chunks info →
  CHUNK_DIR s !! c_path c = None →
  c_path c ≠ chunk_path_of chunk →
  let D' := <[chunk_path_of chunk := data chunk]> (CHUNK_DIR s) in
  let s' := run (save_chunk now io_ok chunk) s in
  outcome (save_chunk now io_ok chunk) s = Raise FileNotFoundError ∧
  chunks_of (file_id chunk) (upload_tracker s') = chunks info ++ [new_rec chunk now] ∧
  UPLOAD_DIR s' !! file_id chunk
  = Some (fragments_concat D'
            (present_prefix D' (sorted_by_start (chunks info ++ [new_rec chunk now])))).
Proof.
  intros Hget Htot Hm Hlem Hlen Hc Hgone Hpath. simpl.
  set (D' := <[chunk_path_of chunk := data chunk]> (CHUNK_DIR s)).
  set (s1 := set_tracker (register_chunk chunk now (upload_tracker s))
               (set_chunk_dir D' s)).
  set (info1 := set_last_updated now (append_chunk (new_rec chunk now) info)).
  assert (Hget1 : Dict.get (file_id chunk) (upload_tracker s1) = Some info1).
  { subst s1. simpl. by rewrite get_register_chunk_eq, Hget. }
  assert (Hsave : save_chunk now io_ok chunk s
                  = match assemble_file (file_id chunk) s1 with
                    | (Ok _, s2) => (Ok tt, s2)
                    | (Raise e, s2) => (Raise e, s2)
                    end).
  { pose proof (save_chunk_ok_unfold now chunk s) as Hunf. simpl in Hunf.
    rewrite Hunf, Hm. unfold chunks_of. rewrite get_register_chunk_eq, Hget. simpl.
    rewrite sum_lengths_app. simpl.
    by rewrite (proj2 (Z.geb_le _ _)) by lia. }
  destruct (assemble_file_missing (file_id chunk) info1 n s1 Hget1 Htot)
    as (Hout & Ht & _ & Hart & _).
  { simpl. rewrite sum_lengths_app. simpl. lia. }
  { intros Hall. unfold present in Hall. rewrite Forall_forall in Hall.
    destruct (Hall c) as [d Hd].
    - simpl. apply elem_of_app. by left.
    - subst s1 D'. simpl in Hd. rewrite lookup_insert_ne in Hd by done. congruence. }
  unfold outcome, run in *. rewrite Hsave.
  destruct (assemble_file (file_id chunk) s1) as [[b|e] s2]; simpl in *; [done|].
  injection Hout as ->. split; [done|]. split; [|exact Hart].
  unfold chunks_of. by rewrite Ht, Hget1.
Qed.

Lemma save_chunk_reassembly_overwrites_witness :
  let D' := <[chunk_path_of late_chunk := data late_chunk]> (CHUNK_DIR short_store) in
  let s' := run (save_chunk 30 io_ok late_chunk) short_store in
  outcome (save_chunk 30 io_ok late_chunk) short_store = Raise FileNotFoundError ∧
  chunks_of (file_id late_chunk) (upload_tracker s')
  = chunks short_info ++ [new_rec late_chunk 30] ∧
  UPLOAD_DIR s' !! file_id late_chunk
  = Some (fragments_concat D'
            (present_prefix D'
               (sorted_by_start (chunks short_info ++ [new_rec late_chunk 30])))).
Proof.
  apply (save_chunk_reassembly_overwrites 30 late_chunk short_store short_info 4 4
           {| c_start := 0; c_end := 2; c_path := ("f", 0, 2)%string;
              c_checksum := 0; c_timestamp := 10 |}).
  - reflexivity.
  - reflexivity.
  - reflexivity.
  - simpl. lia.
  - simpl. lia.
  - simpl. apply list_elem_of_here.
  - reflexivity.
  - discriminate.
Defined.

(** ** Two chunks that complete a file *)

Lemma two_chunk_assembly ta tb ca cb fid n s :
  file_id ca = fid → file_id cb = fid →
  Dict.get fid (upload_tracker s) = None →
  total_size ca = Some n → total_size cb = Some n →
  end_byte ca - start_byte ca + 1 < n →
  n ≤ (end_byte ca - start_byte ca + 1) + (end_byte cb - start_byte cb + 1) →
  let s2 := run (save_chunk tb io_ok cb) (run (save_chunk ta io_ok ca) s) in
  let D2 := <[chunk_path_of cb := data cb]>
              (<[chunk_path_of ca := data ca]> (CHUNK_DIR s)) in
  outcome (save_chunk tb io_ok cb) (run (save_chunk ta io_ok ca) s) = Ok tt ∧
  UPLOAD_DIR s2 !! fid
  = Some (fragments_concat D2 (sorted_by_start [new_rec ca ta; new_rec cb tb])) ∧
  si_status (get_file_status fid s2) = "complete"%string.
Proof.
  intros Hfa Hfb Hnone Hta Htb Hlt Hle. simpl.
  set (sa := set_tracker (register_chunk ca ta (upload_tracker s))
               (set_chunk_dir (<[chunk_path_of ca := data ca]> (CHUNK_DIR s)) s)).
  assert (H1 : save_chunk ta io_ok ca s = (Ok tt, sa)).
  { pose proof (save_chunk_ok_unfold ta ca s) as Hunf. simpl in Hunf.
    rewrite Hunf, Hta. unfold chunks_of. rewrite get_register_chunk_eq, Hfa, Hnone.
    simpl. by rewrite Z.geb_leb, (proj2 (Z.leb_gt _ _)) by lia. }
  assert (Hrun1 : run (save_chunk ta io_ok ca) s = sa) by (unfold run; by rewrite H1).
  rewrite !Hrun1.
  set (D2 := <[chunk_path_of cb := data cb]> (CHUNK_DIR sa)).
  set (sb := set_tracker (register_chunk cb tb (upload_tracker sa)) (set_chunk_dir D2 sa)).
  set (info2 := set_last_updated tb (append_chunk (new_rec cb tb)
                  (set_last_updated ta (append_chunk (new_rec ca ta) (new_info ca ta))))).
  assert (Hget1 : Dict.get fid (upload_tracker sa)
                  = Some (set_last_updated ta (append_chunk (new_rec ca ta) (new_info ca ta)))).
  { pose proof (get_register_chunk_eq ca ta (upload_tracker s)) as H.
    rewrite Hfa, Hnone in H. exact H. }
  assert (Hget2 : Dict.get fid (upload_tracker sb) = Some info2).
  { pose proof (get_register_chunk_eq cb tb (upload_tracker sa)) as H.
    rewrite Hfb, Hget1 in H. exact H. }
  assert (H2 : save_chunk tb io_ok cb sa
               = match assemble_file fid sb with
                 | (Ok _, s2) => (Ok tt, s2)
                 | (Raise e, s2) => (Raise e, s2)
                 end).
  { pose proof (save_chunk_ok_unfold tb cb sa) as Hunf. cbv zeta in Hunf.
    rewrite Hunf, Htb, Hfb.
    change (set_tracker (register_chunk cb tb (upload_tracker sa)) _) with sb.
    unfold chunks_of. rewrite Hget2. simpl.
    by rewrite (proj2 (Z.geb_le _ _)) by lia. }
  assert (Hp : present (CHUNK_DIR sb) (chunks info2)).
  { subst sb D2 sa. simpl. constructor; [|constructor; [|constructor]]; simpl.
    - destruct (decide (chunk_path_of cb = chunk_path_of ca)) as [->|Hne].
      + rewrite lookup_insert_eq. by eexists.
      + rewrite lookup_insert_ne, lookup_insert_eq by done. by eexists.
    - rewrite lookup_insert_eq. by eexists. }
  assert (Hsum : n ≤ sum_lengths (chunks info2)) by (simpl; lia).
  destruct (wp_elim _ _ _ (assemble_file_spec fid info2 n sb Hget2 Hta Hsum Hp))
    as (b & Hout & -> & Hart & Htr & _).
  unfold outcome, run in *. rewrite H2.
  destruct (assemble_file fid sb) as [[b|e] s2]; simpl in *; [|done].
  split; [done|]. split; [exact Hart|].
  unfold get_file_status. rewrite Htr, get_alter_eq, Hget2. done.
Qed.

(** X10: two chunks with different start offsets that together reach the
    declared total give the same artifact in whichever order they arrive:
    the payload with the lower start, then the other one. *)
Theorem two_chunks_either_order t1 t2 t3 t4 lo hi fid n s :
  file_id lo = fid → file_id hi = fid →
  Dict.get fid (upload_tracker s) = None →
  total_size lo = Some n → total_size hi = Some n →
  start_byte lo < start_byte hi →
  end_byte lo - start_byte lo + 1 < n →
  end_byte hi - start_byte hi + 1 < n →
  n ≤ (end_byte lo - start_byte lo + 1) + (end_byte hi - start_byte hi + 1) →
  let in_order := run (save_chunk t2 io_ok hi) (run (save_chunk t1 io_ok lo) s) in
  let reversed := run (save_chunk t4 io_ok lo) (run (save_chunk t3 io_ok hi) s) in
  UPLOAD_DIR in_order !! fid = Some (data lo ++ data hi) ∧
  UPLOAD_DIR reversed !! fid = Some (data lo ++ data hi) ∧
  si_status (get_file_status fid in_order) = "complete"%string ∧
  si_status (get_file_status fid reversed) = "complete"%string.
Proof.
  intros Hlo Hhi Hnone Htl Hth Hstart Hl Hh Hsum. simpl.
  assert (Hpath : chunk_path_of lo ≠ chunk_path_of hi).
  { unfold chunk_path_of. intros [= _ H _]. lia. }
  destruct (two_chunk_assembly t1 t2 lo hi fid n s Hlo Hhi Hnone Htl Hth Hl Hsum)
    as (_ & Ha & Hsa).
  destruct (two_chunk_assembly t3 t4 hi lo fid n s Hhi Hlo Hnone Hth Htl Hh)
    as (_ & Hb & Hsb); [lia|].
  split_and!; [| |done|done].
  - rewrite Ha. unfold fragments_concat. simpl.
    rewrite (proj2 (Z.leb_le _ _)) by lia. simpl.
    rewrite lookup_insert_ne, !lookup_insert_eq by done. simpl.
    by rewrite app_nil_r.
  - rewrite Hb. unfold fragments_concat. simpl.
    rewrite (proj2 (Z.leb_gt _ _)) by lia. simpl.
    rewrite lookup_insert_eq, lookup_insert_ne, lookup_insert_eq by done. simpl.
    by rewrite app_nil_r.
Qed.

Lemma two_chunks_either_order_witness :
  let in_order := run (save_chunk 20 io_ok high_chunk)
                    (run (save_chunk 10 io_ok low_chunk) empty_store) in
  let reversed := run (save_chunk 20 io_ok low_chunk)
                    (run (save_chunk 10 io_ok high_chunk) empty_store) in
  UPLOAD_DIR in_order !! "f"%string = Some (data low_chunk ++ data high_chunk) ∧
  UPLOAD_DIR reversed !! "f"%string = Some (data low_chunk ++ data high_chunk) ∧
  si_status (get_file_status "f" in_order) = "complete"%string ∧
  si_status (get_file_status "f" reversed) = "complete"%string.
Proof.
  apply (two_chunks_either_order 10 20 10 20 low_chunk high_chunk "f" 4 empty_store);
    try reflexivity; simpl; lia.
Defined.

(** X11: a range delivered twice with different payloads is not merged: both
    records point at the one fragment file, which holds the later payload,
    so when the two deliveries complete the file the artifact is the later
    payload twice. *)
Theorem duplicate_range_keeps_latest_payload t1 t2 ca cb fid n s :
  file_id ca = fid → file_id cb = fid →
  Dict.get fid (upload_tracker s) = None →
  total_size ca = Some n → total_size cb = Some n →
  start_byte cb = start_byte ca → end_byte cb = end_byte ca →
  end_byte ca - start_byte ca + 1 < n →
  n ≤ 2 * (end_byte ca - start_byte ca + 1) →
  let s2 := run (save_chunk t2 io_ok cb) (run (save_chunk t1 io_ok ca) s) in
  UPLOAD_DIR s2 !! fid = Some (data cb ++ data cb) ∧
  si_status (get_file_status fid s2) = "complete"%string ∧
  si_chunks (get_file_status fid s2)
  = [(start_byte ca, end_byte ca); (start_byte ca, end_byte ca)].
Proof.
  intros Ha Hb Hnone Hta Htb Hs He Hlt Hle. simpl.
  assert (Hpath : chunk_path_of cb = chunk_path_of ca).
  { unfold chunk_path_of. by rewrite Ha, Hb, Hs, He. }
  destruct (two_chunk_assembly t1 t2 ca cb fid n s Ha Hb Hnone Hta Htb Hlt)
    as (_ & Hart & Hst); [lia|].
  split_and!; [|done|].
  - rewrite Hart. unfold fragments_concat. simpl.
    rewrite (proj2 (Z.leb_le _ _)) by lia. simpl.
    rewrite Hpath, !lookup_insert_eq. simpl. by rewrite app_nil_r.
  - pose proof (chunks_of_save_chunk t2 cb (run (save_chunk t1 io_ok ca) s) fid) as H2.
    pose proof (chunks_of_save_chunk t1 ca s fid) as H1.
    rewrite decide_True in H1 by done. rewrite decide_True in H2 by done.
    unfold chunks_of in H1 at 2. rewrite Hnone in H1. rewrite H1 in H2.
    unfold get_file_status. unfold chunks_of in H2.
    destruct (Dict.get fid (upload_tracker (run (save_chunk t2 io_ok cb)
                                              (run (save_chunk t1 io_ok ca) s))))
      as [info|] eqn:Hget; [|by simpl in H2].
    simpl. rewrite H2. simpl. by rewrite Hs, He.
Qed.

Lemma duplicate_range_keeps_latest_payload_witness :
  let s2 := run (save_chunk 20 io_ok low_chunk_again)
              (run (save_chunk 10 io_ok low_chunk_first) empty_store) in
  UPLOAD_DIR s2 !! "f"%string = Some (data low_chunk_again ++ data low_chunk_again) ∧
  si_status (get_file_status "f" s2) = "complete"%string ∧
  si_chunks (get_file_status "f" s2) = [(0, 1); (0, 1)].
Proof.
  apply (duplicate_range_keeps_latest_payload 10 20 low_chunk_first low_chunk_again
           "f" 3 empty_store); try reflexivity; simpl; lia.
Defined.

(** ** What the passes do to each session *)

Lemma cleanup_one_idle threshold g gi :
  cleanup_acts threshold gi = false → cleanup_one threshold (g, gi) = ret tt.
Proof.
  intros Hno. unfold cleanup_one.
  destruct (is_complete gi) eqn:Hc; [done|].
  destruct (stale_scan threshold (chunks gi)) eqn:Hst; [|done].
  assert (cleanup_acts threshold gi = true) by (by apply cleanup_acts_stale).
  congruence.
Qed.

Lemma persist_one_idle fs threshold g gi :
  persist_acts threshold gi = false → persist_one fs threshold (g, gi) = ret tt.
Proof.
  unfold persist_acts, persist_one. destruct (is_complete gi); [done|].
  simpl. by intros ->.
Qed.

Lemma cleanup_loop_idle threshold l s :
  (∀ x, x ∈ l → cleanup_acts threshold x.2 = false) →
  for_each (cleanup_one threshold) l s = (Ok tt, s).
Proof.
  revert s. induction l as [|[g gi] l IH]; intros s Hl; [done|].
  cbn [for_each]. rewrite (cleanup_one_idle threshold g gi).
  - unfold bind, ret. apply IH. intros x Hx. apply Hl. by right.
  - apply (Hl (g, gi)). left.
Qed.

Lemma get_kept_cleanup_one fid info threshold g gi :
  (g = fid → cleanup_acts threshold gi = false) →
  preserves (λ s, Dict.get fid (upload_tracker s) = Some info)
            (cleanup_one threshold (g, gi)).
Proof.
  intros Hsame. destruct (decide (g = fid)) as [Heq|Hne].
  - rewrite cleanup_one_idle by auto. apply preserves_ret.
  - unfold cleanup_one. destruct (is_complete gi); [apply preserves_ret|].
    destruct (stale_scan threshold (chunks gi)); [|apply preserves_ret].
    apply preserves_bind.
    + apply preserves_remove_fragments. intros c _. by apply preserves_modify.
    + intros _. apply preserves_modify. intros s Hs. simpl. by rewrite get_del_ne.
Qed.

Lemma get_kept_persist_one fs fid info threshold g gi :
  (g = fid → persist_acts threshold gi = false) →
  preserves (λ s, Dict.get fid (upload_tracker s) = Some info)
            (persist_one fs threshold (g, gi)).
Proof.
  intros Hsame. destruct (decide (g = fid)) as [Heq|Hne].
  - rewrite persist_one_idle by auto. apply preserves_ret.
  - unfold persist_one. destruct (is_complete gi); [apply preserves_ret|].
    destruct (_ && _); [|apply preserves_ret].
    apply preserves_bind; [by apply preserves_open_output, preserves_modify|]. intros _.
    apply preserves_bind.
    { apply preserves_copy_fragments. intros d. by apply preserves_modify. }
    intros _. apply preserves_bind.
    + apply preserves_remove_fragments. intros c _. by apply preserves_modify.
    + intros _. apply preserves_modify. intros s Hs. simpl. by rewrite get_del_ne.
Qed.

Lemma get_kept_cleanup now fid info s :
  NoDup (upload_tracker s).*1 →
  Dict.get fid (upload_tracker s) = Some info →
  cleanup_acts (now - STALE_THRESHOLD) info = false →
  Dict.get fid (upload_tracker (run (cleanup_stale_chunks now) s)) = Some info.
Proof.
  intros Hnd Hget Hno. unfold run, cleanup_stale_chunks, bind, get_store.
  apply (preserves_for_each (λ s', Dict.get fid (upload_tracker s') = Some info)); [|done].
  intros [g gi] Hin. apply get_kept_cleanup_one. intros ->.
  rewrite (elem_of_get_NoDup _ _ _ Hnd Hin) in Hget. by injection Hget as ->.
Qed.

Lemma get_kept_persist fs now fid info s :
  NoDup (upload_tracker s).*1 →
  Dict.get fid (upload_tracker s) = Some info →
  persist_acts (now - STALE_THRESHOLD) info = false →
  Dict.get fid (upload_tracker (run (persist_incomplete_files fs now) s)) = Some info.
Proof.
  intros Hnd Hget Hno. unfold run, persist_incomplete_files, bind, get_store.
  apply (preserves_for_each (λ s', Dict.get fid (upload_tracker s') = Some info)); [|done].
  intros [g gi] Hin. apply get_kept_persist_one. intros ->.
  rewrite (elem_of_get_NoDup _ _ _ Hnd Hin) in Hget. by injection Hget as ->.
Qed.

(** X20: when the tracker has one record per id, the cleanup pass does not
    raise and touches no artifact; a session is tracked afterwards exactly
    when it was tracked before and is complete or has a chunk newer than
    the threshold, and then its record is unchanged; the fragments of every
    session it removes are deleted. *)
Theorem cleanup_stale_chunks_result now s fid :
  NoDup (upload_tracker s).*1 →
  let s' := run (cleanup_stale_chunks now) s in
  outcome (cleanup_stale_chunks now) s = Ok tt ∧
  UPLOAD_DIR s' = UPLOAD_DIR s ∧
  Dict.get fid (upload_tracker s')
  = match Dict.get fid (upload_tracker s) with
    | Some info =>
        if cleanup_acts (now - STALE_THRESHOLD) info then None else Some info
    | None => None
    end ∧
  (∀ info c, Dict.get fid (upload_tracker s) = Some info →
             cleanup_acts (now - STALE_THRESHOLD) info = true →
             c ∈ chunks info → CHUNK_DIR s' !! c_path c = None).
Proof.
  intros Hnd. simpl.
  split; [apply total_outcome, cleanup_stale_chunks_total|].
  split; [apply cleanup_keeps_upload_dir|].
  assert (Hgone : ∀ info, Dict.get fid (upload_tracker s) = Some info →
            cleanup_acts (now - STALE_THRESHOLD) info = true →
            session_gone fid (UPLOAD_DIR s !! incomplete_name fid) (c_path <$> chunks info)
              (run (cleanup_stale_chunks now) s)).
  { intros info Hget Hact. unfold run, cleanup_stale_chunks, bind, get_store.
    apply cleanup_loop_removes; [by apply get_Some_elem_of|done]. }
  split.
  - destruct (Dict.get fid (upload_tracker s)) as [info|] eqn:Hget.
    + destruct (cleanup_acts (now - STALE_THRESHOLD) info) eqn:Hact.
      * by destruct (Hgone info eq_refl Hact) as (? & _).
      * by apply get_kept_cleanup.
    + destruct (gone_cleanup_stale_chunks fid (UPLOAD_DIR s !! incomplete_name fid) []
                  now s) as (? & _); [|done].
      split_and!; [done|done|]. intros p Hp. by apply elem_of_nil in Hp.
  - intros info c Hget Hact Hc.
    destruct (Hgone info Hget Hact) as (_ & _ & Hpaths).
    apply Hpaths. apply list_elem_of_fmap. by exists c.
Qed.

Lemma cleanup_stale_chunks_result_witness :
  let s' := run (cleanup_stale_chunks 5000000000) lone_store in
  outcome (cleanup_stale_chunks 5000000000) lone_store = Ok tt ∧
  UPLOAD_DIR s' = UPLOAD_DIR lone_store ∧
  Dict.get "f" (upload_tracker s')
  = match Dict.get "f" (upload_tracker lone_store) with
    | Some info =>
        if cleanup_acts (5000000000 - STALE_THRESHOLD) info then None else Some info
    | None => None
    end ∧
  (∀ info c, Dict.get "f" (upload_tracker lone_store) = Some info →
             cleanup_acts (5000000000 - STALE_THRESHOLD) info = true →
             c ∈ chunks info → CHUNK_DIR s' !! c_path c = None).
Proof.
  apply (cleanup_stale_chunks_result 5000000000 lone_store "f").
  apply (bool_decide_unpack _). by vm_compute.
Defined.

(** X21: running the cleanup pass again at the same clock reading (or an
    earlier one) changes nothing: the first run has removed everything the
    second would act on. *)
Theorem cleanup_stale_chunks_idempotent now now' s :
  now' ≤ now →
  cleanup_stale_chunks now' (run (cleanup_stale_chunks now) s)
  = (Ok tt, run (cleanup_stale_chunks now) s).
Proof.
  intros Hle. set (s1 := run (cleanup_stale_chunks now) s).
  unfold cleanup_stale_chunks at 1. unfold bind, get_store.
  apply cleanup_loop_idle. intros x Hx.
  apply (cleanup_loop_survivors (now - STALE_THRESHOLD) (upload_tracker s) s x) in Hx
    as [Hin Hno].
  specialize (Hno Hin). unfold cleanup_acts in *.
  destruct (is_complete x.2); [done|]. simpl in *.
  apply negb_false_iff in Hno. apply negb_false_iff.
  by apply (recent_activity_mono (now - STALE_THRESHOLD)); [lia|].
Qed.

Lemma cleanup_stale_chunks_idempotent_witness :
  cleanup_stale_chunks 5000000000 (run (cleanup_stale_chunks 5000000000) lone_store)
  = (Ok tt, run (cleanup_stale_chunks 5000000000) lone_store).
Proof. apply cleanup_stale_chunks_idempotent. lia. Defined.




(** ** Completion is final *)

Lemma complete_kept_save_chunk now io chunk s fid info :
  Dict.get fid (upload_tracker s) = Some info →
  is_complete info = true →
  ∃ info', Dict.get fid (upload_tracker (run (save_chunk now io chunk) s)) = Some info' ∧
           is_complete info' = true ∧
           fi_total_size info' = fi_total_size info.
Proof.
  intros Hget Hc. destruct io as [| |k].
  2,3: exists info; split; [|done];
       unfold run, save_chunk; cbv [bind write_fragment raise modify]; simpl; done.
  assert (Hreg : ∃ info1, Dict.get fid (register_chunk chunk now (upload_tracker s))
                          = Some info1 ∧ is_complete info1 = true ∧
                          fi_total_size info1 = fi_total_size info).
  { destruct (decide (file_id chunk = fid)) as [<-|Hne].
    - rewrite get_register_chunk_eq, Hget. simpl. by eexists.
    - rewrite get_register_chunk_ne by done. by exists info. }
  destruct Hreg as (info1 & Hget1 & Hc1 & Ht1).
  destruct (save_chunk_ok_tracker now chunk s) as [-> | ->]; [by exists info1|].
  destruct (decide (file_id chunk = fid)) as [<-|Hne].
  - rewrite get_alter_eq, Hget1. simpl. by eexists.
  - rewrite get_alter_ne by done. by exists info1.
Qed.

Lemma complete_kept_step s s' fid info :
  store_inv s → step s s' →
  Dict.get fid (upload_tracker s) = Some info →
  is_complete info = true →
  ∃ info', Dict.get fid (upload_tracker s') = Some info' ∧
           is_complete info' = true ∧
           fi_total_size info' = fi_total_size info.
Proof.
  intros ([Hnd _] & _) Hstep Hget Hc.
  destruct Hstep as [now io fid' cr raw s|now s|fs now s].
  - destruct (upload_run_cases now io fid' cr raw s) as [->|(chunk & _ & ->)];
      [by exists info|].
    by apply complete_kept_save_chunk.
  - exists info. split; [|done]. apply get_kept_cleanup; [done..|].
    unfold cleanup_acts. by rewrite Hc.
  - exists info. split; [|done]. apply get_kept_persist; [done..|].
    unfold persist_acts. by rewrite Hc.
Qed.

(** X18: once a session is complete it stays tracked and complete, with the
    same recorded total size, whatever uploads and sweeps follow: no pass
    ever removes the record of a complete session. *)
Theorem complete_is_final s s' fid info :
  reachable s → rtc step s s' →
  Dict.get fid (upload_tracker s) = Some info →
  is_complete info = true →
  ∃ info', Dict.get fid (upload_tracker s') = Some info' ∧
           is_complete info' = true ∧
           fi_total_size info' = fi_total_size info.
Proof.
  intros Hs Hsteps Hget Hc. revert s' Hsteps.
  apply (rtc_ind_r (λ s', reachable s' ∧
           ∃ info', Dict.get fid (upload_tracker s') = Some info' ∧
                    is_complete info' = true ∧
                    fi_total_size info' = fi_total_size info)).
  - split; [done|]. by exists info.
  - intros s1 s2 _ Hstep (Hr1 & info1 & Hget1 & Hc1 & Ht1).
    split; [by eapply reachable_step|].
    destruct (complete_kept_step s1 s2 fid info1 (reachable_store_inv s1 Hr1)
                Hstep Hget1 Hc1) as (info2 & Hget2 & Hc2 & Ht2).
    exists info2. split_and!; [done|done|congruence].
Qed.

Lemma complete_is_final_witness :
  ∃ info',
    Dict.get "f" (upload_tracker
                    (run (upload_file_chunk 30 io_ok "f" (cr_bytes 3 3 (Some 4))
                            (body_of [Byte.x01])) short_store)) = Some info' ∧
    is_complete info' = true ∧
    fi_total_size info' = fi_total_size short_info.
Proof.
  apply (complete_is_final short_store _ "f" short_info).
  - apply reachable_short_store.
  - apply rtc_once. constructor.
  - reflexivity.
  - reflexivity.
Defined.
